(** * A shallow embedding of the @currentjs/templating engine

    The development follows [src/TemplateEngine.ts].  Every method of the
    [TemplateEngine] class is a definition of the same name; what the class
    asks of its host (the regular-expression engine, [new Function], the
    global object, [String(...)]) is modelled in the first modules. *)

From Stdlib Require Import String Ascii.
From Stdlib Require Import List NArith ZArith Bool Lia Arith.
From Stdlib Require Import Sorted Permutation.
Import ListNotations.

Set Implicit Arguments.
Set Warnings "-register-all".

(** ** JavaScript strings

    A JavaScript string is a sequence of UTF-16 code units. *)

Module JsString.

Definition jschar := N.
Definition jstr := list jschar.
Bind Scope N_scope with jschar.

(** Literals are written as Rocq strings, one code unit per character. *)
Definition js (s : string) : jstr :=
  List.map N_of_ascii (list_ascii_of_string s).

Fixpoint jstr_eqb (a b : jstr) : bool :=
  match a, b with
  | [], [] => true
  | x :: a', y :: b' => N.eqb x y && jstr_eqb a' b'
  | _, _ => false
  end.

Definition in_range (lo hi c : N) : bool := N.leb lo c && N.leb c hi.

(** [\w] of the regular expressions: [A-Za-z0-9_]. *)
Definition is_word (c : jschar) : bool :=
  in_range 65 90 c || in_range 97 122 c || in_range 48 57 c || N.eqb c 95.

(** White space and line terminators of ECMAScript, shared by [\s] and
    [String.prototype.trim]. *)
Definition is_space (c : jschar) : bool :=
  in_range 9 13 c || N.eqb c 32 || N.eqb c 160 || N.eqb c 5760
  || in_range 8192 8202 c || N.eqb c 8232 || N.eqb c 8233 || N.eqb c 8239
  || N.eqb c 8287 || N.eqb c 12288 || N.eqb c 65279.

Fixpoint trimStart (s : jstr) : jstr :=
  match s with
  | c :: s' => if is_space c then trimStart s' else s
  | [] => []
  end.

(** [s.trim()] *)
Definition trim (s : jstr) : jstr := rev (trimStart (rev (trimStart s))).

(** [s.toLowerCase()], on the ASCII letters; code units outside ASCII are
    left as they are (the Unicode case tables of the host are not part of
    the model). *)
Definition lower_char (c : jschar) : jschar :=
  if in_range 65 90 c then (c + 32)%N else c.

Definition toLowerCase (s : jstr) : jstr := List.map lower_char s.

(** [parts.join(sep)] on an array of strings. *)
Fixpoint join (sep : jstr) (parts : list jstr) : jstr :=
  match parts with
  | [] => []
  | [p] => p
  | p :: rest => p ++ sep ++ join sep rest
  end.

(** [arr.includes(s)] on an array of strings. *)
Definition includes (arr : list jstr) (s : jstr) : bool :=
  existsb (jstr_eqb s) arr.

Fixpoint uint_units (d : Decimal.uint) : jstr :=
  match d with
  | Decimal.Nil => []
  | Decimal.D0 d => 48%N :: uint_units d
  | Decimal.D1 d => 49%N :: uint_units d
  | Decimal.D2 d => 50%N :: uint_units d
  | Decimal.D3 d => 51%N :: uint_units d
  | Decimal.D4 d => 52%N :: uint_units d
  | Decimal.D5 d => 53%N :: uint_units d
  | Decimal.D6 d => 54%N :: uint_units d
  | Decimal.D7 d => 55%N :: uint_units d
  | Decimal.D8 d => 56%N :: uint_units d
  | Decimal.D9 d => 57%N :: uint_units d
  end.

(** Decimal text of a natural number, as [String(n)] prints it. *)
Definition nat_units (n : nat) : jstr := uint_units (Nat.to_uint n).

(** Decimal text of an integer. *)
Definition int_units (z : Z) : jstr :=
  match z with
  | Z0 => [48%N]
  | Zpos p => uint_units (Pos.to_uint p)
  | Zneg p => 45%N :: uint_units (Pos.to_uint p)
  end.

End JsString.
Export JsString.

(** ** Outcomes

    A computation returns, throws, or leaves the modelled part of the host:
    [Stuck] marks an input on which the model gives no verdict (an expression
    outside the modelled grammar, a recursion budget that ran out). *)

Inductive why := OutOfFuel | Unsupported.

Inductive outcome (E A : Type) : Type :=
| Ok (a : A)
| Throw (e : E)
| Stuck (w : why).

Arguments Ok {E A} a.
Arguments Throw {E A} e.
Arguments Stuck {E A} w.

Definition bind {E A B} (m : outcome E A) (k : A -> outcome E B) : outcome E B :=
  match m with
  | Ok a => k a
  | Throw e => Throw e
  | Stuck w => Stuck w
  end.

Declare Scope outcome_scope.
Delimit Scope outcome_scope with outcome.
Notation "x <- m ;; k" := (bind m (fun x => k))
  (at level 61, m at next level, right associativity) : outcome_scope.
Notation "' p <- m ;; k" := (bind m (fun x => let p := x in k))
  (at level 61, p pattern, m at next level, right associativity) : outcome_scope.
Open Scope outcome_scope.

(** [catchWith h m]: [try { m } catch (e) { throw h(e) }]. *)
Definition catchWith {E E' A} (h : E -> E') (m : outcome E A) : outcome E' A :=
  match m with
  | Ok a => Ok a
  | Throw e => Throw (h e)
  | Stuck w => Stuck w
  end.

(** ** JavaScript values

    The data a caller hands to [render]: primitives, arrays and plain
    objects.  An object is the ordered list of its own enumerable properties
    together with its prototype, which is [Object.prototype] or [null]
    ([Object.create(null)]).  [VFun] is a built-in function object of the
    host, known by its name only.  Symbols, big integers, functions of the
    caller and objects of other classes are not values of the model. *)

Module JsValue.

Inductive proto := ProtoNull | ProtoObject.

(** A number is a binary64: an integer, a number with a fraction, the zero
    with the minus sign, an infinity or NaN.  [Fraction negative m e] is
    [m / 2^e] with its sign, [m] odd.  An integer literal in a statement
    stands for [Int] of it. *)
Inductive number :=
| Int (z : Z)
| Fraction (negative : bool) (m e : positive)
| NegZero
| Infinity (negative : bool)
| NaN.

Bind Scope Z_scope with number.
Coercion Int : Z >-> number.

Inductive value :=
| VUndef
| VNull
| VBool (b : bool)
| VNum (n : number)
| VStr (s : jstr)
| VArr (items : list value)
| VObj (p : proto) (props : list (jstr * value))
| VFun (name : jstr).

Definition props := list (jstr * value).

(** Exceptions of the host; [SystemError] is what a failing call of the
    [fs] module throws. *)
Inductive js_exn :=
| SyntaxError
| TypeError
| SystemError.

Definition jsres := outcome js_exn.

Fixpoint assoc (k : jstr) (l : props) : option value :=
  match l with
  | [] => None
  | (k', v) :: l' => if jstr_eqb k k' then Some v else assoc k l'
  end.

(** [obj[k] = v] as a definition of an own property: an existing key keeps
    its place, a new key is appended. *)
Fixpoint define (k : jstr) (v : value) (l : props) : props :=
  match l with
  | [] => [(k, v)]
  | (k', v') :: l' => if jstr_eqb k k' then (k, v) :: l' else (k', v') :: define k v l'
  end.

(** [Object.assign(target, source)] and the spread [{...target, ...source}]
    on own property lists. *)
Definition assign (target source : props) : props :=
  fold_left (fun acc kv => define (fst kv) (snd kv) acc) source target.

(** The keys [0], [1], ... and values of the indexed own properties of an
    array or of a string. *)
Fixpoint indexed (i : nat) (l : list value) : props :=
  match l with
  | [] => []
  | v :: l' => (nat_units i, v) :: indexed (S i) l'
  end.

(** The own enumerable properties a spread [{...v}] or [Object.assign]
    copies out of [v]. *)
Definition ownProps (v : value) : props :=
  match v with
  | VObj _ ps => ps
  | VArr items => indexed 0 items
  | VStr s => indexed 0 (List.map (fun c => VStr [c]) s)
  | _ => []
  end.

(** [Array.isArray(v)] *)
Definition isArray (v : value) : bool :=
  match v with VArr _ => true | _ => false end.

(** [v === null || v === undefined] *)
Definition isNullish (v : value) : bool :=
  match v with VUndef | VNull => true | _ => false end.

(** An array, an object or a function: a value with an identity. *)
Definition isReference (v : value) : bool :=
  match v with VArr _ | VObj _ _ | VFun _ => true | _ => false end.

(** [Boolean(v)]: [undefined], [null], [false], the two zeros, NaN and the
    empty string are false. *)
Definition toBoolean (v : value) : bool :=
  match v with
  | VUndef | VNull => false
  | VBool b => b
  | VNum (Int z) => negb (Z.eqb z 0)
  | VNum (Fraction _ _ _) => true
  | VNum NegZero => false
  | VNum (Infinity _) => true
  | VNum NaN => false
  | VStr s => match s with [] => false | _ => true end
  | VArr _ | VObj _ _ | VFun _ => true
  end.

(** [data && typeof data === 'object'] *)
Definition isTruthyObject (v : value) : bool :=
  match v with VArr _ | VObj _ _ => true | _ => false end.

Definition hasOwn (k : jstr) (l : props) : bool :=
  match assoc k l with Some _ => true | None => false end.

(** The integers binary64 holds one by one: up to [2^53] in magnitude. *)
Definition safeInteger (z : Z) : bool := Z.leb (Z.abs z) 9007199254740992.

(** [String(n)] for a number.  A safe integer prints its decimal digits;
    the shortest digits that a larger integer or a fraction prints are not
    modelled. *)
Definition numberToString (n : number) : jsres jstr :=
  match n with
  | Int z => if safeInteger z then Ok (int_units z) else Stuck Unsupported
  | Fraction _ _ _ => Stuck Unsupported
  | NegZero => Ok (js "0")
  | Infinity false => Ok (js "Infinity")
  | Infinity true => Ok (js "-Infinity")
  | NaN => Ok (js "NaN")
  end.

(** [String(v)].  A plain object prints through [Object.prototype.toString];
    one that carries a conversion method of its own ([toString], [valueOf])
    is outside the model, and one without a prototype has no conversion at
    all, which is a [TypeError].  An array prints through
    [Array.prototype.join]. *)
Fixpoint toString (v : value) : jsres jstr :=
  match v with
  | VUndef => Ok (js "undefined")
  | VNull => Ok (js "null")
  | VBool true => Ok (js "true")
  | VBool false => Ok (js "false")
  | VNum n => numberToString n
  | VStr s => Ok s
  | VArr items =>
      (fix elements (l : list value) : jsres jstr :=
         match l with
         | [] => Ok []
         | x :: l' =>
             s <- (if isNullish x then Ok [] else toString x) ;;
             match l' with
             | [] => Ok s
             | _ => r <- elements l' ;; Ok (s ++ js "," ++ r)
             end
         end) items
  | VObj p ps =>
      if hasOwn (js "toString") ps || hasOwn (js "valueOf") ps then Stuck Unsupported
      else match p with
           | ProtoObject => Ok (js "[object Object]")
           | ProtoNull => Throw TypeError
           end
  | VFun name => Ok (js "function " ++ name ++ js "() { [native code] }")
  end.

(** *** Operators on primitives

    The numerator of a finite number over a power of two. *)
Definition finite (n : number) : option (Z * N) :=
  match n with
  | Int z => Some (z, 0%N)
  | Fraction negative m e => Some (if negative then Zneg m else Zpos m, Npos e)
  | NegZero => Some (0%Z, 0%N)
  | Infinity _ | NaN => None
  end.

Definition isNaN (n : number) : bool :=
  match n with NaN => true | _ => false end.

(** [x < y] on two numbers that are not NaN. *)
Definition numberLess (x y : number) : bool :=
  match x, y with
  | NaN, _ | _, NaN => false
  | Infinity nx, Infinity ny => nx && negb ny
  | Infinity nx, _ => nx
  | _, Infinity ny => negb ny
  | _, _ =>
      match finite x, finite y with
      | Some (a, ea), Some (b, eb) => Z.ltb (a * 2 ^ Z.of_N eb) (b * 2 ^ Z.of_N ea)
      | _, _ => false
      end
  end.

(** [x === y] on two numbers: NaN equals nothing, the two zeros are equal. *)
Definition numberEquals (x y : number) : bool :=
  match x, y with
  | NaN, _ | _, NaN => false
  | Infinity nx, Infinity ny => Bool.eqb nx ny
  | Infinity _, _ | _, Infinity _ => false
  | _, _ =>
      match finite x, finite y with
      | Some (a, ea), Some (b, eb) => Z.eqb (a * 2 ^ Z.of_N eb) (b * 2 ^ Z.of_N ea)
      | _, _ => false
      end
  end.

(** [-x] *)
Definition numberNeg (x : number) : number :=
  match x with
  | Int Z0 => NegZero
  | Int z => Int (- z)
  | Fraction negative m e => Fraction (negb negative) m e
  | NegZero => Int 0
  | Infinity negative => Infinity (negb negative)
  | NaN => NaN
  end.

(** [x + y]; [None] where the sum may be rounded: safe integers with a safe
    sum add exactly. *)
Definition numberAdd (x y : number) : option number :=
  match x, y with
  | NaN, _ | _, NaN => Some NaN
  | Infinity nx, Infinity ny => Some (if Bool.eqb nx ny then Infinity nx else NaN)
  | Infinity nx, _ => Some (Infinity nx)
  | _, Infinity ny => Some (Infinity ny)
  | NegZero, _ => Some y
  | _, NegZero => Some x
  | Int a, Int b =>
      if safeInteger a && safeInteger b && safeInteger (a + b) then Some (Int (a + b))
      else None
  | _, _ => None
  end.

(** The sign of a number that is not NaN: [true] for the minus sign. *)
Definition isNegative (x : number) : bool :=
  match x with
  | Int z => Z.ltb z 0
  | Fraction negative _ _ => negative
  | NegZero => true
  | Infinity negative => negative
  | NaN => false
  end.

Definition isZero (x : number) : bool :=
  match x with
  | Int Z0 | NegZero => true
  | _ => false
  end.

Definition isInfinite (x : number) : bool :=
  match x with Infinity _ => true | _ => false end.

(** [x * y]; [None] where the product may be rounded: safe integers with a
    safe product multiply exactly.  A zero product keeps the sign of the
    factors, and an infinity times a zero is NaN. *)
Definition numberMul (x y : number) : option number :=
  let negative := xorb (isNegative x) (isNegative y) in
  if isNaN x || isNaN y then Some NaN
  else if isInfinite x || isInfinite y
       then Some (if isZero x || isZero y then NaN else Infinity negative)
       else if isZero x || isZero y
            then Some (if negative then NegZero else Int 0)
            else match x, y with
                 | Int a, Int b =>
                     if safeInteger a && safeInteger b && safeInteger (a * b)
                     then Some (Int (a * b)) else None
                 | _, _ => None
                 end.

(** [Number(v)] on a primitive; the number a string reads as is not
    modelled. *)
Definition toNumber (v : value) : option number :=
  match v with
  | VUndef => Some NaN
  | VNull => Some (Int 0)
  | VBool true => Some (Int 1)
  | VBool false => Some (Int 0)
  | VNum n => Some n
  | _ => None
  end.

(** [a < b] on two strings: the order of their code units. *)
Fixpoint stringLess (a b : jstr) : bool :=
  match a, b with
  | _, [] => false
  | [], _ :: _ => true
  | x :: a', y :: b' => N.ltb x y || (N.eqb x y && stringLess a' b')
  end.

(** The abstract comparison [IsLessThan(a, b)] on primitives: [Some None]
    is the undefined answer a NaN gives, [None] a pair outside the model. *)
Definition isLessThan (a b : value) : option (option bool) :=
  match a, b with
  | VStr x, VStr y => Some (Some (stringLess x y))
  | _, _ =>
      match toNumber a, toNumber b with
      | Some x, Some y =>
          Some (if isNaN x || isNaN y then None else Some (numberLess x y))
      | _, _ => None
      end
  end.

(** [a === b]; the identity of two arrays, objects or functions is not
    modelled. *)
Definition strictEquals (a b : value) : option bool :=
  match a, b with
  | VUndef, VUndef | VNull, VNull => Some true
  | VBool x, VBool y => Some (Bool.eqb x y)
  | VNum x, VNum y => Some (numberEquals x y)
  | VStr x, VStr y => Some (jstr_eqb x y)
  | _, _ => if isReference a && isReference b then None else Some false
  end.

(** [a == b]; a comparison that converts a string to a number or an object
    to a primitive is not modelled. *)
Definition looseEquals (a b : value) : option bool :=
  match a, b with
  | (VUndef | VNull), (VUndef | VNull) => Some true
  | (VUndef | VNull), _ | _, (VUndef | VNull) => Some false
  | VBool x, VBool y => Some (Bool.eqb x y)
  | VNum x, VNum y => Some (numberEquals x y)
  | VStr x, VStr y => Some (jstr_eqb x y)
  | VBool x, VNum y => Some (numberEquals (if x then Int 1 else Int 0) y)
  | VNum x, VBool y => Some (numberEquals x (if y then Int 1 else Int 0))
  | _, _ => None
  end.

(** The ambient state of the host an expression can reach: the own
    properties of [globalThis] and the properties the built-in prototypes
    offer to every object, array, string, number and boolean. *)
Record Host := {
  globalOwn : props;
  objectProto : props;
  arrayProto : props;
  stringProto : props;
  numberProto : props;
  booleanProto : props
}.

Definition orElse {A} (a b : option A) : option A :=
  match a with Some x => Some x | None => b end.

(** A canonical array index: decimal digits without a leading zero. *)
Definition parseIndex (k : jstr) : option nat :=
  match k with
  | [] => None
  | [48%N] => Some 0
  | 48%N :: _ => None
  | _ =>
      fold_left (fun acc c =>
                   match acc with
                   | Some n => if in_range 48 57 c then Some (10 * n + N.to_nat (c - 48)) else None
                   | None => None
                   end) k (Some 0)
  end.

(** Property lookup through the prototype chain: [Some v] when [k in o]
    holds, with [v = o[k]].  The properties of a function object are not
    modelled. *)
Definition lookupProperty (H : Host) (o : value) (k : jstr) : jsres (option value) :=
  match o with
  | VUndef | VNull => Throw TypeError
  | VObj ProtoNull ps => Ok (assoc k ps)
  | VObj ProtoObject ps => Ok (orElse (assoc k ps) (assoc k (objectProto H)))
  | VArr items =>
      Ok (orElse (if jstr_eqb k (js "length") then Some (VNum (Z.of_nat (length items)))
                  else match parseIndex k with
                       | Some i => nth_error items i
                       | None => None
                       end)
                 (orElse (assoc k (arrayProto H)) (assoc k (objectProto H))))
  | VStr s =>
      Ok (orElse (if jstr_eqb k (js "length") then Some (VNum (Z.of_nat (length s)))
                  else match parseIndex k with
                       | Some i => option_map (fun c => VStr [c]) (nth_error s i)
                       | None => None
                       end)
                 (orElse (assoc k (stringProto H)) (assoc k (objectProto H))))
  | VNum _ => Ok (orElse (assoc k (numberProto H)) (assoc k (objectProto H)))
  | VBool _ => Ok (orElse (assoc k (booleanProto H)) (assoc k (objectProto H)))
  | VFun _ => Stuck Unsupported
  end.

(** [k in globalThis] and [globalThis[k]]: the global object inherits from
    [Object.prototype]. *)
Definition lookupGlobal (H : Host) (k : jstr) : option value :=
  orElse (assoc k (globalOwn H)) (assoc k (objectProto H)).

End JsValue.
Export JsValue.

(** ** Regular expressions

    A backtracking matcher for the part of the ECMAScript pattern language
    the engine's literals use: literals, character classes, greedy and lazy
    [{min,}] repetition, alternation, capture groups, back-references, [\b],
    [^] and [$], with the [i] flag on ASCII patterns. *)

Module Regex.

Inductive citem :=
| CChar (c : jschar)
| CRange (lo hi : jschar)
| CWord       (* \w *)
| CSpace      (* \s *)
| CNotSpace.  (* \S *)

Inductive regex :=
| REps
| RLit (c : jschar)
| RSet (negated : bool) (items : list citem)
| RSeq (r1 r2 : regex)
| RAlt (r1 r2 : regex)
| RQuant (r : regex) (min : nat) (greedy : bool)   (* r{min,} and r{min,}? *)
| RCap (i : nat) (r : regex)
| RBackref (i : nat)
| RWordB      (* \b *)
| RStart      (* ^ *)
| REnd.       (* $ *)

Definition captures := list (nat * jstr).

Fixpoint capture (i : nat) (caps : captures) : option jstr :=
  match caps with
  | [] => None
  | (j, s) :: caps' => if Nat.eqb i j then Some s else capture i caps'
  end.

(** The position of a match attempt: the code unit before it, the input
    still ahead, the number of code units consumed since the attempt began
    and the groups captured so far. *)
Record mstate := {
  prev : option jschar;
  rest : jstr;
  pos : nat;
  caps : captures
}.

(** Canonicalize of the [i] flag. *)
Definition canon (icase : bool) (c : jschar) : jschar :=
  if icase && in_range 97 122 c then (c - 32)%N else c.

Definition item_matches (icase : bool) (c : jschar) (it : citem) : bool :=
  match it with
  | CChar x => N.eqb (canon icase c) (canon icase x)
  | CRange lo hi =>
      in_range lo hi c
      || (icase && ((in_range 97 122 c && in_range lo hi (c - 32))
                    || (in_range 65 90 c && in_range lo hi (c + 32))))
  | CWord => is_word c
  | CSpace => is_space c
  | CNotSpace => negb (is_space c)
  end.

Definition set_matches (icase negated : bool) (items : list citem) (c : jschar) : bool :=
  xorb negated (existsb (item_matches icase c) items).

Definition step (st : mstate) (ok : jschar -> bool) : option mstate :=
  match rest st with
  | c :: r =>
      if ok c then Some {| prev := Some c; rest := r; pos := S (pos st); caps := caps st |}
      else None
  | [] => None
  end.

Definition word_before (st : mstate) : bool :=
  match prev st with Some c => is_word c | None => false end.

Definition word_after (st : mstate) : bool :=
  match rest st with c :: _ => is_word c | [] => false end.

Fixpoint literally (icase : bool) (s : jstr) (st : mstate) : option mstate :=
  match s with
  | [] => Some st
  | x :: s' =>
      match step st (fun c => N.eqb (canon icase c) (canon icase x)) with
      | Some st' => literally icase s' st'
      | None => None
      end
  end.

Section Matcher.

Variable icase : bool.

(** [rmatch r st k]: match [r] at [st], then continue with [k]; the first
    continuation that succeeds decides, which is the backtracking order of
    the host.  A repetition stops an iteration that consumed nothing once
    the minimum is reached, as the host does; so it makes at most [min]
    iterations plus one per code unit ahead, and its budget, one more than
    that, never runs out. *)
Fixpoint rmatch (r : regex) (st : mstate) (k : mstate -> option mstate)
  {struct r} : option mstate :=
  match r with
  | REps => k st
  | RLit x =>
      match step st (fun c => N.eqb (canon icase c) (canon icase x)) with
      | Some st' => k st'
      | None => None
      end
  | RSet negated items =>
      match step st (set_matches icase negated items) with
      | Some st' => k st'
      | None => None
      end
  | RSeq r1 r2 => rmatch r1 st (fun st' => rmatch r2 st' k)
  | RAlt r1 r2 => orElse (rmatch r1 st k) (rmatch r2 st k)
  | RQuant r' min greedy =>
      (fix loop (budget count : nat) (st : mstate) {struct budget} : option mstate :=
         match budget with
         | O => None
         | S budget' =>
             let more :=
               rmatch r' st (fun st' =>
                 if Nat.eqb (pos st') (pos st) && Nat.leb min count then None
                 else loop budget' (S count) st') in
             let stop := if Nat.leb min count then k st else None in
             if greedy then orElse more stop else orElse stop more
         end) (S (length (rest st)) + min) 0 st
  | RCap i r' =>
      rmatch r' st (fun st' =>
        k {| prev := prev st'; rest := rest st'; pos := pos st';
             caps := (i, firstn (pos st' - pos st) (rest st)) :: caps st' |})
  | RBackref i =>
      match capture i (caps st) with
      | Some s => match literally icase s st with Some st' => k st' | None => None end
      | None => k st
      end
  | RWordB => if xorb (word_before st) (word_after st) then k st else None
  | RStart => match prev st with None => k st | Some _ => None end
  | REnd => match rest st with [] => k st | _ :: _ => None end
  end.

(** One match of the pattern: the text it covers and its groups. *)
Record hit := {
  matched : jstr;
  groups : captures
}.

Definition match_at (r : regex) (p : option jschar) (s : jstr) : option (nat * hit) :=
  match rmatch r {| prev := p; rest := s; pos := 0; caps := [] |} Some with
  | Some st => Some (pos st, {| matched := firstn (pos st) s; groups := caps st |})
  | None => None
  end.

(** The input cut by the matches of a [g] pattern, left to right: the code
    units no match covers and the matches.  After an empty match the scan
    moves one code unit on. *)
Inductive piece :=
| Lit (c : jschar)
| Hit (h : hit).

Fixpoint scan (r : regex) (p : option jschar) (s : jstr) (skip : nat) {struct s}
  : list piece :=
  match skip with
  | S skip' =>
      match s with
      | [] => []
      | c :: s' => scan r (Some c) s' skip'
      end
  | O =>
      match match_at r p s with
      | Some (n, h) =>
          Hit h ::
          match s with
          | [] => []
          | c :: s' =>
              match n with
              | O => Lit c :: scan r (Some c) s' 0
              | S n' => scan r (Some c) s' n'
              end
          end
      | None =>
          match s with
          | [] => []
          | c :: s' => Lit c :: scan r (Some c) s' 0
          end
      end
  end.

(** [s.match(r)] for a pattern without the [g] flag, and one [r.exec(s)]:
    the leftmost match. *)
Fixpoint search (r : regex) (p : option jschar) (s : jstr) {struct s} : option hit :=
  match match_at r p s with
  | Some (_, h) => Some h
  | None =>
      match s with
      | [] => None
      | c :: s' => search r (Some c) s'
      end
  end.

End Matcher.

(** Group [i] of a match; a group that took no part is the empty string
    here and [None] in [group_opt]. *)
Definition group_opt (i : nat) (h : hit) : option jstr := capture i (groups h).

Definition group (i : nat) (h : hit) : jstr :=
  match group_opt i h with Some s => s | None => [] end.

(** A pattern with its flags, used as [s.replace(r, ...)], [s.match(r)] or
    in an [exec] loop. *)
Record pattern := {
  source : regex;
  ignoreCase : bool
}.

Definition pieces (p : pattern) (s : jstr) : list piece :=
  scan (ignoreCase p) (source p) None s 0.

(** All matches, as the loop [while ((m = r.exec(s)) !== null)] of a [g]
    pattern yields them. *)
Definition execAll (p : pattern) (s : jstr) : list hit :=
  flat_map (fun pc => match pc with Hit h => [h] | Lit _ => [] end) (pieces p s).

Definition matchFirst (p : pattern) (s : jstr) : option hit :=
  search (ignoreCase p) (source p) None s.

(** [s.replace(r, f)] with a [g] pattern and a callback: the callback runs
    once per match, left to right, and the first exception ends the call. *)
Fixpoint substitute {E} (f : hit -> outcome E jstr) (l : list piece) : outcome E jstr :=
  match l with
  | [] => Ok []
  | Lit c :: l' => r <- substitute f l' ;; Ok (c :: r)
  | Hit h :: l' => x <- f h ;; r <- substitute f l' ;; Ok (x ++ r)
  end.

Definition replaceWith {E} (p : pattern) (s : jstr) (f : hit -> outcome E jstr)
  : outcome E jstr :=
  substitute f (pieces p s).

(** [s.replace(r, text)] with a [g] pattern and a replacement text free of
    [$] patterns. *)
Fixpoint replaceAll_pieces (text : jstr) (l : list piece) : jstr :=
  match l with
  | [] => []
  | Lit c :: l' => c :: replaceAll_pieces text l'
  | Hit _ :: l' => text ++ replaceAll_pieces text l'
  end.

Definition replaceAll (p : pattern) (s : jstr) (text : jstr) : jstr :=
  replaceAll_pieces text (pieces p s).

(** Pattern syntax. *)
Fixpoint seq (l : list regex) : regex :=
  match l with
  | [] => REps
  | [r] => r
  | r :: l' => RSeq r (seq l')
  end.

Definition text (s : string) : regex := seq (List.map RLit (js s)).

Definition star (r : regex) := RQuant r 0 true.
Definition plus (r : regex) := RQuant r 1 true.
Definition lazy_star (r : regex) := RQuant r 0 false.
Definition lazy_plus (r : regex) := RQuant r 1 false.
Definition space := RSet false [CSpace].            (* \s *)
Definition word := RSet false [CWord].              (* \w *)
Definition any := RSet false [CSpace; CNotSpace].   (* [\s\S] *)
Definition none_of (s : string) := RSet true (List.map CChar (js s)).
(** A pattern without the [i] flag; [global] for the literals the source
    writes with the [g] flag, [once] for those it writes without. *)
Definition global (r : regex) : pattern := {| source := r; ignoreCase := false |}.
Definition once (r : regex) : pattern := {| source := r; ignoreCase := false |}.

End Regex.
Import Regex.

(** ** Expressions

    [safeEval] hands the text [with (scope) { return ( e ); }] to
    [new Function].  The model reads the texts whose tokens are identifiers,
    integer and string literals, [.], the brackets, [!], [&&], [||], [?],
    [:] and the operators [===], [!==], [==], [!=], [<], [>], [<=], [>=],
    [+], [-] and [*], separated by spaces and tabs, and parses them as
    ECMAScript does: member access, indexing, calls with at most one
    argument, the unary and binary operators in their order of precedence
    and the conditional operator.  Any other character (a line terminator
    among them), a reserved word, an escape, a number with a fraction, an
    operator written with other characters or an array literal puts the text
    outside the model. *)

Module Expression.

Inductive binop :=
| StrictEq | StrictNe | LooseEq | LooseNe
| Less | Greater | LessEq | GreaterEq
| Add | Sub | Mul.

Inductive token :=
| TIdent (x : jstr)
| TLit (v : value)
| TDot
| TLParen
| TRParen
| TNot
| TAnd
| TOr
| TLBracket
| TRBracket
| TOp (op : binop)
| TQuestion
| TColon.

Inductive expr :=
| EIdent (x : jstr)
| ELit (v : value)
| EMember (e : expr) (k : jstr)
| ECall (f : expr) (arg : option expr)
| ENot (e : expr)
| EAnd (a b : expr)
| EOr (a b : expr)
| EIndex (e k : expr)
| ENeg (e : expr)
| EPlus (e : expr)
| EBinary (op : binop) (a b : expr)
| ECond (c a b : expr).

Definition reserved : list jstr :=
  List.map js
    ["break"; "case"; "catch"; "class"; "const"; "continue"; "debugger";
     "default"; "delete"; "do"; "else"; "enum"; "export"; "extends";
     "finally"; "for"; "function"; "if"; "import"; "in"; "instanceof"; "new";
     "return"; "super"; "switch"; "this"; "throw"; "try"; "typeof"; "var";
     "void"; "while"; "with"; "yield"; "let"; "static"; "implements";
     "interface"; "package"; "private"; "protected"; "public"; "await";
     "async"]%string.

Definition is_ident_start (c : jschar) : bool :=
  in_range 65 90 c || in_range 97 122 c || N.eqb c 95 || N.eqb c 36.

Definition is_digit (c : jschar) : bool := in_range 48 57 c.

Definition is_ident_part (c : jschar) : bool := is_ident_start c || is_digit c.

(** Space and tab.  A line terminator is left out: after one the host may
    end the [return] statement and read what follows as another statement. *)
Definition is_blank (c : jschar) : bool := N.eqb c 32 || N.eqb c 9.

Inductive lexmode :=
| LIdle
| LIdent (acc : jstr)
| LNum (acc : jstr)
| LStr (quote : jschar) (acc : jstr)
| LAmp          (* one & read *)
| LBar          (* one | read *)
| LSkip (n : nat).  (* the last n code units of an operator are ahead *)

Definition digits_value (ds : jstr) : Z :=
  fold_left (fun acc c => (10 * acc + Z.of_N (c - 48))%Z) ds 0%Z.

(** The token a finished word or number stands for; [None] outside the
    model (reserved words, a leading zero, more than 2^53). *)
Definition word_token (mode : lexmode) : option (list token) :=
  match mode with
  | LIdle => Some []
  | LIdent acc =>
      let w := rev acc in
      if jstr_eqb w (js "null") then Some [TLit VNull]
      else if jstr_eqb w (js "true") then Some [TLit (VBool true)]
      else if jstr_eqb w (js "false") then Some [TLit (VBool false)]
      else if includes reserved w then None
      else Some [TIdent w]
  | LNum acc =>
      let ds := rev acc in
      match ds with
      | 48%N :: _ :: _ => None
      | _ => if Z.leb (digits_value ds) 9007199254740992 then Some [TLit (VNum (digits_value ds))]
             else None
      end
  | LStr _ _ | LAmp | LBar | LSkip _ => None
  end.

Definition cons_tokens (a b : option (list token)) : option (list token) :=
  match a, b with
  | Some x, Some y => Some (x ++ y)
  | _, _ => None
  end.

(** The text [s] begins with [d], with [d] and [e]. *)
Definition startsWith1 (s : jstr) (d : jschar) : bool :=
  match s with x :: _ => N.eqb x d | [] => false end.

Definition startsWith2 (s : jstr) (d e : jschar) : bool :=
  match s with x :: y :: _ => N.eqb x d && N.eqb y e | _ => false end.

(** A code unit read between two tokens, with the text after it: the tokens
    it completes and the mode it opens.  An operator is read with the
    longest match; the characters that would make it an assignment, an
    update, a shift, a power, a comment, an arrow or an optional chain are
    outside the model. *)
Definition idle_step (c : jschar) (ahead : jstr) : option (list token * lexmode) :=
  if is_blank c then Some ([], LIdle)
  else if is_ident_start c then Some ([], LIdent [c])
  else if is_digit c then Some ([], LNum [c])
  else if N.eqb c 39 || N.eqb c 34 then Some ([], LStr c [])
  else if N.eqb c 40 then Some ([TLParen], LIdle)
  else if N.eqb c 41 then Some ([TRParen], LIdle)
  else if N.eqb c 91 then Some ([TLBracket], LIdle)
  else if N.eqb c 93 then Some ([TRBracket], LIdle)
  else if N.eqb c 58 then Some ([TColon], LIdle)
  else if N.eqb c 33 then                                   (* ! *)
    if startsWith2 ahead 61 61 then Some ([TOp StrictNe], LSkip 2)
    else if startsWith1 ahead 61 then Some ([TOp LooseNe], LSkip 1)
    else Some ([TNot], LIdle)
  else if N.eqb c 61 then                                   (* = *)
    if startsWith2 ahead 61 61 then Some ([TOp StrictEq], LSkip 2)
    else if startsWith1 ahead 61 then Some ([TOp LooseEq], LSkip 1)
    else None
  else if N.eqb c 60 then                                   (* < *)
    if startsWith1 ahead 61 then Some ([TOp LessEq], LSkip 1)
    else if startsWith1 ahead 60 || startsWith1 ahead 33 then None
    else Some ([TOp Less], LIdle)
  else if N.eqb c 62 then                                   (* > *)
    if startsWith1 ahead 61 then Some ([TOp GreaterEq], LSkip 1)
    else if startsWith1 ahead 62 then None
    else Some ([TOp Greater], LIdle)
  else if N.eqb c 43 then                                   (* + *)
    if startsWith1 ahead 43 || startsWith1 ahead 61 then None else Some ([TOp Add], LIdle)
  else if N.eqb c 45 then                                   (* - *)
    if startsWith1 ahead 45 || startsWith1 ahead 61 then None else Some ([TOp Sub], LIdle)
  else if N.eqb c 42 then                                   (* * *)
    if startsWith1 ahead 42 || startsWith1 ahead 61 then None else Some ([TOp Mul], LIdle)
  else if N.eqb c 63 then                                   (* ? *)
    if startsWith1 ahead 63 || startsWith1 ahead 46 then None else Some ([TQuestion], LIdle)
  else if N.eqb c 46 then                                   (* . *)
    match ahead with
    | d :: _ => if N.eqb d 46 || is_digit d then None else Some ([TDot], LIdle)
    | [] => Some ([TDot], LIdle)
    end
  else if N.eqb c 38 then Some ([], LAmp)
  else if N.eqb c 124 then Some ([], LBar)
  else None.

(** The tokens of a text, [None] when the text leaves the model. *)
Fixpoint lex (mode : lexmode) (s : jstr) {struct s} : option (list token) :=
  match s with
  | [] => word_token mode
  | c :: s' =>
      let idle :=
        match idle_step c s' with
        | Some (toks, mode') => cons_tokens (Some toks) (lex mode' s')
        | None => None
        end in
      match mode with
      | LStr q acc =>
          if N.eqb c q then cons_tokens (Some [TLit (VStr (rev acc))]) (lex LIdle s')
          else if N.eqb c 92 || N.eqb c 10 || N.eqb c 13 || N.eqb c 8232 || N.eqb c 8233
               then None
               else lex (LStr q (c :: acc)) s'
      | LIdent acc =>
          if is_ident_part c then lex (LIdent (c :: acc)) s'
          else cons_tokens (word_token mode) idle
      | LNum acc =>
          if is_digit c then lex (LNum (c :: acc)) s'
          else if is_ident_start c || N.eqb c 46 then None
          else cons_tokens (word_token mode) idle
      | LAmp => if N.eqb c 38 then cons_tokens (Some [TAnd]) (lex LIdle s') else None
      | LBar => if N.eqb c 124 then cons_tokens (Some [TOr]) (lex LIdle s') else None
      | LSkip n =>
          match n with
          | S (S k) => lex (LSkip (S k)) s'
          | _ => lex LIdle s'
          end
      | LIdle => idle
      end
  end.

(** A recursive-descent parser; the budget bounds the nesting of calls and
    [NoBudget] reports that it ran out.  Ten calls for each token are
    enough ([parseCond_budget]).  [NoModel] reports an array literal. *)
Inductive parsed (A : Type) :=
| Parsed (a : A) (rest : list token)
| NoParse
| NoBudget
| NoModel.

Arguments Parsed {A} a rest.
Arguments NoParse {A}.
Arguments NoBudget {A}.
Arguments NoModel {A}.

Definition andThen {A B} (p : parsed A) (k : A -> list token -> parsed B) : parsed B :=
  match p with
  | Parsed a rest => k a rest
  | NoParse => NoParse
  | NoBudget => NoBudget
  | NoModel => NoModel
  end.

(** What follows must be the token [t]. *)
Definition expect {A} (close : token -> bool) (a : A) (rest : list token) : parsed A :=
  match rest with
  | t :: rest' => if close t then Parsed a rest' else NoParse
  | [] => NoParse
  end.

Definition isRParen (t : token) : bool := match t with TRParen => true | _ => false end.
Definition isRBracket (t : token) : bool := match t with TRBracket => true | _ => false end.
Definition isColon (t : token) : bool := match t with TColon => true | _ => false end.

(** The binary operators below [&&], from the loosest level: equality,
    relational, additive, multiplicative. *)
Definition levelOf (op : binop) : nat :=
  match op with
  | StrictEq | StrictNe | LooseEq | LooseNe => 0
  | Less | Greater | LessEq | GreaterEq => 1
  | Add | Sub => 2
  | Mul => 3
  end.

Fixpoint parseCond (n : nat) (ts : list token) {struct n} : parsed expr :=
  match n with
  | O => NoBudget
  | S n' =>
      andThen (parseOr n' ts) (fun c rest =>
        match rest with
        | TQuestion :: rest1 =>
            andThen (parseCond n' rest1) (fun a rest2 =>
              andThen (expect isColon a rest2) (fun a rest3 =>
                andThen (parseCond n' rest3) (fun b rest4 =>
                  Parsed (ECond c a b) rest4)))
        | _ => Parsed c rest
        end)
  end
with parseOr (n : nat) (ts : list token) {struct n} : parsed expr :=
  match n with
  | O => NoBudget
  | S n' => andThen (parseAnd n' ts) (fun a rest => parseOrRest n' a rest)
  end
with parseOrRest (n : nat) (lhs : expr) (ts : list token) {struct n} : parsed expr :=
  match n with
  | O => NoBudget
  | S n' =>
      match ts with
      | TOr :: ts' =>
          andThen (parseAnd n' ts') (fun b rest => parseOrRest n' (EOr lhs b) rest)
      | _ => Parsed lhs ts
      end
  end
with parseAnd (n : nat) (ts : list token) {struct n} : parsed expr :=
  match n with
  | O => NoBudget
  | S n' => andThen (parseBinary n' 0 ts) (fun a rest => parseAndRest n' a rest)
  end
with parseAndRest (n : nat) (lhs : expr) (ts : list token) {struct n} : parsed expr :=
  match n with
  | O => NoBudget
  | S n' =>
      match ts with
      | TAnd :: ts' =>
          andThen (parseBinary n' 0 ts') (fun b rest => parseAndRest n' (EAnd lhs b) rest)
      | _ => Parsed lhs ts
      end
  end
with parseBinary (n : nat) (level : nat) (ts : list token) {struct n} : parsed expr :=
  match n with
  | O => NoBudget
  | S n' =>
      if Nat.leb 4 level then parseUnary n' ts
      else andThen (parseBinary n' (S level) ts)
                   (fun a rest => parseBinaryRest n' level a rest)
  end
with parseBinaryRest (n : nat) (level : nat) (lhs : expr) (ts : list token) {struct n}
  : parsed expr :=
  match n with
  | O => NoBudget
  | S n' =>
      match ts with
      | TOp op :: ts' =>
          if Nat.eqb (levelOf op) level
          then andThen (parseBinary n' (S level) ts')
                       (fun b rest => parseBinaryRest n' level (EBinary op lhs b) rest)
          else Parsed lhs ts
      | _ => Parsed lhs ts
      end
  end
with parseUnary (n : nat) (ts : list token) {struct n} : parsed expr :=
  match n with
  | O => NoBudget
  | S n' =>
      match ts with
      | TNot :: ts' => andThen (parseUnary n' ts') (fun e rest => Parsed (ENot e) rest)
      | TOp Sub :: ts' => andThen (parseUnary n' ts') (fun e rest => Parsed (ENeg e) rest)
      | TOp Add :: ts' => andThen (parseUnary n' ts') (fun e rest => Parsed (EPlus e) rest)
      | _ => andThen (parsePrimary n' ts) (fun e rest => parsePostfix n' e rest)
      end
  end
with parsePrimary (n : nat) (ts : list token) {struct n} : parsed expr :=
  match n with
  | O => NoBudget
  | S n' =>
      match ts with
      | TIdent x :: ts' => Parsed (EIdent x) ts'
      | TLit v :: ts' => Parsed (ELit v) ts'
      | TLParen :: ts' => andThen (parseCond n' ts') (expect isRParen)
      | TLBracket :: _ => NoModel
      | _ => NoParse
      end
  end
with parsePostfix (n : nat) (e : expr) (ts : list token) {struct n} : parsed expr :=
  match n with
  | O => NoBudget
  | S n' =>
      match ts with
      | TDot :: TIdent k :: ts' => parsePostfix n' (EMember e k) ts'
      | TDot :: TLit VNull :: ts' => parsePostfix n' (EMember e (js "null")) ts'
      | TDot :: TLit (VBool true) :: ts' => parsePostfix n' (EMember e (js "true")) ts'
      | TDot :: TLit (VBool false) :: ts' => parsePostfix n' (EMember e (js "false")) ts'
      | TDot :: _ => NoParse
      | TLBracket :: ts' =>
          andThen (parseCond n' ts') (fun k rest =>
            andThen (expect isRBracket k rest) (fun k rest' =>
              parsePostfix n' (EIndex e k) rest'))
      | TLParen :: TRParen :: ts' => parsePostfix n' (ECall e None) ts'
      | TLParen :: ts' =>
          andThen (parseCond n' ts') (fun a rest =>
            andThen (expect isRParen a rest) (fun a rest' =>
              parsePostfix n' (ECall e (Some a)) rest'))
      | _ => Parsed e ts
      end
  end.

(** [new Function('scope', `with (scope) { return ( ${expression} ); }`)]:
    the function body is the parenthesised text, read as one expression. *)
Definition newFunction (expression : jstr) : jsres expr :=
  match lex LIdle expression with
  | None => Stuck Unsupported
  | Some ts =>
      let body := TLParen :: ts ++ [TRParen] in
      match parseCond (10 * S (length body)) body with
      | Parsed e [] => Ok e
      | Parsed _ (_ :: _) => Throw SyntaxError
      | NoParse => Throw SyntaxError
      | NoBudget => Stuck OutOfFuel
      | NoModel => Stuck Unsupported
      end
  end.

End Expression.
Import Expression.

(** ** The template engine *)

Module Engine.

(** What the engine throws.  Each is an [Error] told apart by its message;
    [HostError] is an exception of the host that no handler of the engine
    catches. *)
Inductive error :=
| TemplateNotFound (requested : jstr)
| CyclicInclude (chain : list jstr)
| RenderDepthExceeded
| ExpressionEvaluationError (expression : jstr) (cause : js_exn)
| HostError (cause : js_exn).

(** The message of the [Error]; the text the host gives to its own
    exceptions is a parameter. *)
Definition errorMessage (hostMessage : js_exn -> jstr) (e : error) : jstr :=
  match e with
  | TemplateNotFound requested => js "Template not found: " ++ requested
  | CyclicInclude chain => js "Cyclic include detected: " ++ join (js " -> ") chain
  | RenderDepthExceeded => js "Template render depth exceeded. Potential infinite recursion."
  | ExpressionEvaluationError expression cause =>
      js "Expression evaluation failed for " ++ [34%N] ++ expression ++ [34%N]
         ++ js ": " ++ hostMessage cause
  | HostError cause => hostMessage cause
  end.

Definition result := outcome error.

Record TemplateRecord := {
  name : jstr;
  filePath : jstr;
  content : jstr
}.

Definition registry := list (jstr * TemplateRecord).

(** The fields of a [TemplateEngine]; [templateNameToRecord] is the [Map],
    in insertion order. *)
Record TemplateEngine := {
  directories : list jstr;
  extensions : list jstr;
  nameDirective : pattern;
  caseInsensitiveNames : bool;
  templateNameToRecord : registry
}.

Fixpoint mapGet {V} (k : jstr) (m : list (jstr * V)) : option V :=
  match m with
  | [] => None
  | (k', v) :: m' => if jstr_eqb k k' then Some v else mapGet k m'
  end.

Definition mapHas {V} (k : jstr) (m : list (jstr * V)) : bool :=
  match mapGet k m with Some _ => true | None => false end.

(** [map.set(k, v)] *)
Fixpoint mapSet {V} (k : jstr) (v : V) (m : list (jstr * V)) : list (jstr * V) :=
  match m with
  | [] => [(k, v)]
  | (k', v') :: m' => if jstr_eqb k k' then (k, v) :: m' else (k', v') :: mapSet k v m'
  end.

(** *** The patterns of the source

    The comments give each literal with [TAG] for the first group, a letter
    followed by word characters and hyphens, with [Q] for the double quote
    and with [STAR] for the star. *)

Definition tagName : regex :=
  RCap 1 (RSeq (RSet false [CRange 65 90; CRange 97 122])
               (star (RSet false [CWord; CChar 45]))).

(** [includeTagRegex]: [/<(TAG)\s STAR ([^>] STAR)\/>/g] *)
Definition includeTagRegex : pattern :=
  global (seq [text "<"; tagName; star space; RCap 2 (star (none_of ">")); text "/>"]).

(** [ifRegex] and [forRegex]:
    [/<(TAG)\b([^>] STAR)\bATTR=Q([^Q]+)Q([^>] STAR)>([\s\S] STAR ?)<\/\1>/g] *)
Definition directiveRegex (attr : string) : pattern :=
  global (seq [text "<"; tagName; RWordB; RCap 2 (star (none_of ">")); RWordB;
               text attr; text "="; RLit 34; RCap 3 (plus (RSet true [CChar 34])); RLit 34;
               RCap 4 (star (none_of ">")); text ">"; RCap 5 (lazy_star any);
               text "</"; RBackref 1; text ">"]).

Definition ifRegex : pattern := directiveRegex "x-if".
Definition forRegex : pattern := directiveRegex "x-for".

(** [/\bATTR=Q[^Q]+Q/g] and [/\bx-row=Q([^Q]+)Q/]; the group is read for
    [x-row] only. *)
Definition attributeRegex (attr : string) : pattern :=
  global (seq [RWordB; text attr; text "="; RLit 34;
               RCap 1 (plus (RSet true [CChar 34])); RLit 34]).

(** [/\s{2,}/g] *)
Definition spacesRegex : pattern := global (RQuant space 2 true).

(** [/\{\{\{\s STAR ([^}]+?)\s STAR \}\}\}/g] *)
Definition tripleRegex : pattern :=
  global (seq [text "{{{"; star space; RCap 1 (lazy_plus (none_of "}")); star space;
               text "}}}"]).

(** [mustacheRegex]: [/\{\{\s STAR ([^}]+?)\s STAR \}\}/g] *)
Definition mustacheRegex : pattern :=
  global (seq [text "{{"; star space; RCap 1 (lazy_plus (none_of "}")); star space;
               text "}}"]).

(** [attrRegex]: [/(\w[\w\-] STAR)\s STAR =\s STAR Q([^Q] STAR)Q/g] *)
Definition attrRegex : pattern :=
  global (seq [RCap 1 (RSeq word (star (RSet false [CWord; CChar 45])));
               star space; text "="; star space; RLit 34;
               RCap 2 (star (RSet true [CChar 34])); RLit 34]).

(** [DEFAULT_NAME_DIRECTIVE], with the [i] flag:
    [/<!--\s STAR @template(?:\s+name\s STAR =\s STAR Q([^Q]+)Q|[:\s]+([^\-\->]+))\s STAR -->/i] *)
Definition DEFAULT_NAME_DIRECTIVE : pattern :=
  {| source :=
       seq [text "<!--"; star space; text "@template";
            RAlt (seq [plus space; text "name"; star space; text "="; star space;
                       RLit 34; RCap 1 (plus (RSet true [CChar 34])); RLit 34])
                 (seq [plus (RSet false [CChar 58; CSpace]);
                       RCap 2 (plus (RSet true [CChar 45; CChar 45; CChar 62]))]);
            star space; text "-->"];
     ignoreCase := true |}.

(** [/^\{\{\s STAR ([\s\S]+?)\s STAR \}\}$/] *)
Definition exprAttrRegex : pattern :=
  once (seq [RStart; text "{{"; star space; RCap 1 (lazy_plus any); star space;
               text "}}"; REnd]).

Section Render.

Variable H : Host.
Variable E : TemplateEngine.

Definition normalizeName (name : jstr) : jstr :=
  if caseInsensitiveNames E then toLowerCase (trim name) else trim name.

Definition createRootDataProxy (data : value) : value :=
  let context := [(js "$root", data)] in
  VObj ProtoNull
       (if isTruthyObject data then assign context (ownProps data) else context).

(** [new Proxy(data ?? {}, handler)]: the target; a primitive target is a
    [TypeError] of the [Proxy] constructor. *)
Definition createEvalScope (data : value) : jsres value :=
  match data with
  | VUndef | VNull => Ok (VObj ProtoObject [])
  | VBool _ | VNum _ | VStr _ => Throw TypeError
  | _ => Ok data
  end.

(** The [get] trap of the handler; [has] answers [true] for every name, so
    each identifier of the expression is read through this trap. *)
Definition scopeGet (t : value) (p : jstr) : jsres value :=
  own <- lookupProperty H t p ;;
  match own with
  | Some v => Ok v
  | None =>
      match lookupGlobal H p with
      | Some v => Ok v
      | None => Ok VUndef
      end
  end.

(** An answer the model has, or none. *)
Definition modelled {A} (o : option A) : jsres A :=
  match o with
  | Some a => Ok a
  | None => Stuck Unsupported
  end.

(** [a + b]: with a string on either side the texts of the two are joined,
    otherwise the two numbers are added.  An operand that is an array, an
    object or a function is converted by its own methods, which is outside
    the model. *)
Definition addValues (a b : value) : jsres value :=
  if isReference a || isReference b then Stuck Unsupported
  else
    match a, b with
    | VStr _, _ | _, VStr _ => x <- toString a ;; y <- toString b ;; Ok (VStr (x ++ y))
    | _, _ =>
        x <- modelled (toNumber a) ;;
        y <- modelled (toNumber b) ;;
        n <- modelled (numberAdd x y) ;;
        Ok (VNum n)
    end.

(** A binary operator applied to the values of its operands. *)
Definition applyBinary (op : binop) (a b : value) : jsres value :=
  match op with
  | StrictEq => r <- modelled (strictEquals a b) ;; Ok (VBool r)
  | StrictNe => r <- modelled (strictEquals a b) ;; Ok (VBool (negb r))
  | LooseEq => r <- modelled (looseEquals a b) ;; Ok (VBool r)
  | LooseNe => r <- modelled (looseEquals a b) ;; Ok (VBool (negb r))
  | Less =>
      r <- modelled (isLessThan a b) ;;
      Ok (VBool (match r with Some t => t | None => false end))
  | Greater =>
      r <- modelled (isLessThan b a) ;;
      Ok (VBool (match r with Some t => t | None => false end))
  | LessEq =>
      r <- modelled (isLessThan b a) ;;
      Ok (VBool (match r with Some t => negb t | None => false end))
  | GreaterEq =>
      r <- modelled (isLessThan a b) ;;
      Ok (VBool (match r with Some t => negb t | None => false end))
  | Add => addValues a b
  | Sub =>
      x <- modelled (toNumber a) ;;
      y <- modelled (toNumber b) ;;
      n <- modelled (numberAdd x (numberNeg y)) ;;
      Ok (VNum n)
  | Mul =>
      x <- modelled (toNumber a) ;;
      y <- modelled (toNumber b) ;;
      n <- modelled (numberMul x y) ;;
      Ok (VNum n)
  end.

(** The compiled function applied to the scope. *)
Fixpoint eval (scope : value) (e : expr) : jsres value :=
  match e with
  | EIdent x => scopeGet scope x
  | ELit v => Ok v
  | EMember e' k =>
      o <- eval scope e' ;;
      p <- lookupProperty H o k ;;
      Ok (match p with Some v => v | None => VUndef end)
  | ECall f arg =>
      fv <- eval scope f ;;
      _ <- match arg with Some a => eval scope a | None => Ok VUndef end ;;
      match fv with
      | VFun _ => Stuck Unsupported
      | _ => Throw TypeError
      end
  | ENot e' => v <- eval scope e' ;; Ok (VBool (negb (toBoolean v)))
  | EAnd a b => v <- eval scope a ;; if toBoolean v then eval scope b else Ok v
  | EOr a b => v <- eval scope a ;; if toBoolean v then Ok v else eval scope b
  | EIndex e' k =>
      o <- eval scope e' ;;
      kv <- eval scope k ;;
      key <- toString kv ;;
      p <- lookupProperty H o key ;;
      Ok (match p with Some v => v | None => VUndef end)
  | ENeg e' => v <- eval scope e' ;; n <- modelled (toNumber v) ;; Ok (VNum (numberNeg n))
  | EPlus e' => v <- eval scope e' ;; n <- modelled (toNumber v) ;; Ok (VNum n)
  | EBinary op a b => x <- eval scope a ;; y <- eval scope b ;; applyBinary op x y
  | ECond c a b => v <- eval scope c ;; if toBoolean v then eval scope a else eval scope b
  end.

Definition safeEval (expression : jstr) (data : value) : result value :=
  catchWith (ExpressionEvaluationError expression)
    (fn <- newFunction expression ;;
     scope <- createEvalScope data ;;
     eval scope fn).

Definition safeEvalBoolean (expression : jstr) (data : value) : result bool :=
  r <- safeEval expression data ;; Ok (toBoolean r).

Definition escapeHtml (str : jstr) : jstr :=
  let s1 := replaceAll (global (text "&")) str (js "&amp;") in
  let s2 := replaceAll (global (RLit 34)) s1 (js "&quot;") in
  let s3 := replaceAll (global (text "'")) s2 (js "&#39;") in
  let s4 := replaceAll (global (text "<")) s3 (js "&lt;") in
  replaceAll (global (text ">")) s4 (js "&gt;").

(** [String(value)] outside any handler. *)
Definition stringOf (v : value) : result jstr := catchWith HostError (toString v).

Definition rawCallback (data : value) (h : hit) : result jstr :=
  value <- safeEval (group 1 h) data ;;
  if isNullish value then Ok [] else stringOf value.

Definition mustacheCallback (data : value) (h : hit) : result jstr :=
  value <- safeEval (group 1 h) data ;;
  if isNullish value then Ok [] else s <- stringOf value ;; Ok (escapeHtml s).

Definition interpolate (html : jstr) (data : value) : result jstr :=
  html <- replaceWith tripleRegex html (rawCallback data) ;;
  replaceWith mustacheRegex html (mustacheCallback data).

(** [result[key] = v] on the object literal [{}]: an own property, but for
    the key [__proto__], whose inherited setter is not modelled. *)
Definition setAttribute (key : jstr) (v : value) (acc : props) : result props :=
  if jstr_eqb key (js "__proto__") then Stuck Unsupported else Ok (define key v acc).

Fixpoint parseAttributes_loop (data : value) (hits : list hit) (acc : props)
  : result props :=
  match hits with
  | [] => Ok acc
  | m :: hits' =>
      let key := group 1 m in
      let rawValue := group 2 m in
      acc' <- match matchFirst exprAttrRegex rawValue with
              | Some exprMatch =>
                  v <- safeEval (group 1 exprMatch) data ;; setAttribute key v acc
              | None => setAttribute key (VStr rawValue) acc
              end ;;
      parseAttributes_loop data hits' acc'
  end.

Definition parseAttributes (attrs : jstr) (data : value) : result props :=
  parseAttributes_loop data (execAll attrRegex attrs) [].

(** A replacement callback that may set [didReplace]: the text and whether
    the flag was set. *)
Fixpoint substituteFlag (f : hit -> result (jstr * bool)) (l : list piece)
  : result (jstr * bool) :=
  match l with
  | [] => Ok ([], false)
  | Lit c :: l' => '(r, d) <- substituteFlag f l' ;; Ok (c :: r, d)
  | Hit h :: l' =>
      '(x, d1) <- f h ;;
      '(r, d2) <- substituteFlag f l' ;;
      Ok (x ++ r, d1 || d2)
  end.

Definition replaceFlag (p : pattern) (s : jstr) (f : hit -> result (jstr * bool))
  : result (jstr * bool) :=
  substituteFlag f (pieces p s).

(** The signature shared by [renderContent] and the three passes. *)
Definition pass := jstr -> value -> list jstr -> nat -> result jstr.

(** [`${preAttrs} ${postAttrs}`.trim()] *)
Definition attrsCombined (preAttrs postAttrs : jstr) : jstr :=
  trim (preAttrs ++ js " " ++ postAttrs).

Definition openTagOf (tagName cleanedAttrs : jstr) : jstr :=
  match cleanedAttrs with
  | [] => js "<" ++ tagName ++ js ">"
  | _ => js "<" ++ tagName ++ js " " ++ cleanedAttrs ++ js ">"
  end.

Definition closingTagOf (tagName : jstr) : jstr := js "</" ++ tagName ++ js ">".

(** *** applyIncludes: one level, with the recursive calls as parameters *)

Definition includeCallback (renderContent : pass) (data : value)
           (renderStack : list jstr) (depth : nat) (h : hit) : result (jstr * bool) :=
  let full := matched h in
  let tagName := group 1 h in
  let attrs := group 2 h in
  let normalized := normalizeName tagName in
  if negb (mapHas normalized (templateNameToRecord E)) then Ok (full, false)
  else
    attributes <- parseAttributes attrs data ;;
    if includes renderStack normalized
    then Throw (CyclicInclude (renderStack ++ [normalized]))
    else
      match mapGet normalized (templateNameToRecord E) with
      | None => Throw (HostError TypeError)
      | Some record =>
          let mergedData := VObj ProtoObject (assign (ownProps data) attributes) in
          rendered <- renderContent (content record) mergedData
                                    (renderStack ++ [normalized]) (depth + 1) ;;
          Ok (rendered, true)
      end.

Definition applyIncludes_level (renderContent self : pass) : pass :=
  fun html data renderStack depth =>
    '(result, didReplace) <-
      replaceFlag includeTagRegex html (includeCallback renderContent data renderStack depth) ;;
    if (didReplace : bool) then self result data renderStack (depth + 1)
    else Ok result.

(** *** applyConditionals *)

Definition cleanIfAttrs (attrs : jstr) : jstr :=
  trim (replaceAll spacesRegex (replaceAll (attributeRegex "x-if") attrs []) (js " ")).

Definition conditionalCallback (renderContent : pass) (data : value)
           (renderStack : list jstr) (depth : nat) (h : hit) : result (jstr * bool) :=
  let tagName := group 1 h in
  let preAttrs := group 2 h in
  let expr := group 3 h in
  let postAttrs := group 4 h in
  let inner := group 5 h in
  let attrsCombined := attrsCombined preAttrs postAttrs in
  condition <- safeEvalBoolean expr data ;;
  if negb condition then Ok ([], true)
  else
    let cleanedAttrs := cleanIfAttrs attrsCombined in
    let openTag := openTagOf tagName cleanedAttrs in
    processedInner <- renderContent inner data renderStack (depth + 1) ;;
    Ok (openTag ++ processedInner ++ closingTagOf tagName, true).

Definition applyConditionals_level (renderContent self : pass) : pass :=
  fun html data renderStack depth =>
    '(result, didReplace) <-
      replaceFlag ifRegex html (conditionalCallback renderContent data renderStack depth) ;;
    if (didReplace : bool) then self result data renderStack (depth + 1)
    else Ok result.

(** *** applyLoops *)

Definition cleanForAttrs (attrs : jstr) : jstr :=
  trim (replaceAll spacesRegex
          (replaceAll (attributeRegex "x-row")
             (replaceAll (attributeRegex "x-for") attrs []) []) (js " ")).

Definition aliasOf (attrsCombined : jstr) : jstr :=
  match matchFirst (attributeRegex "x-row") attrsCombined with
  | Some aliasMatch => trim (group 1 aliasMatch)
  | None => js "item"
  end.

(** [{ ...data, [alias]: row, $index: index }] *)
Definition childData (data : value) (alias : jstr) (row : value) (index : nat) : value :=
  VObj ProtoObject
       (define (js "$index") (VNum (Z.of_nat index)) (define alias row (ownProps data))).

(** The [for] loop over the rows, from [index] on; [pieces.join('')]. *)
Fixpoint loopPieces (renderContent : pass) (data : value) (renderStack : list jstr)
         (depth : nat) (alias inner openTag closingTag : jstr)
         (rows : list value) (index : nat) : result jstr :=
  match rows with
  | [] => Ok []
  | row :: rows' =>
      processedInner <- renderContent inner (childData data alias row index)
                                      renderStack (depth + 1) ;;
      others <- loopPieces renderContent data renderStack depth alias inner
                           openTag closingTag rows' (S index) ;;
      Ok ((openTag ++ processedInner ++ closingTag) ++ others)
  end.

Definition loopCallback (renderContent : pass) (data : value)
           (renderStack : list jstr) (depth : nat) (h : hit) : result (jstr * bool) :=
  let tagName := group 1 h in
  let preAttrs := group 2 h in
  let expr := group 3 h in
  let postAttrs := group 4 h in
  let inner := group 5 h in
  let attrsCombined := attrsCombined preAttrs postAttrs in
  let alias := aliasOf attrsCombined in
  iterable <- safeEval expr data ;;
  match iterable with
  | VArr rows =>
      let cleanedAttrs := cleanForAttrs attrsCombined in
      let openTag := openTagOf tagName cleanedAttrs in
      let closingTag := closingTagOf tagName in
      out <- loopPieces renderContent data renderStack depth alias inner
                        openTag closingTag rows 0 ;;
      Ok (out, true)
  | _ => Ok ([], true)
  end.

Definition applyLoops_level (renderContent self : pass) : pass :=
  fun html data renderStack depth =>
    '(result, didReplace) <-
      replaceFlag forRegex html (loopCallback renderContent data renderStack depth) ;;
    if (didReplace : bool) then self result data renderStack (depth + 1)
    else Ok result.

(** *** renderContent, over the three passes *)

Record passes := {
  loopsPass : pass;
  conditionalsPass : pass;
  includesPass : pass
}.

Definition stripBom (source : jstr) : jstr :=
  match source with
  | c :: s' => if N.eqb c 65279 then s' else source
  | [] => source
  end.

Definition renderContent_level (P : passes) : pass :=
  fun source data renderStack depth =>
    if Nat.ltb 50 depth then Throw RenderDepthExceeded
    else
      let html := stripBom source in
      html <- loopsPass P html data renderStack depth ;;
      html <- conditionalsPass P html data renderStack depth ;;
      html <- includesPass P html data renderStack depth ;;
      interpolate html data.

(** The mutual recursion of [renderContent] and the passes, unfolded [fuel]
    calls deep; a deeper call is [Stuck OutOfFuel]. *)
Fixpoint unfold (fuel : nat) : passes :=
  match fuel with
  | O => {| loopsPass := fun _ _ _ _ => Stuck OutOfFuel;
            conditionalsPass := fun _ _ _ _ => Stuck OutOfFuel;
            includesPass := fun _ _ _ _ => Stuck OutOfFuel |}
  | S fuel' =>
      let P := unfold fuel' in
      {| loopsPass := applyLoops_level (renderContent_level P) (loopsPass P);
         conditionalsPass := applyConditionals_level (renderContent_level P) (conditionalsPass P);
         includesPass := applyIncludes_level (renderContent_level P) (includesPass P) |}
  end.

Definition renderContent (fuel : nat) : pass := renderContent_level (unfold fuel).
Definition applyLoops (fuel : nat) : pass := loopsPass (unfold fuel).
Definition applyConditionals (fuel : nat) : pass := conditionalsPass (unfold fuel).
Definition applyIncludes (fuel : nat) : pass := includesPass (unfold fuel).

Definition render (fuel : nat) (templateName : jstr) (data : value) : result jstr :=
  let normalizedName := normalizeName templateName in
  match mapGet normalizedName (templateNameToRecord E) with
  | None => Throw (TemplateNotFound templateName)
  | Some record =>
      let renderStack : list jstr := [] in
      (* depth: number = 0 *)
      renderContent fuel (content record) (createRootDataProxy data) renderStack 0
  end.

(** [{ ...data, [contentVarName]: innerHtml }] *)
Definition layoutData (data : value) (contentVarName innerHtml : jstr) : value :=
  VObj ProtoObject (define contentVarName (VStr innerHtml) (ownProps data)).

(** The parameter [contentVarName], [None] when the caller leaves it out:
    [contentVarName: string = 'content']. *)
Definition contentVarNameOr (contentVarName : option jstr) : jstr :=
  match contentVarName with
  | Some n => n
  | None => js "content"
  end.

Definition renderWithLayout (fuel : nat) (layoutTemplateName innerTemplateName : jstr)
           (data : value) (contentVarName : option jstr) : result jstr :=
  let contentVarName := contentVarNameOr contentVarName in
  innerHtml <- render fuel innerTemplateName data ;;
  render fuel layoutTemplateName (layoutData data contentVarName innerHtml).

End Render.

(** *** The registry: [reload] and [scanDirectory]

    The directory tree the [fs] module shows: a file with the text
    [readFileSync] returns, or [None] when the read throws; a directory with
    its entries in the order of [readdirSync]. *)

Inductive fsNode :=
| FsFile (raw : option jstr)
| FsDir (entries : list (jstr * fsNode)).

(** The [fs] and [path] modules of the host: the node at each path the
    engine was configured with ([None]: [existsSync] is false),
    [path.join(directory, name)] and
    [path.basename(name, path.extname(name))]. *)
Record NodeFs := {
  lookupPath : jstr -> option fsNode;
  pathJoin : jstr -> jstr -> jstr;
  baseNameWithoutExt : jstr -> jstr
}.

(** The successive contents of the live [templateNameToRecord], newest
    first: every [clear()] and [set()] adds one. *)
Definition store := list registry.

Definition current (st : store) : registry :=
  match st with
  | r :: _ => r
  | [] => []
  end.

Definition mutate (f : registry -> registry) (st : store) : store :=
  f (current st) :: st.

(** [s.endsWith(ext)] *)
Definition endsWith (s ext : jstr) : bool :=
  Nat.leb (length ext) (length s) && jstr_eqb (skipn (length s - length ext) s) ext.

Section Reload.

Variable F : NodeFs.
Variable E : TemplateEngine.

Definition extractTemplateName (content : jstr) : option jstr :=
  match matchFirst (nameDirective E) content with
  | None => None
  | Some m =>
      let name := trim (match group_opt 1 m with
                        | Some s => s
                        | None => match group_opt 2 m with Some s => s | None => [] end
                        end) in
      if Nat.ltb 0 (length name) then Some name else None
  end.

(** The body of the loop of [scanDirectory] for a file entry. *)
Definition scanFile (fullPath entryName : jstr) (raw : option jstr) (st : store)
  : store * result unit :=
  if negb (existsb (fun ext => endsWith (toLowerCase entryName) ext) (extensions E))
  then (st, Ok tt)
  else
    match raw with
    | None => (st, Throw (HostError SystemError))
    | Some raw =>
        let name := match extractTemplateName raw with
                    | Some n => n
                    | None => baseNameWithoutExt F entryName
                    end in
        let normalizedName := normalizeName E name in
        let record := {| name := normalizedName; filePath := fullPath; content := raw |} in
        (mutate (mapSet normalizedName record) st, Ok tt)
    end.

(** One entry of a directory; a sub-directory is scanned in turn. *)
Fixpoint scanEntry (directory entryName : jstr) (node : fsNode) (st : store)
  {struct node} : store * result unit :=
  let fullPath := pathJoin F directory entryName in
  match node with
  | FsFile raw => scanFile fullPath entryName raw st
  | FsDir entries =>
      (fix scanEntries (es : list (jstr * fsNode)) (st : store) {struct es}
         : store * result unit :=
         match es with
         | [] => (st, Ok tt)
         | (n, sub) :: es' =>
             match scanEntry fullPath n sub st with
             | (st', Ok _) => scanEntries es' st'
             | (st', Throw e) => (st', Throw e)
             | (st', Stuck w) => (st', Stuck w)
             end
         end) entries st
  end.

Fixpoint scanEntries (directory : jstr) (es : list (jstr * fsNode)) (st : store)
  : store * result unit :=
  match es with
  | [] => (st, Ok tt)
  | (n, sub) :: es' =>
      match scanEntry directory n sub st with
      | (st', Ok _) => scanEntries directory es' st'
      | (st', Throw e) => (st', Throw e)
      | (st', Stuck w) => (st', Stuck w)
      end
  end.

(** [scanDirectory(directory)] for a configured directory; listing a path
    that is a file throws. *)
Definition scanDirectory (directory : jstr) (st : store) : store * result unit :=
  match lookupPath F directory with
  | None => (st, Ok tt)
  | Some (FsFile _) => (st, Throw (HostError SystemError))
  | Some (FsDir entries) => scanEntries directory entries st
  end.

Fixpoint scanDirectories (dirs : list jstr) (st : store) : store * result unit :=
  match dirs with
  | [] => (st, Ok tt)
  | directory :: dirs' =>
      match scanDirectory directory st with
      | (st', Ok _) => scanDirectories dirs' st'
      | (st', Throw e) => (st', Throw e)
      | (st', Stuck w) => (st', Stuck w)
      end
  end.

(** [reload()]: the history of the live map, which starts at the record set
    the engine held, and how the call ended. *)
Definition reload : store * result unit :=
  let st := mutate (fun _ => []) [templateNameToRecord E] in
  scanDirectories (directories E) st.

(** The engine after the call. *)
Definition reloaded : TemplateEngine :=
  {| directories := directories E;
     extensions := extensions E;
     nameDirective := nameDirective E;
     caseInsensitiveNames := caseInsensitiveNames E;
     templateNameToRecord := current (fst reload) |}.

End Reload.

(** *** The constructor, [listTemplateNames] and [createTemplateEngine] *)

(** [TemplateEngineOptions]: a field the caller leaves out is [None].  The
    type asks for [directories]; the constructor checks for it all the
    same. *)
Module Options.

Record TemplateEngineOptions := {
  directories : option (list jstr);
  extensions : option (list jstr);
  nameDirectiveRegex : option pattern;
  caseInsensitiveNames : option bool
}.

End Options.

(** The [Error] of the constructor. *)
Inductive constructorError := NoDirectories.

Definition constructorMessage (e : constructorError) : jstr :=
  match e with
  | NoDirectories => js "TemplateEngine requires at least one directory to scan."
  end.

(** [a ?? b] *)
Definition orDefault {A} (a : option A) (b : A) : A :=
  match a with
  | Some x => x
  | None => b
  end.

(** [new TemplateEngine(options)], with [path.resolve] of the host. *)
Definition constructor (resolve : jstr -> jstr)
           (options : option Options.TemplateEngineOptions)
  : outcome constructorError TemplateEngine :=
  match options with
  | None => Throw NoDirectories
  | Some options =>
      match Options.directories options with
      | None => Throw NoDirectories
      | Some [] => Throw NoDirectories
      | Some ds =>
          Ok {| directories := List.map resolve ds;
                extensions :=
                  orDefault (Options.extensions options)
                            (List.map js [".html"; ".htm"; ".tpl"; ".tpl.html"]%string);
                nameDirective :=
                  orDefault (Options.nameDirectiveRegex options) DEFAULT_NAME_DIRECTIVE;
                caseInsensitiveNames :=
                  orDefault (Options.caseInsensitiveNames options) true;
                templateNameToRecord := [] |}
      end
  end.

(** The order of [sort()] without a comparison function, on strings: code
    unit by code unit. *)
Fixpoint jstr_leb (a b : jstr) : bool :=
  match a, b with
  | [], _ => true
  | _ :: _, [] => false
  | x :: a', y :: b' => N.ltb x y || (N.eqb x y && jstr_leb a' b')
  end.

Fixpoint insertSorted (x : jstr) (l : list jstr) : list jstr :=
  match l with
  | [] => [x]
  | y :: l' => if jstr_leb x y then x :: l else y :: insertSorted x l'
  end.

(** [arr.sort()] on an array of strings. *)
Definition sort (l : list jstr) : list jstr := fold_right insertSorted [] l.

(** [Array.from(this.templateNameToRecord.keys()).sort()] *)
Definition listTemplateNames (E : TemplateEngine) : list jstr :=
  sort (List.map fst (templateNameToRecord E)).

(** [createTemplateEngine(options)]: the engine after [reload()], unless the
    constructor or the scan throws. *)
Definition createTemplateEngine (F : NodeFs) (resolve : jstr -> jstr)
           (options : option Options.TemplateEngineOptions)
  : outcome (constructorError + error) TemplateEngine :=
  match constructor resolve options with
  | Ok engine =>
      match snd (reload F engine) with
      | Ok _ => Ok (reloaded F engine)
      | Throw e => Throw (inr e)
      | Stuck w => Stuck w
      end
  | Throw e => Throw (inl e)
  | Stuck w => Stuck w
  end.

End Engine.
Import Engine.

(** ** Sample hosts, engines and data *)

Module Samples.

(** A built-in function of the host under its own name. *)
Definition builtin (n : string) : jstr * value := (js n, VFun (js n)).

(** A host with a few of the globals and built-in methods every ECMAScript
    host has. *)
Definition sampleHost : Host :=
  {| globalOwn := [builtin "Object"; builtin "Array"; builtin "String";
                   builtin "parseInt"; (js "undefined", VUndef)];
     objectProto := [(js "constructor", VFun (js "Object")); builtin "toString";
                     builtin "valueOf"; builtin "hasOwnProperty"];
     arrayProto := [builtin "join"; builtin "map"];
     stringProto := [builtin "trim"; builtin "toUpperCase"];
     numberProto := [builtin "toFixed"];
     booleanProto := [] |}.

(** The same host after some module has run [globalThis.title = 'leaked']. *)
Definition taintedHost : Host :=
  {| globalOwn := (js "title", VStr (js "leaked")) :: globalOwn sampleHost;
     objectProto := objectProto sampleHost;
     arrayProto := arrayProto sampleHost;
     stringProto := stringProto sampleHost;
     numberProto := numberProto sampleHost;
     booleanProto := booleanProto sampleHost |}.

(** The same host after some module has run [String.prototype.foo = 1]. *)
Definition patchedHost : Host :=
  {| globalOwn := globalOwn sampleHost;
     objectProto := objectProto sampleHost;
     arrayProto := arrayProto sampleHost;
     stringProto := (js "foo", VNum 1) :: stringProto sampleHost;
     numberProto := numberProto sampleHost;
     booleanProto := booleanProto sampleHost |}.

(** An object literal. *)
Definition obj (l : list (string * value)) : value :=
  VObj ProtoObject (List.map (fun kv => (js (fst kv), snd kv)) l).

Definition str (s : string) : value := VStr (js s).

(** The data of the examples of the spec's expression grammar. *)
Definition shopData : value :=
  createRootDataProxy
    (obj [("items", VArr [str "pen"; str "ink"]); ("a", VNum 2); ("b", VNum 3);
          ("user", obj [("status", str "active")]); ("s", str "x")]%string).

(** Markup literals are written with a backquote for the double quote. *)
Definition markup (s : string) : jstr :=
  List.map (fun c => if N.eqb c 96 then 34%N else c) (js s).

(** A template registered under [n]. *)
Definition template (n c : string) : jstr * TemplateRecord :=
  (js n, {| name := js n; filePath := js "views/" ++ js n ++ js ".html";
            content := markup c |}).

(** An engine with the default options whose registry holds [templates]. *)
Definition engineOf (templates : registry) : TemplateEngine :=
  {| directories := [js "views"];
     extensions := List.map js [".html"; ".htm"; ".tpl"; ".tpl.html"]%string;
     nameDirective := DEFAULT_NAME_DIRECTIVE;
     caseInsensitiveNames := true;
     templateNameToRecord := templates |}.

(** The layout example of the spec. *)
Definition layoutEngine : TemplateEngine :=
  engineOf [template "layout" "<h1>{{ title }}</h1>{{{ content }}}";
            template "page" "<p>Hi</p>"].

(** Template [a] includes itself. *)
Definition selfEngine : TemplateEngine := engineOf [template "a" "<a/>"].

(** Template [a] includes [b]; [b] includes itself with an attribute whose
    expression is malformed. *)
Definition badAttributeEngine : TemplateEngine :=
  engineOf [template "a" "<b/>"; template "b" "<b v=`{{ )( }}`/>"].

(** The match of the include element of [b] in [badAttributeEngine], and
    the match of a bare [<a/>]. *)
Definition badIncludeHit : hit :=
  {| matched := markup "<b v=`{{ )( }}`/>";
     groups := [(2, markup "v=`{{ )( }}`"); (1, js "b")] |}.

Definition selfIncludeHit : hit :=
  {| matched := js "<a/>"; groups := [(2, []); (1, js "a")] |}.

(** The match of the loop element of the template [list] below. *)
Definition listHit : hit :=
  {| matched := markup "<li x-for=`items` class=`row`>{{ item.n }}</li>";
     groups := [(5, js "{{ item.n }}"); (4, markup " class=`row`"); (3, js "items");
                (2, js " "); (1, js "li")] |}.

(** A recursive template guarded by a condition. *)
Definition guardedEngine : TemplateEngine :=
  engineOf [template "a" "<p x-if=`more`><a/></p>"].

(** An include chain [t0 -> t1 -> ... -> tk]: each template but the last is
    one include element. *)
Definition chainName (i : nat) : jstr := js "t" ++ nat_units i.

Definition chainTemplate (k i : nat) : jstr * TemplateRecord :=
  (chainName i,
   {| name := chainName i; filePath := chainName i;
      content := if Nat.ltb i k then js "<" ++ chainName (S i) ++ js "/>" else js "end" |}).

Definition chainEngine (k : nat) : TemplateEngine :=
  engineOf (List.map (chainTemplate k) (List.seq 0 (S k))).

(** The same chain with each include inside a conditional element:
    [c0 -> c1 -> ... -> ck], where every template but the last is
    [<p x-if=Q 1 Q><c(i+1)/></p>]. *)
Definition guardedName (i : nat) : jstr := js "c" ++ nat_units i.

Definition guardedTemplate (k i : nat) : jstr * TemplateRecord :=
  (guardedName i,
   {| name := guardedName i; filePath := guardedName i;
      content := if Nat.ltb i k
                 then markup "<p x-if=`1`><" ++ guardedName (S i) ++ js "/></p>"
                 else js "end" |}).

Definition guardedChainEngine (k : nat) : TemplateEngine :=
  engineOf (List.map (guardedTemplate k) (List.seq 0 (S k))).

(** The text of the guarded chain of [k] hops. *)
Fixpoint guardedText (k : nat) : jstr :=
  match k with
  | O => js "end"
  | S k' => js "<p>" ++ guardedText k' ++ js "</p>"
  end.

Definition pageEngine : TemplateEngine :=
  engineOf [template "list" "<li x-for=`items` class=`row`>{{ item.n }}</li>";
            template "rows" "<tr x-for=`rows` x-row=`r`><td>{{ $index }}:{{ r }}</td></tr>";
            template "nope" "{{ nope }}";
            template "bad" "{{ )( }}";
            template "call" "{{ title() }}";
            template "deep" "{{ user.name }}";
            template "escaped" "{{ v }}";
            template "raw" "{{{ v }}}";
            template "root" "{{ $root }}";
            template "global" "{{ Object }}";
            template "leak" "<p x-if=`Object`>{{ title }}</p>"].

(** Elements with attributes before and after the directive, an element
    that holds another of its name, and a layout whose content variable is
    [body]. *)
Definition shopEngine : TemplateEngine :=
  engineOf [template "twin" "<div x-for=`items`><div>a</div>b</div>";
            template "tags" "<li id=`x` x-for=`items` x-row=`r` class=`row`>{{ r }}</li>";
            template "guard" "<p x-if=`ok`>{{ v }}</p>";
            template "cond" "<a href=`#` x-if=`n > 0` class=`on`>{{ n }}</a>";
            template "frame" "<main>{{{ body }}}</main>";
            template "page" "<p>Hi</p>"].

(** The match of the loop pattern in the template [twin]: it ends at the
    first close tag. *)
Definition twinHit : hit :=
  {| matched := markup "<div x-for=`items`><div>a</div>";
     groups := [(5, js "<div>a"); (4, []); (3, js "items"); (2, js " "); (1, js "div")] |}.

(** A file system with two template files, and the same with a second file
    that cannot be read. *)
Definition sampleFs (second : option jstr) : NodeFs :=
  {| lookupPath := fun p =>
       if jstr_eqb p (js "views")
       then Some (FsDir [(js "a.html", FsFile (Some (js "<p>new a</p>")));
                         (js "b.html", FsFile second)])
       else None;
     pathJoin := fun d n => d ++ js "/" ++ n;
     baseNameWithoutExt := fun n => firstn (length n - 5) n |}.

(** [k] loop elements over the unbound name [z], nested so that removing
    the innermost one completes the next: each run of the loop pass removes
    one element. *)
Fixpoint onionMarkup (k : nat) : jstr :=
  match k with
  | O => []
  | S k' => js "<" ++ onionMarkup k' ++ markup "p x-for=`z`></p>"
  end.

Definition onionEngine (k : nat) : TemplateEngine :=
  engineOf [(js "onion", {| name := js "onion"; filePath := js "views/onion.html";
                            content := onionMarkup k |})].

Definition oldRegistry : registry :=
  [template "a" "<p>old a</p>"; template "b" "<p>old b</p>"].

Definition newRegistry : registry :=
  [template "a" "<p>new a</p>"; template "b" "<p>new b</p>"].

Definition halfRegistry : registry := [template "a" "<p>new a</p>"].

(** A template that is plain text. *)
Definition staticEngine : TemplateEngine :=
  engineOf [template "motd" "Hello, world"].

(** An engine configured with a capital extension. *)
Definition capitalEngine : TemplateEngine :=
  {| directories := [js "views"];
     extensions := [js ".HTML"];
     nameDirective := DEFAULT_NAME_DIRECTIVE;
     caseInsensitiveNames := true;
     templateNameToRecord := oldRegistry |}.

(** An element with a condition that holds another element of its name. *)
Definition nestedEngine : TemplateEngine :=
  engineOf [template "nested" "<div x-if=`ok`><div>a</div>b</div>";
            template "hidden" "<p x-if=`ok`>{{ )( }}</p>done"].

(** The match of the element of the template [hidden] and of an include
    element with two attributes. *)
Definition hiddenHit : hit :=
  {| matched := markup "<p x-if=`ok`>{{ )( }}</p>";
     groups := [(5, js "{{ )( }}"); (4, []); (3, js "ok"); (2, js " "); (1, js "p")] |}.

Definition cardHit : hit :=
  {| matched := markup "<page title=`T` n=`{{ k }}`/>";
     groups := [(2, markup "title=`T` n=`{{ k }}`"); (1, js "page")] |}.

(** A file of the default extensions whose text begins with a directive. *)
Definition cardFile : jstr :=
  markup "<!-- @template name=`User Card` --><p>{{ name }}</p>".

End Samples.
Import Samples.

(** ** Notions the statements use *)

Module Notions.

(** [r] is [r'] unless the budget ran out on it. *)
Definition settles {A} (r r' : result A) : Prop := r = Stuck OutOfFuel \/ r = r'.

Definition pass_le (p q : pass) : Prop :=
  forall html data renderStack depth,
    settles (p html data renderStack depth) (q html data renderStack depth).

(** Two passes that return the same at one depth. *)
Definition agreeAt (depth : nat) (p q : pass) : Prop :=
  forall html data renderStack, p html data renderStack depth = q html data renderStack depth.

(** Two hosts with the same built-in prototypes; their global objects may
    differ. *)
Definition sameBuiltins (H1 H2 : Host) : Prop :=
  objectProto H1 = objectProto H2 /\ arrayProto H1 = arrayProto H2 /\
  stringProto H1 = stringProto H2 /\ numberProto H1 = numberProto H2 /\
  booleanProto H1 = booleanProto H2.

(** [x in target] for the target of the scope proxy of [data]; [false] only
    when the scope is known to lack [x]. *)
Definition boundInScope (H : Host) (data : value) (x : jstr) : bool :=
  match createEvalScope data with
  | Ok scope =>
      match lookupProperty H scope x with
      | Ok None => false
      | _ => true
      end
  | _ => true
  end.

(** The entity of one code unit, as the spec lists them. *)
Definition escapeChar (c : jschar) : jstr :=
  if N.eqb c 38 then js "&amp;"
  else if N.eqb c 34 then js "&quot;"
  else if N.eqb c 39 then js "&#39;"
  else if N.eqb c 60 then js "&lt;"
  else if N.eqb c 62 then js "&gt;"
  else [c].

(** The five kinds of data that are not objects. *)
Definition isPrimitive (v : value) : bool :=
  match v with
  | VUndef | VNull | VBool _ | VNum _ | VStr _ => true
  | _ => false
  end.

(** Rendering the first template of the chain [t0 -> ... -> tk] returns the
    text of the last one. *)
Definition chainRenders (H : Host) (data : value) (fuel k : nat) : bool :=
  match render H (chainEngine k) fuel (js "t0") data with
  | Ok s => jstr_eqb s (js "end")
  | _ => false
  end.

Definition guardedRenders (H : Host) (data : value) (fuel k : nat) : bool :=
  match render H (guardedChainEngine k) fuel (js "c0") data with
  | Ok s => jstr_eqb s (guardedText k)
  | _ => false
  end.

(** A pass that reports, by [Stuck Unsupported], that it was entered above
    [limit]; [unfoldProbed] is [unfold] with every pass probed. *)
Definition probe (limit : nat) (p : pass) : pass :=
  fun html data renderStack depth =>
    if Nat.ltb limit depth then Stuck Unsupported else p html data renderStack depth.

Fixpoint unfoldProbed (H : Host) (E : TemplateEngine) (limit fuel : nat) : passes :=
  match fuel with
  | O => {| loopsPass := fun _ _ _ _ => Stuck OutOfFuel;
            conditionalsPass := fun _ _ _ _ => Stuck OutOfFuel;
            includesPass := fun _ _ _ _ => Stuck OutOfFuel |}
  | S fuel' =>
      let P := unfoldProbed H E limit fuel' in
      {| loopsPass :=
           probe limit (applyLoops_level H (renderContent_level H P) (loopsPass P));
         conditionalsPass :=
           probe limit (applyConditionals_level H (renderContent_level H P)
                                                (conditionalsPass P));
         includesPass :=
           probe limit (applyIncludes_level H E (renderContent_level H P) (includesPass P)) |}
  end.

(** The text a list of pieces was cut from. *)
Definition restore (l : list piece) : jstr :=
  flat_map (fun pc => match pc with Lit c => [c] | Hit h => matched h end) l.

(** The live map after a sequence of [set] calls, one state per call. *)
Fixpoint applySets (sets : list (jstr * TemplateRecord)) (st : store) : store :=
  match sets with
  | [] => st
  | (k, r) :: sets' => applySets sets' (mutate (mapSet k r) st)
  end.

(** The engine [E] holding the record set [old]. *)
Definition withRegistry (E : TemplateEngine) (old : registry) : TemplateEngine :=
  {| directories := directories E;
     extensions := extensions E;
     nameDirective := nameDirective E;
     caseInsensitiveNames := caseInsensitiveNames E;
     templateNameToRecord := old |}.

(** A scan step that amounts to a fixed sequence of [set] calls and a fixed
    outcome, whatever the live map holds. *)
Definition scripted (f : store -> store * result unit) : Prop :=
  exists sets outcome, forall st, f st = (applySets sets st, outcome).

(** A result other than the end of the budget. *)
Definition inBudget {X A} (r : outcome X A) : Prop := r <> Stuck OutOfFuel.

(** [p], a computation given its budget, has enough from some budget on. *)
Definition halts {A} (p : nat -> result A) : Prop :=
  exists n, forall m, n <= m -> inBudget (p m).

(** One more unit of budget changes nothing but the end of the budget. *)
Definition grows {A} (p : nat -> result A) : Prop :=
  forall m, settles (p m) (p (S m)).

(** The parser had budget enough and, when it parsed, left no more than it
    was given; [strict] when it took a token. *)
Definition consumes (strict : bool) (ts : list token) (r : parsed expr) : Prop :=
  match r with
  | Parsed _ rest =>
      if strict then length rest < length ts else length rest <= length ts
  | NoParse | NoModel => True
  | NoBudget => False
  end.

(** The three passes have budget enough at [depth], whatever the text. *)
Definition allHalt (H : Host) (E : TemplateEngine) (depth : nat) : Prop :=
  (forall html data renderStack,
      halts (fun m => applyLoops H E m html data renderStack depth)) /\
  (forall html data renderStack,
      halts (fun m => applyConditionals H E m html data renderStack depth)) /\
  (forall html data renderStack,
      halts (fun m => applyIncludes H E m html data renderStack depth)).

(** The texts a pattern can cover, read off its syntax; assertions and
    back-references are not looked into. *)
Fixpoint spans (icase : bool) (r : regex) (w : jstr) {struct r} : Prop :=
  match r with
  | REps => w = []
  | RLit x => exists c, w = [c] /\ canon icase c = canon icase x
  | RSet negated items => exists c, w = [c] /\ set_matches icase negated items c = true
  | RSeq r1 r2 => exists w1 w2, w = w1 ++ w2 /\ spans icase r1 w1 /\ spans icase r2 w2
  | RAlt r1 r2 => spans icase r1 w \/ spans icase r2 w
  | RQuant r' min _ =>
      exists ws, w = concat ws /\ Forall (spans icase r') ws /\ min <= length ws
  | RCap _ r' => spans icase r' w
  | RBackref _ => True
  | RWordB | RStart | REnd => w = []
  end.

(** [st'] is [st] after the text [w]. *)
Definition after (st : mstate) (w : jstr) (st' : mstate) : Prop :=
  rest st = w ++ rest st' /\ pos st' = pos st + length w.

(** A code unit every text of the pattern holds. *)
Fixpoint needs (c : jschar) (r : regex) : bool :=
  match r with
  | RLit x => N.eqb x c
  | RSeq r1 r2 => needs c r1 || needs c r2
  | RAlt r1 r2 => needs c r1 && needs c r2
  | RQuant r' min _ => Nat.leb 1 min && needs c r'
  | RCap _ r' => needs c r'
  | _ => false
  end.

(** A code unit that is no ASCII letter: the [i] flag leaves it alone. *)
Definition caseless (c : jschar) : bool :=
  negb (in_range 65 90 c || in_range 97 122 c).

(** The code units that open or close markup: [<], [>] and the two quotes. *)
Definition isMarkup (c : jschar) : bool :=
  N.eqb c 60 || N.eqb c 62 || N.eqb c 34 || N.eqb c 39.

(** The number of times [c] occurs in [s]. *)
Definition occurrences (c : jschar) (s : jstr) : nat :=
  length (filter (N.eqb c) s).

(** Every exception of [r] is one of [P]. *)
Definition raises {X A} (r : outcome X A) (P : X -> Prop) : Prop :=
  forall e, r = Throw e -> P e.

(** A render stack: registered names, each once. *)
Definition goodStack (E : TemplateEngine) (renderStack : list jstr) : Prop :=
  NoDup renderStack /\
  forall n, In n renderStack -> mapHas n (templateNameToRecord E) = true.

(** What [renderContent] can throw. *)
Definition contentError (E : TemplateEngine) (e : error) : Prop :=
  match e with
  | TemplateNotFound _ => False
  | CyclicInclude chain =>
      exists renderStack n,
        chain = renderStack ++ [n] /\ In n renderStack /\ goodStack E renderStack
  | RenderDepthExceeded => True
  | ExpressionEvaluationError _ cause => cause = SyntaxError \/ cause = TypeError
  | HostError cause => cause = TypeError
  end.

(** A pass that throws what [renderContent] can throw, on a render stack. *)
Definition careful (E : TemplateEngine) (p : pass) : Prop :=
  forall html data renderStack depth,
    goodStack E renderStack -> raises (p html data renderStack depth) (contentError E).

(** A text of ASCII code units: [toLowerCase] is modelled in full on it. *)
Definition isAscii (s : jstr) : bool := forallb (fun c => N.ltb c 128) s.

(** White space only. *)
Definition allSpace (s : jstr) : bool := forallb is_space s.

(** No white space in front. *)
Definition headTight (s : jstr) : Prop :=
  match s with
  | c :: _ => is_space c = false
  | [] => True
  end.

(** A scan step that amounts to a fixed sequence of [set] calls, each of a
    key and record that [P] holds of, and a fixed outcome. *)
Definition scriptedBy (P : jstr -> TemplateRecord -> Prop)
           (f : store -> store * result unit) : Prop :=
  exists sets outcome,
    Forall (fun kr => P (fst kr) (snd kr)) sets /\
    forall st, f st = (applySets sets st, outcome).

(** What [scanDirectory] registers: a record under its own name, which is a
    normalized name. *)
Definition scanned (E : TemplateEngine) (k : jstr) (r : TemplateRecord) : Prop :=
  name r = k /\ exists n, k = normalizeName E n.

(** [r] matches from [st] up to [st'], and nothing it would try before
    gets in the way: whenever what follows accepts [st'], that is the
    match. *)
Definition leads (icase : bool) (r : regex) (st st' : mstate) : Prop :=
  forall k res, k st' = Some res -> rmatch icase r st k = Some res.

(** [r] matches nothing at [st], whatever follows. *)
Definition fails (icase : bool) (r : regex) (st : mstate) : Prop :=
  forall k, rmatch icase r st k = None.

(** The state after the code unit [c], with [tail] ahead. *)
Definition next (st : mstate) (c : jschar) (tail : jstr) : mstate :=
  {| prev := Some c; rest := tail; pos := S (pos st); caps := caps st |}.

(** The state after the text [w], with [tail] ahead. *)
Fixpoint run (st : mstate) (w tail : jstr) : mstate :=
  match w with
  | [] => {| prev := prev st; rest := tail; pos := pos st; caps := caps st |}
  | c :: w' => run (next st c (w' ++ tail)) w' tail
  end.

(** The state [st] with group [i] set to [w]. *)
Definition withGroup (i : nat) (w : jstr) (st : mstate) : mstate :=
  {| prev := prev st; rest := rest st; pos := pos st; caps := (i, w) :: caps st |}.

(** The code unit ahead is none of the set: a repetition over the set stops. *)
Definition stopsAt (ok : jschar -> bool) (tail : jstr) : Prop :=
  match tail with
  | [] => True
  | c :: _ => ok c = false
  end.

(** The code unit before the position after [w]. *)
Definition lastOr (p : option jschar) (w : jstr) : option jschar :=
  fold_left (fun _ c => Some c) w p.

(** An attribute as markup writes it, after white space: [key=Q value Q]. *)
Record attribute := {
  attrLead : jstr;
  attrKey : jstr;
  attrValue : jstr
}.

Definition attributeText (key value : jstr) : jstr :=
  key ++ js "=" ++ [34%N] ++ value ++ [34%N].

(** The attributes in a row, with the white space that ends the text. *)
Fixpoint attributesText (items : list attribute) (trailing : jstr) : jstr :=
  match items with
  | [] => trailing
  | a :: items' =>
      attrLead a ++ attributeText (attrKey a) (attrValue a) ++ attributesText items' trailing
  end.

(** A name of the attribute pattern: a word character, then word characters
    and hyphens. *)
Definition attributeName (key : jstr) : bool :=
  match key with
  | c :: w => is_word c && forallb (fun x => is_word x || N.eqb x 45) w
  | [] => false
  end.

(** An attribute with a literal value, as [parseAttributes] reads one. *)
Definition literalAttribute (a : attribute) : Prop :=
  allSpace (attrLead a) = true /\
  attributeName (attrKey a) = true /\
  attrKey a <> js "__proto__" /\
  ~ In 34%N (attrValue a) /\
  ~ In 123%N (attrValue a).

(** The match of an attribute. *)
Definition attributeHit (key value : jstr) : hit :=
  {| matched := attributeText key value; groups := [(2, value); (1, key)] |}.

(** The object a row of literal attributes stands for. *)
Definition attributesObject (items : list attribute) : props :=
  fold_left (fun acc a => define (attrKey a) (VStr (attrValue a)) acc) items [].

(** A call of a parser function whose budget [Hcall] vouches for: what is
    left to prove is the case where it parsed. *)
Ltac budget_call Hcall a r Ha :=
  pose proof Hcall as Ha;
  match type of Ha with
  | consumes _ _ ?p =>
      destruct p as [a r| | |]; simpl in Ha; cbn [andThen];
      [|exact I|exact Ha|exact I]
  end.

(** Closes a goal [~ In c s] on a literal text. *)
Ltac absent :=
  let Hin := fresh "Hin" in
  intros Hin; vm_compute in Hin;
  repeat (destruct Hin as [Hin|Hin]; [discriminate Hin|]); exact Hin.

(** Linear arithmetic over lengths of texts. *)
Ltac jlia := unfold jstr, jschar in *; lia.

End Notions.
Import Notions.

(** * Properties *)

(** ** Strings, outcomes and property lists *)

Lemma jstr_eqb_spec (a b : jstr) : reflect (a = b) (jstr_eqb a b).
Proof.
  revert b; induction a as [|x a IH]; intros [|y b]; simpl;
    try (constructor; congruence).
  destruct (N.eqb_spec x y) as [->|Hn]; simpl.
  - destruct (IH b) as [->|Hn]; constructor; congruence.
  - constructor; congruence.
Qed.

Lemma jstr_eqb_refl (a : jstr) : jstr_eqb a a = true.
Proof. destruct (jstr_eqb_spec a a); congruence. Qed.

Lemma jstr_eqb_neq (a b : jstr) : a <> b -> jstr_eqb a b = false.
Proof. destruct (jstr_eqb_spec a b); congruence. Qed.

Lemma bind_assoc {E A B C} (m : outcome E A) (f : A -> outcome E B)
      (g : B -> outcome E C) :
  bind (bind m f) g = bind m (fun a => bind (f a) g).
Proof. destruct m; reflexivity. Qed.

Lemma bind_ext {E A B} (m : outcome E A) (f g : A -> outcome E B) :
  (forall a, f a = g a) -> bind m f = bind m g.
Proof. intros Hfg; destruct m; simpl; auto. Qed.

Lemma assoc_define (k k' : jstr) (v : value) (l : props) :
  assoc k' (define k v l) = if jstr_eqb k' k then Some v else assoc k' l.
Proof.
  induction l as [|[k0 v0] l IH]; simpl.
  - reflexivity.
  - destruct (jstr_eqb_spec k k0) as [->|Hk]; simpl.
    + destruct (jstr_eqb k' k0); reflexivity.
    + rewrite IH. destruct (jstr_eqb_spec k' k0) as [->|Hk'].
      * rewrite (jstr_eqb_neq (not_eq_sym Hk)). reflexivity.
      * reflexivity.
Qed.

(** ** The recursion budget

    A result that is not [Stuck OutOfFuel] does not depend on the budget:
    every larger budget gives the same result. *)

Lemma settles_refl {A} (r : result A) : settles r r.
Proof. right; reflexivity. Qed.

Lemma settles_bind {A B} (m m' : result A) (f g : A -> result B) :
  settles m m' -> (forall a, settles (f a) (g a)) -> settles (bind m f) (bind m' g).
Proof.
  intros [->| ->] Hfg.
  - left; reflexivity.
  - destruct m'; simpl; [apply Hfg | right; reflexivity ..].
Qed.

Lemma substituteFlag_settles (f g : hit -> result (jstr * bool)) (l : list piece) :
  (forall h, settles (f h) (g h)) ->
  settles (substituteFlag f l) (substituteFlag g l).
Proof.
  intros Hfg; induction l as [|[c|h] l IH]; simpl.
  - apply settles_refl.
  - apply settles_bind; [exact IH | intros [r d]; apply settles_refl].
  - apply settles_bind; [apply Hfg | intros [x d1]].
    apply settles_bind; [exact IH | intros [r d2]; apply settles_refl].
Qed.

Lemma loopPieces_settles (rc rc' : pass) data renderStack depth alias inner
      openTag closingTag rows index :
  pass_le rc rc' ->
  settles (loopPieces rc data renderStack depth alias inner openTag closingTag rows index)
          (loopPieces rc' data renderStack depth alias inner openTag closingTag rows index).
Proof.
  intros Hrc; revert index; induction rows as [|row rows IH]; intros index; simpl.
  - apply settles_refl.
  - apply settles_bind; [apply Hrc | intros body].
    apply settles_bind; [apply IH | intros others; apply settles_refl].
Qed.

Section BudgetLevels.

Variable H : Host.
Variable E : TemplateEngine.
Variables rc rc' self self' : pass.
Hypothesis Hrc : pass_le rc rc'.
Hypothesis Hself : pass_le self self'.

Lemma applyLoops_level_settles :
  pass_le (applyLoops_level H rc self) (applyLoops_level H rc' self').
Proof.
  intros html data renderStack depth; unfold applyLoops_level, replaceFlag.
  apply settles_bind.
  - apply substituteFlag_settles; intros h; unfold loopCallback.
    apply settles_bind; [apply settles_refl | intros v].
    destruct v; try apply settles_refl.
    apply settles_bind; [apply loopPieces_settles, Hrc | intros out; apply settles_refl].
  - intros [r d]; destruct d; [apply Hself | apply settles_refl].
Qed.

Lemma applyConditionals_level_settles :
  pass_le (applyConditionals_level H rc self) (applyConditionals_level H rc' self').
Proof.
  intros html data renderStack depth; unfold applyConditionals_level, replaceFlag.
  apply settles_bind.
  - apply substituteFlag_settles; intros h; unfold conditionalCallback.
    apply settles_bind; [apply settles_refl | intros c].
    destruct (negb c); [apply settles_refl|].
    apply settles_bind; [apply Hrc | intros body; apply settles_refl].
  - intros [r d]; destruct d; [apply Hself | apply settles_refl].
Qed.

Lemma applyIncludes_level_settles :
  pass_le (applyIncludes_level H E rc self) (applyIncludes_level H E rc' self').
Proof.
  intros html data renderStack depth; unfold applyIncludes_level, replaceFlag.
  apply settles_bind.
  - apply substituteFlag_settles; intros h; unfold includeCallback.
    destruct (negb _); [apply settles_refl|].
    apply settles_bind; [apply settles_refl | intros attributes].
    destruct (includes _ _); [apply settles_refl|].
    destruct (mapGet _ _); [|apply settles_refl].
    apply settles_bind; [apply Hrc | intros body; apply settles_refl].
  - intros [r d]; destruct d; [apply Hself | apply settles_refl].
Qed.

End BudgetLevels.

Lemma renderContent_level_settles (H : Host) (P Q : passes) :
  pass_le (loopsPass P) (loopsPass Q) ->
  pass_le (conditionalsPass P) (conditionalsPass Q) ->
  pass_le (includesPass P) (includesPass Q) ->
  pass_le (renderContent_level H P) (renderContent_level H Q).
Proof.
  intros HL HC HI source data renderStack depth; unfold renderContent_level.
  destruct (Nat.ltb 50 depth); [apply settles_refl|].
  apply settles_bind; [apply HL | intros h1].
  apply settles_bind; [apply HC | intros h2].
  apply settles_bind; [apply HI | intros h3; apply settles_refl].
Qed.

Lemma unfold_settles (H : Host) (E : TemplateEngine) (fuel : nat) :
  pass_le (loopsPass (unfold H E fuel)) (loopsPass (unfold H E (S fuel))) /\
  pass_le (conditionalsPass (unfold H E fuel)) (conditionalsPass (unfold H E (S fuel))) /\
  pass_le (includesPass (unfold H E fuel)) (includesPass (unfold H E (S fuel))).
Proof.
  induction fuel as [|fuel (IHl & IHc & IHi)].
  - repeat split; intros html data renderStack depth; left; reflexivity.
  - assert (Hrc : pass_le (renderContent_level H (unfold H E fuel))
                          (renderContent_level H (unfold H E (S fuel))))
      by (apply renderContent_level_settles; assumption).
    change (unfold H E (S (S fuel))) with
      (let P := unfold H E (S fuel) in
       {| loopsPass := applyLoops_level H (renderContent_level H P) (loopsPass P);
          conditionalsPass :=
            applyConditionals_level H (renderContent_level H P) (conditionalsPass P);
          includesPass := applyIncludes_level H E (renderContent_level H P) (includesPass P) |}).
    cbv zeta. simpl loopsPass at 1 3. simpl conditionalsPass at 1 3. simpl includesPass at 1 3.
    repeat split.
    + apply applyLoops_level_settles; assumption.
    + apply applyConditionals_level_settles; assumption.
    + apply applyIncludes_level_settles; assumption.
Qed.

Lemma renderContent_settles (H : Host) (E : TemplateEngine) (fuel extra : nat) :
  pass_le (renderContent H E fuel) (renderContent H E (extra + fuel)).
Proof.
  induction extra as [|extra IH]; intros source data renderStack depth.
  - apply settles_refl.
  - destruct (IH source data renderStack depth) as [Hs|Hs]; [left; exact Hs|].
    rewrite Hs. simpl Nat.add.
    apply renderContent_level_settles; apply unfold_settles.
Qed.

(** The result of [render] is the same under every larger budget. *)
Lemma render_budget (H : Host) (E : TemplateEngine) (fuel extra : nat) templateName data :
  render H E fuel templateName data <> Stuck OutOfFuel ->
  render H E (extra + fuel) templateName data = render H E fuel templateName data.
Proof.
  unfold render. destruct (mapGet _ _) as [record|]; [|reflexivity].
  intros Hne.
  destruct (renderContent_settles H E fuel extra (content record)
              (createRootDataProxy data) [] 0) as [Hs|Hs]; congruence.
Qed.

(** ** Expression evaluation and the ambient state *)

Lemma lookupProperty_sameBuiltins (H1 H2 : Host) (o : value) (k : jstr) :
  sameBuiltins H1 H2 -> lookupProperty H1 o k = lookupProperty H2 o k.
Proof.
  intros (Ho & Ha & Hs & Hn & Hb).
  destruct o as [| | | | | |[|]|]; simpl; rewrite ?Ho, ?Ha, ?Hs, ?Hn, ?Hb; reflexivity.
Qed.

Lemma eval_sameBuiltins (H1 H2 : Host) (scope : value) (fn : expr) :
  sameBuiltins H1 H2 ->
  (forall x, lookupProperty H1 scope x = Ok None ->
             assoc x (globalOwn H1) = assoc x (globalOwn H2)) ->
  eval H1 scope fn = eval H2 scope fn.
Proof.
  intros Hsame Hglobals. revert fn.
  (* the argument of a call is an optional sub-expression *)
  fix IH 1. intros fn.
  destruct fn as [x|v|e k|f arg|e|a b|a b|e k|e|e|op a b|c a b]; simpl.
  - unfold scopeGet.
    rewrite <- (lookupProperty_sameBuiltins scope x Hsame).
    destruct (lookupProperty H1 scope x) as [[v|]| |] eqn:Hl; simpl; try reflexivity.
    unfold lookupGlobal. rewrite (Hglobals x Hl).
    destruct Hsame as (-> & _). reflexivity.
  - reflexivity.
  - rewrite (IH e). apply bind_ext; intros o.
    rewrite (lookupProperty_sameBuiltins o k Hsame). reflexivity.
  - rewrite (IH f). apply bind_ext; intros fv.
    destruct arg as [a|]; [rewrite (IH a)|]; reflexivity.
  - rewrite (IH e). reflexivity.
  - rewrite (IH a). apply bind_ext; intros v. rewrite (IH b). reflexivity.
  - rewrite (IH a). apply bind_ext; intros v. rewrite (IH b). reflexivity.
  - rewrite (IH e). apply bind_ext; intros o.
    rewrite (IH k). apply bind_ext; intros kv. apply bind_ext; intros key.
    rewrite (lookupProperty_sameBuiltins o key Hsame). reflexivity.
  - rewrite (IH e). reflexivity.
  - rewrite (IH e). reflexivity.
  - rewrite (IH a). apply bind_ext; intros x. rewrite (IH b). reflexivity.
  - rewrite (IH c). apply bind_ext; intros v. rewrite (IH a), (IH b). reflexivity.
Qed.




(** ** Interpolation: absent values and errors *)

Lemma substitute_throw {X} (f : hit -> outcome X jstr) (pre post : list piece)
      (h : hit) (e : X) :
  (forall h', In (Hit h') pre -> exists s, f h' = Ok s) ->
  f h = Throw e ->
  substitute f (pre ++ Hit h :: post) = Throw e.
Proof.
  intros Hpre Hh; induction pre as [|[c|h0] pre IH]; simpl.
  - rewrite Hh. reflexivity.
  - rewrite IH; [reflexivity|]. intros h' Hin; apply Hpre; right; exact Hin.
  - destruct (Hpre h0 (or_introl eq_refl)) as [s ->]; simpl.
    rewrite IH; [reflexivity|]. intros h' Hin; apply Hpre; right; exact Hin.
Qed.

Lemma safeEval_throws (H : Host) (expression : jstr) (data : value) (err : error) :
  safeEval H expression data = Throw err ->
  exists cause, err = ExpressionEvaluationError expression cause.
Proof.
  unfold safeEval, catchWith.
  destruct (bind _ _) as [v|cause|w]; intros Heq; try discriminate Heq.
  exists cause. congruence.
Qed.

(** C2, as stated, fails for an identifier the global object defines:
    [Object] is a well-formed identifier, the scope of the render does not
    bind it, and [{{ Object }}] substitutes the text of the built-in
    function, not the empty string. *)
Lemma C2_unbound_global_identifier_counterexample :
  newFunction (js "Object") = Ok (EIdent (js "Object")) /\
  lookupProperty sampleHost (createRootDataProxy (obj [])) (js "Object") = Ok None /\
  render sampleHost pageEngine 9 (js "global") (obj [])
  = Ok (js "function Object() { [native code] }") /\
  render sampleHost pageEngine 9 (js "global") (obj []) <> Ok [].
Proof.
  repeat split; try (vm_compute; reflexivity).
  vm_compute. discriminate.
Qed.

(** C2, amended: an interpolation whose expression is an identifier bound
    neither in the scope nor on the global object substitutes the empty
    string and raises nothing; an expression that is malformed or fails with
    a type error raises an ExpressionEvaluationError that carries the exact
    expression text and the cause, every error of [safeEval] is of that
    kind, its message quotes the text, and the error ends the interpolation
    pass, [renderContent] and [render]. *)
Theorem C2_interpolation_absent_and_errors (H : Host) :
  (forall data scope x h,
      newFunction x = Ok (EIdent x) ->
      createEvalScope data = Ok scope ->
      lookupProperty H scope x = Ok None ->
      lookupGlobal H x = None ->
      group 1 h = x ->
      mustacheCallback H data h = Ok []) /\
  (forall expression data cause,
      newFunction expression = Throw cause ->
      safeEval H expression data = Throw (ExpressionEvaluationError expression cause)) /\
  (forall expression data fn scope cause,
      newFunction expression = Ok fn ->
      createEvalScope data = Ok scope ->
      eval H scope fn = Throw cause ->
      safeEval H expression data = Throw (ExpressionEvaluationError expression cause)) /\
  (forall expression data err,
      safeEval H expression data = Throw err ->
      exists cause, err = ExpressionEvaluationError expression cause) /\
  (forall hostMessage expression cause,
      errorMessage hostMessage (ExpressionEvaluationError expression cause)
      = js "Expression evaluation failed for " ++ [34%N] ++ expression ++ [34%N]
           ++ js ": " ++ hostMessage cause) /\
  (forall html data html1 pre h post err,
      replaceWith tripleRegex html (rawCallback H data) = Ok html1 ->
      pieces mustacheRegex html1 = pre ++ Hit h :: post ->
      (forall h', In (Hit h') pre -> exists s, mustacheCallback H data h' = Ok s) ->
      safeEval H (group 1 h) data = Throw err ->
      interpolate H html data = Throw err) /\
  (forall P source data renderStack depth html1 html2 html3 err,
      depth <= 50 ->
      loopsPass P (stripBom source) data renderStack depth = Ok html1 ->
      conditionalsPass P html1 data renderStack depth = Ok html2 ->
      includesPass P html2 data renderStack depth = Ok html3 ->
      interpolate H html3 data = Throw err ->
      renderContent_level H P source data renderStack depth = Throw err) /\
  (forall data fuel,
      render H pageEngine (S fuel) (js "bad") data
      = Throw (ExpressionEvaluationError (js ")(") SyntaxError)) /\
  (forall fuel,
      render H pageEngine (S fuel) (js "call") (obj [("title", str "x")]%string)
      = Throw (ExpressionEvaluationError (js "title()") TypeError)).
Proof.
  repeat match goal with |- _ /\ _ => split end.
  - intros data scope x h Hfn Hscope Hown Hglobal Hg.
    unfold mustacheCallback, safeEval. rewrite Hg, Hfn; simpl. rewrite Hscope; simpl.
    unfold scopeGet. rewrite Hown; simpl. rewrite Hglobal. reflexivity.
  - intros expression data cause Hfn. unfold safeEval. rewrite Hfn. reflexivity.
  - intros expression data fn scope cause Hfn Hscope Heval.
    unfold safeEval. rewrite Hfn; simpl. rewrite Hscope; simpl. rewrite Heval. reflexivity.
  - intros expression data err. apply safeEval_throws.
  - reflexivity.
  - intros html data html1 pre h post err Htriple Hpieces Hpre Hthrow.
    unfold interpolate. rewrite Htriple; simpl. unfold replaceWith. rewrite Hpieces.
    apply substitute_throw; [exact Hpre|].
    unfold mustacheCallback. rewrite Hthrow. reflexivity.
  - intros P source data renderStack depth html1 html2 html3 err Hd H1 H2 H3 Hi.
    unfold renderContent_level.
    destruct (Nat.ltb_spec 50 depth) as [Hlt|_]; [lia|].
    rewrite H1; simpl. rewrite H2; simpl. rewrite H3; simpl. exact Hi.
  - intros data fuel. vm_compute. reflexivity.
  - intros fuel. vm_compute. reflexivity.
Qed.

Lemma C2_interpolation_witness :
  mustacheCallback sampleHost (createRootDataProxy (obj []))
    {| matched := js "{{ nope }}"; groups := [(1, js "nope")] |} = Ok [] /\
  safeEval sampleHost (js ")(") (createRootDataProxy (obj []))
  = Throw (ExpressionEvaluationError (js ")(") SyntaxError) /\
  safeEval sampleHost (js "user.name") (createRootDataProxy (obj []))
  = Throw (ExpressionEvaluationError (js "user.name") TypeError) /\
  interpolate sampleHost (js "a {{ )( }} b") (createRootDataProxy (obj []))
  = Throw (ExpressionEvaluationError (js ")(") SyntaxError) /\
  renderContent_level sampleHost (unfold sampleHost pageEngine 1) (js "{{ )( }}")
    (createRootDataProxy (obj [])) [] 0
  = Throw (ExpressionEvaluationError (js ")(") SyntaxError).
Proof.
  destruct (C2_interpolation_absent_and_errors sampleHost)
    as (Habsent & Hsyntax & Htype & _ & _ & Hinterp & Hrender & _).
  repeat match goal with |- _ /\ _ => split end.
  - apply (Habsent _ (createRootDataProxy (obj [])) (js "nope")); reflexivity.
  - apply Hsyntax. reflexivity.
  - apply (Htype _ _ (EMember (EIdent (js "user")) (js "name"))
                 (createRootDataProxy (obj []))); reflexivity.
  - apply (Hinterp _ _ (js "a {{ )( }} b") [Lit 97%N; Lit 32%N]
                   {| matched := js "{{ )( }}"; groups := [(1, js ")(")] |}
                   [Lit 32%N; Lit 98%N]).
    + reflexivity.
    + reflexivity.
    + intros h' [Hin|[Hin|[]]]; discriminate Hin.
    + reflexivity.
  - apply (Hrender _ _ _ _ _ (js "{{ )( }}") (js "{{ )( }}") (js "{{ )( }}")).
    + lia.
    + reflexivity.
    + reflexivity.
    + reflexivity.
    + reflexivity.
Defined.

(** ** The depth counter *)

Lemma substituteFlag_ext (f g : hit -> result (jstr * bool)) (l : list piece) :
  (forall h, f h = g h) -> substituteFlag f l = substituteFlag g l.
Proof.
  intros Hfg; induction l as [|[c|h] l IH]; simpl.
  - reflexivity.
  - rewrite IH. reflexivity.
  - rewrite Hfg, IH. reflexivity.
Qed.

Lemma loopPieces_ext (rc rc' : pass) data renderStack depth alias inner
      openTag closingTag rows index :
  agreeAt (depth + 1) rc rc' ->
  loopPieces rc data renderStack depth alias inner openTag closingTag rows index
  = loopPieces rc' data renderStack depth alias inner openTag closingTag rows index.
Proof.
  intros Hrc; revert index; induction rows as [|row rows IH]; intros index; simpl.
  - reflexivity.
  - rewrite Hrc. apply bind_ext; intros body. rewrite IH. reflexivity.
Qed.

Section DepthLevels.

Variable H : Host.
Variable E : TemplateEngine.
Variables rc rc' self self' : pass.
Variable depth : nat.
Hypothesis Hrc : agreeAt (depth + 1) rc rc'.
Hypothesis Hself : agreeAt (depth + 1) self self'.

Lemma applyLoops_level_depth :
  agreeAt depth (applyLoops_level H rc self) (applyLoops_level H rc' self').
Proof.
  intros html data renderStack; unfold applyLoops_level, replaceFlag.
  rewrite (substituteFlag_ext (loopCallback H rc data renderStack depth)
                              (loopCallback H rc' data renderStack depth)).
  - apply bind_ext; intros [r d]; destruct d; [apply Hself | reflexivity].
  - intros h; unfold loopCallback. apply bind_ext; intros v.
    destruct v; try reflexivity.
    rewrite (loopPieces_ext _ _ _ _ _ _ _ _ _ Hrc). reflexivity.
Qed.

Lemma applyConditionals_level_depth :
  agreeAt depth (applyConditionals_level H rc self) (applyConditionals_level H rc' self').
Proof.
  intros html data renderStack; unfold applyConditionals_level, replaceFlag.
  rewrite (substituteFlag_ext (conditionalCallback H rc data renderStack depth)
                              (conditionalCallback H rc' data renderStack depth)).
  - apply bind_ext; intros [r d]; destruct d; [apply Hself | reflexivity].
  - intros h; unfold conditionalCallback. apply bind_ext; intros c.
    destruct (negb c); [reflexivity|]. rewrite Hrc. reflexivity.
Qed.

Lemma applyIncludes_level_depth :
  agreeAt depth (applyIncludes_level H E rc self) (applyIncludes_level H E rc' self').
Proof.
  intros html data renderStack; unfold applyIncludes_level, replaceFlag.
  rewrite (substituteFlag_ext (includeCallback H E rc data renderStack depth)
                              (includeCallback H E rc' data renderStack depth)).
  - apply bind_ext; intros [r d]; destruct d; [apply Hself | reflexivity].
  - intros h; unfold includeCallback.
    destruct (negb _); [reflexivity|]. apply bind_ext; intros attributes.
    destruct (includes _ _); [reflexivity|].
    destruct (mapGet _ _); [|reflexivity]. rewrite Hrc. reflexivity.
Qed.

End DepthLevels.

Lemma renderContent_depth_exceeded (H : Host) (E : TemplateEngine) (fuel : nat)
      source data renderStack depth :
  50 < depth ->
  renderContent H E fuel source data renderStack depth = Throw RenderDepthExceeded.
Proof.
  intros Hd. unfold renderContent, renderContent_level.
  destruct (Nat.ltb_spec 50 depth) as [_|Hle]; [reflexivity | lia].
Qed.

Lemma chains_render (H : Host) (data : value) :
  forallb (chainRenders H data 52) (List.seq 0 51) = true.
Proof. vm_compute. reflexivity. Qed.

Lemma chain_renders (H : Host) (data : value) (k : nat) :
  k <= 50 -> render H (chainEngine k) 52 (js "t0") data = Ok (js "end").
Proof.
  intros Hk.
  assert (Hin : In k (List.seq 0 51)) by (apply in_seq; lia).
  assert (Hok : chainRenders H data 52 k = true)
    by exact (proj1 (forallb_forall _ _) (chains_render H data) k Hin).
  revert Hok. unfold chainRenders.
  destruct (render H (chainEngine k) 52 (js "t0") data) as [s| |];
    try (intros Hok; discriminate Hok).
  destruct (jstr_eqb_spec s (js "end")) as [->|]; [reflexivity|].
  intros Hok; discriminate Hok.
Qed.

Lemma render_budget_from (H : Host) (E : TemplateEngine) (enough fuel : nat)
      templateName data (r : result jstr) :
  render H E enough templateName data = r ->
  r <> Stuck OutOfFuel ->
  enough <= fuel ->
  render H E fuel templateName data = r.
Proof.
  intros Hr Hne Hfuel.
  replace fuel with ((fuel - enough) + enough) by lia.
  rewrite render_budget; [exact Hr | rewrite Hr; exact Hne].
Qed.


Lemma guarded_chains_render (H : Host) (data : value) :
  forallb (guardedRenders H data 60) (List.seq 0 26) = true.
Proof. vm_compute. reflexivity. Qed.

Lemma guarded_chain_renders (H : Host) (data : value) (k : nat) :
  k <= 25 -> render H (guardedChainEngine k) 60 (js "c0") data = Ok (guardedText k).
Proof.
  intros Hk.
  assert (Hin : In k (List.seq 0 26)) by (apply in_seq; lia).
  assert (Hok : guardedRenders H data 60 k = true)
    by exact (proj1 (forallb_forall _ _) (guarded_chains_render H data) k Hin).
  revert Hok. unfold guardedRenders.
  destruct (render H (guardedChainEngine k) 60 (js "c0") data) as [s| |];
    try (intros Hok; discriminate Hok).
  destruct (jstr_eqb_spec s (guardedText k)) as [->|]; [reflexivity|].
  intros Hok; discriminate Hok.
Qed.



(** ** Includes and cycles *)

Lemma mapHas_mapGet {V} (k : jstr) (m : list (jstr * V)) :
  mapHas k m = true -> exists v, mapGet k m = Some v.
Proof.
  unfold mapHas. destruct (mapGet k m) as [v|]; [eauto | discriminate].
Qed.

(** C4, as stated, fails: the attributes of the include element are
    evaluated before the name is checked against the render stack.  The
    element of template [b] names [b], which is on the stack, and carries a
    malformed attribute expression: the expander raises the evaluation
    error, not the cyclic-include error. *)
Lemma C4_attributes_before_check_counterexample :
  pieces includeTagRegex (markup "<b v=`{{ )( }}`/>") = [Hit badIncludeHit] /\
  mapHas (normalizeName badAttributeEngine (group 1 badIncludeHit))
         (templateNameToRecord badAttributeEngine) = true /\
  includes [js "b"] (normalizeName badAttributeEngine (group 1 badIncludeHit)) = true /\
  includeCallback sampleHost badAttributeEngine
    (renderContent sampleHost badAttributeEngine 9) (obj []) [js "b"] 1 badIncludeHit
  = Throw (ExpressionEvaluationError (js ")(") SyntaxError) /\
  render sampleHost badAttributeEngine 9 (js "a") (obj [])
  = Throw (ExpressionEvaluationError (js ")(") SyntaxError).
Proof. repeat split; vm_compute; reflexivity. Qed.

(** C4, amended: for a self-closing element whose normalized tag name is
    registered and whose attributes evaluate without error, the expander
    checks the name against the render stack before it expands: a name on
    the stack raises the cyclic-include error with the chain stack plus
    name, whatever the renderer would do, and the message lists the chain;
    a name off the stack is expanded with the name appended to the stack.
    Template [a] whose source is [<a/>] raises CyclicInclude with the chain
    [a -> a]. *)
Theorem C4_cyclic_include_check (H : Host) (E : TemplateEngine) :
  (forall rc data renderStack depth h attributes,
      mapHas (normalizeName E (group 1 h)) (templateNameToRecord E) = true ->
      parseAttributes H (group 2 h) data = Ok attributes ->
      includes renderStack (normalizeName E (group 1 h)) = true ->
      includeCallback H E rc data renderStack depth h
      = Throw (CyclicInclude (renderStack ++ [normalizeName E (group 1 h)]))) /\
  (forall rc data renderStack depth h attributes record,
      mapGet (normalizeName E (group 1 h)) (templateNameToRecord E) = Some record ->
      parseAttributes H (group 2 h) data = Ok attributes ->
      includes renderStack (normalizeName E (group 1 h)) = false ->
      includeCallback H E rc data renderStack depth h
      = (rendered <- rc (content record)
                        (VObj ProtoObject (assign (ownProps data) attributes))
                        (renderStack ++ [normalizeName E (group 1 h)]) (depth + 1) ;;
         Ok (rendered, true))) /\
  (forall hostMessage chain,
      errorMessage hostMessage (CyclicInclude chain)
      = js "Cyclic include detected: " ++ join (js " -> ") chain) /\
  (forall data fuel,
      render H selfEngine (S (S fuel)) (js "a") data
      = Throw (CyclicInclude [js "a"; js "a"])) /\
  (forall hostMessage,
      errorMessage hostMessage (CyclicInclude [js "a"; js "a"])
      = js "Cyclic include detected: a -> a").
Proof.
  repeat match goal with |- _ /\ _ => split end.
  - intros rc data renderStack depth h attributes Hreg Hattrs Hstack.
    unfold includeCallback. rewrite Hreg; simpl. rewrite Hattrs; simpl.
    rewrite Hstack. reflexivity.
  - intros rc data renderStack depth h attributes record Hget Hattrs Hstack.
    unfold includeCallback, mapHas. rewrite Hget; simpl. rewrite Hattrs; simpl.
    rewrite Hstack. reflexivity.
  - reflexivity.
  - intros data fuel. vm_compute. reflexivity.
  - intros hostMessage. reflexivity.
Qed.

Lemma C4_cyclic_include_witness :
  includeCallback sampleHost selfEngine (renderContent sampleHost selfEngine 3)
    (obj []) [js "a"] 1 selfIncludeHit
  = Throw (CyclicInclude [js "a"; js "a"]) /\
  render sampleHost selfEngine 3 (js "a") (obj []) = Throw (CyclicInclude [js "a"; js "a"]).
Proof.
  destruct (C4_cyclic_include_check sampleHost selfEngine) as (Hcycle & _ & _ & Hself & _).
  split.
  - exact (Hcycle (renderContent sampleHost selfEngine 3) (obj []) [js "a"] 1
                  selfIncludeHit [] eq_refl eq_refl eq_refl).
  - apply Hself.
Defined.

(** ** Replacement leaves the text between the matches as it is *)

Lemma scan_restore (icase : bool) (r : regex) (s : jstr) :
  forall p skip, restore (scan icase r p s skip) = skipn skip s.
Proof.
  induction s as [|c s IH]; intros p skip.
  - destruct skip; simpl; [|reflexivity].
    unfold match_at. destruct (rmatch _ _ _ _) as [st|]; simpl.
    + rewrite firstn_nil. reflexivity.
    + reflexivity.
  - destruct skip as [|skip]; cbn [scan skipn].
    + unfold match_at. destruct (rmatch _ _ _ _) as [st|].
      * destruct (pos st) as [|n]; unfold restore; cbn [flat_map matched firstn app].
        -- fold (restore (scan icase r (Some c) s 0)). rewrite IH. reflexivity.
        -- fold (restore (scan icase r (Some c) s n)). rewrite IH.
           rewrite firstn_skipn. reflexivity.
      * unfold restore; cbn [flat_map app].
        fold (restore (scan icase r (Some c) s 0)). rewrite IH. reflexivity.
    + apply IH.
Qed.

Lemma pieces_restore (p : pattern) (s : jstr) : restore (pieces p s) = s.
Proof. unfold pieces. apply scan_restore. Qed.

Lemma restore_literals (l : jstr) : restore (List.map Lit l) = l.
Proof.
  induction l as [|c l IH]; [reflexivity|].
  change (restore (List.map Lit (c :: l))) with (c :: restore (List.map Lit l)).
  rewrite IH. reflexivity.
Qed.

Lemma substituteFlag_literals (f : hit -> result (jstr * bool)) (l : jstr) :
  substituteFlag f (List.map Lit l) = Ok (l, false).
Proof. induction l as [|c l IH]; simpl; [reflexivity | rewrite IH; reflexivity]. Qed.

(** One match between two stretches of text: the text before and after it
    stays and the match is replaced by what the callback returns. *)
Lemma replaceFlag_single (p : pattern) (f : hit -> result (jstr * bool))
      (html before after : jstr) (h : hit) :
  pieces p html = List.map Lit before ++ Hit h :: List.map Lit after ->
  html = before ++ matched h ++ after /\
  replaceFlag p html f
  = bind (f h) (fun xd => Ok (before ++ fst xd ++ after, snd xd)).
Proof.
  intros Hp. split.
  - rewrite <- (pieces_restore p html), Hp. unfold restore.
    rewrite flat_map_app. cbn [flat_map].
    fold (restore (List.map Lit before)). fold (restore (List.map Lit after)).
    rewrite !restore_literals. reflexivity.
  - unfold replaceFlag. rewrite Hp. clear Hp.
    induction before as [|c before IH]; simpl.
    + rewrite substituteFlag_literals. destruct (f h) as [[x d]| |]; simpl;
        [rewrite orb_false_r|..]; reflexivity.
    + rewrite IH. destruct (f h) as [[x d]| |]; reflexivity.
Qed.

(** ** The loop pass *)

Lemma loopPieces_rows (rc : pass) data renderStack depth alias inner openTag closingTag
      (bodies : nat -> jstr) (rows : list value) (index : nat) :
  (forall i row, nth_error rows i = Some row ->
     rc inner (childData data alias row (index + i)) renderStack (depth + 1)
     = Ok (bodies (index + i))) ->
  loopPieces rc data renderStack depth alias inner openTag closingTag rows index
  = Ok (concat (List.map (fun i => openTag ++ bodies i ++ closingTag)
                         (List.seq index (length rows)))).
Proof.
  revert index; induction rows as [|row rows IH]; intros index Hbodies; simpl.
  - reflexivity.
  - generalize (Hbodies 0 row eq_refl). rewrite Nat.add_0_r. intros ->. simpl.
    rewrite IH; [reflexivity|].
    intros i r Hi. replace (S index + i) with (index + S i) by lia.
    apply Hbodies. exact Hi.
Qed.



(** ** Escaping *)

(** Replacing every occurrence of one code unit. *)
Lemma replaceAll_literal (x : jschar) (t s : jstr) :
  replaceAll (global (RLit x)) s t
  = flat_map (fun c => if N.eqb c x then t else [c]) s.
Proof.
  unfold replaceAll, pieces; simpl.
  generalize (@None jschar) as p.
  induction s as [|c s IH]; intros p.
  - reflexivity.
  - cbn [scan flat_map]. unfold match_at. cbn [rmatch step rest canon andb].
    destruct (N.eqb c x); cbn.
    + rewrite IH. reflexivity.
    + rewrite IH. reflexivity.
Qed.

Lemma escapeHtml_flat_map (s : jstr) :
  escapeHtml s
  = flat_map (fun c => if N.eqb c 62 then js "&gt;" else [c])
      (flat_map (fun c => if N.eqb c 60 then js "&lt;" else [c])
         (flat_map (fun c => if N.eqb c 39 then js "&#39;" else [c])
            (flat_map (fun c => if N.eqb c 34 then js "&quot;" else [c])
               (flat_map (fun c => if N.eqb c 38 then js "&amp;" else [c]) s)))).
Proof.
  unfold escapeHtml.
  change (text "&") with (RLit 38).
  change (text "'") with (RLit 39).
  change (text "<") with (RLit 60).
  change (text ">") with (RLit 62).
  rewrite !replaceAll_literal. reflexivity.
Qed.

(** The five replacements in the order of the source amount to one pass
    that maps each code unit to its entity. *)
Lemma escapeHtml_escapeChar (s : jstr) : escapeHtml s = flat_map escapeChar s.
Proof.
  rewrite escapeHtml_flat_map.
  induction s as [|c s IH]; [reflexivity|].
  assert (Hcons : forall (f : jschar -> jstr) x l, flat_map f (x :: l) = f x ++ flat_map f l)
    by reflexivity.
  rewrite !Hcons, !flat_map_app. apply f_equal2; [|exact IH].
  unfold escapeChar.
  destruct (N.eqb_spec c 38) as [->|H38]; [reflexivity|].
  cbn [flat_map app].
  destruct (N.eqb_spec c 34) as [->|H34]; [reflexivity|].
  cbn [flat_map app].
  destruct (N.eqb_spec c 39) as [->|H39]; [reflexivity|].
  cbn [flat_map app].
  destruct (N.eqb_spec c 60) as [->|H60]; [reflexivity|].
  cbn [flat_map app].
  destruct (N.eqb_spec c 62) as [->|H62]; reflexivity.
Qed.

(** C6 on the code: the value of a double-delimited interpolation is
    stringified and escaped by the five replacements of [escapeHtml], in the
    order [&], the double quote, the single quote, [<], [>], which together
    map each code unit to its entity once (no entity is escaped again); an
    absent or null value gives the empty string; the raw form substitutes
    the same text unescaped.  [{{ v }}] with [v] the text [<b>] yields
    [&lt;b&gt;] and [{{{ v }}}] yields [<b>]; a number prints its digits, a
    boolean its name, an array its elements joined by commas and a plain
    object [[object Object]].  But the text substituted in the body of an
    element with a directive is interpolated again by the render around it:
    in [<p x-if=Q ok Q>{{ v }}</p>], with [v] the text of a raw
    interpolation of [w] and [w] the text [<script>], the escaped text of
    [v] is evaluated and the output holds [<script>] unescaped. *)
Theorem C6_escaped_interpolation (H : Host) :
  (forall s, escapeHtml s = flat_map escapeChar s) /\
  (forall data h v s,
      safeEval H (group 1 h) data = Ok v ->
      isNullish v = false ->
      toString v = Ok s ->
      mustacheCallback H data h = Ok (escapeHtml s) /\
      rawCallback H data h = Ok s) /\
  (forall data h v,
      safeEval H (group 1 h) data = Ok v ->
      isNullish v = true ->
      mustacheCallback H data h = Ok [] /\ rawCallback H data h = Ok []) /\
  escapeHtml (markup "a&b `c` 'd' <e> &lt;")
  = js "a&amp;b &quot;c&quot; &#39;d&#39; &lt;e&gt; &amp;lt;" /\
  (forall fuel,
      render H pageEngine (S fuel) (js "escaped") (obj [("v", str "<b>")]%string)
      = Ok (js "&lt;b&gt;")) /\
  (forall fuel,
      render H pageEngine (S fuel) (js "raw") (obj [("v", str "<b>")]%string)
      = Ok (js "<b>")) /\
  (forall fuel,
      render H pageEngine (S fuel) (js "escaped") (obj [("v", VNull)]%string) = Ok []) /\
  (forall fuel,
      List.map (fun v => render H pageEngine (S fuel) (js "escaped") (obj [("v", v)]%string))
               [VNum 7; VNum (-12); VNum NegZero; VNum NaN; VNum (Infinity true);
                VBool true; VBool false;
                VArr [VNum 1; VNull; VArr [VNum 2; str "<"]; VUndef]; obj []]
      = List.map (fun s => Ok (js s))
                 ["7"; "-12"; "0"; "NaN"; "-Infinity"; "true"; "false"; "1,,2,&lt;,";
                  "[object Object]"]%string) /\
  (forall fuel,
      render H pageEngine (S fuel) (js "escaped")
        (obj [("v", str "{{{ w }}}"); ("w", str "<script>")]%string)
      = Ok (js "{{{ w }}}")) /\
  (forall fuel,
      render H shopEngine (S (S fuel)) (js "guard")
        (obj [("ok", VBool true); ("v", str "{{{ w }}}"); ("w", str "<script>")]%string)
      = Ok (js "<p><script></p>")).
Proof.
  repeat match goal with |- _ /\ _ => split end.
  - apply escapeHtml_escapeChar.
  - intros data h v s Heval Hv Hs. unfold mustacheCallback, rawCallback, stringOf.
    rewrite Heval; simpl. rewrite Hv, Hs. split; reflexivity.
  - intros data h v Heval Hv. unfold mustacheCallback, rawCallback.
    rewrite Heval; simpl. rewrite Hv. split; reflexivity.
  - vm_compute. reflexivity.
  - intros fuel. vm_compute. reflexivity.
  - intros fuel. vm_compute. reflexivity.
  - intros fuel. vm_compute. reflexivity.
  - intros fuel. vm_compute. reflexivity.
  - intros fuel. vm_compute. reflexivity.
  - intros fuel. vm_compute. reflexivity.
Qed.

Lemma C6_escaped_interpolation_witness :
  mustacheCallback sampleHost (obj [("v", str "<b>")]%string)
    {| matched := js "{{ v }}"; groups := [(1, js "v")] |} = Ok (js "&lt;b&gt;") /\
  rawCallback sampleHost (obj [("v", str "<b>")]%string)
    {| matched := js "{{{ v }}}"; groups := [(1, js "v")] |} = Ok (js "<b>") /\
  mustacheCallback sampleHost (obj [("v", VNull)]%string)
    {| matched := js "{{ v }}"; groups := [(1, js "v")] |} = Ok [].
Proof.
  destruct (C6_escaped_interpolation sampleHost) as (_ & Hvalue & Hnull & _).
  repeat match goal with |- _ /\ _ => split end.
  - apply (Hvalue (obj [("v", str "<b>")]%string)
                  {| matched := js "{{ v }}"; groups := [(1, js "v")] |}
                  (str "<b>") (js "<b>")); reflexivity.
  - apply (Hvalue (obj [("v", str "<b>")]%string)
                  {| matched := js "{{{ v }}}"; groups := [(1, js "v")] |}
                  (str "<b>") (js "<b>")); reflexivity.
  - apply (Hnull (obj [("v", VNull)]%string)
                 {| matched := js "{{ v }}"; groups := [(1, js "v")] |} VNull); reflexivity.
Defined.

(** ** The interpolation pass and substituted values *)

(** C7 on the code: the text a triple-delimited expression substitutes is
    scanned again by the double-delimited sub-pass.  With [v] the text
    [{{ x }}] and [x] the text [boo], the first sub-pass yields the text of
    [v] and the second evaluates it: [{{{ v }}}] yields [boo]. *)
Theorem C7_substituted_text_is_rescanned (H : Host) :
  (forall html data,
      interpolate H html data
      = (html1 <- replaceWith tripleRegex html (rawCallback H data) ;;
         replaceWith mustacheRegex html1 (mustacheCallback H data))) /\
  replaceWith tripleRegex (js "{{{ v }}}")
    (rawCallback H (obj [("v", str "{{ x }}"); ("x", str "boo")]%string))
  = Ok (js "{{ x }}") /\
  interpolate H (js "{{{ v }}}") (obj [("v", str "{{ x }}"); ("x", str "boo")]%string)
  = Ok (js "boo") /\
  (forall fuel,
      render H pageEngine (S fuel) (js "raw")
        (obj [("v", str "{{ x }}"); ("x", str "boo")]%string)
      = Ok (js "boo")).
Proof.
  repeat match goal with |- _ /\ _ => split end.
  - reflexivity.
  - vm_compute. reflexivity.
  - vm_compute. reflexivity.
  - intros fuel. vm_compute. reflexivity.
Qed.

(** ** Layouts *)


(** ** Reloading the registry *)

Lemma applySets_app (s1 s2 : list (jstr * TemplateRecord)) (st : store) :
  applySets (s1 ++ s2) st = applySets s2 (applySets s1 st).
Proof.
  revert st; induction s1 as [|[k r] s1 IH]; intros st; simpl; [reflexivity | apply IH].
Qed.

Lemma current_applySets (sets : list (jstr * TemplateRecord)) (m : registry) (st : store) :
  current (applySets sets (m :: st))
  = fold_left (fun m kr => mapSet (fst kr) (snd kr) m) sets m.
Proof.
  revert m st; induction sets as [|[k r] sets IH]; intros m st; simpl; [reflexivity|].
  unfold mutate; simpl. apply IH.
Qed.

Lemma scripted_skip : scripted (fun st => (st, Ok tt)).
Proof. exists [], (Ok tt). reflexivity. Qed.

Lemma scripted_throw (e : error) : scripted (fun st => (st, Throw e)).
Proof. exists [], (Throw e). reflexivity. Qed.

(** Two steps in sequence, the second run only when the first returned. *)
Lemma scripted_then (f g : store -> store * result unit) :
  scripted f -> scripted g ->
  scripted (fun st => match f st with
                      | (st', Ok _) => g st'
                      | (st', Throw e) => (st', Throw e)
                      | (st', Stuck w) => (st', Stuck w)
                      end).
Proof.
  intros (sf & rf & Hf) (sg & rg & Hg).
  destruct rf as [[]|e|w].
  - exists (sf ++ sg), rg. intros st. rewrite Hf, Hg, applySets_app. reflexivity.
  - exists sf, (Throw e). intros st. rewrite Hf. reflexivity.
  - exists sf, (Stuck w). intros st. rewrite Hf. reflexivity.
Qed.

Lemma scanFile_scripted (F : NodeFs) (E : TemplateEngine) fullPath entryName raw :
  scripted (scanFile F E fullPath entryName raw).
Proof.
  unfold scanFile.
  destruct (negb _); [apply scripted_skip|].
  destruct raw as [raw|]; [|apply scripted_throw].
  eexists [(_, _)], (Ok tt). intros st. reflexivity.
Qed.

Lemma scanEntry_scripted (F : NodeFs) (E : TemplateEngine) (node : fsNode) :
  forall directory entryName, scripted (scanEntry F E directory entryName node).
Proof.
  revert node. fix IH 1. intros [raw|entries] directory entryName.
  - apply scanFile_scripted.
  - cbn [scanEntry].
    generalize (pathJoin F directory entryName) as fullPath. intros fullPath.
    revert entries. fix IHes 1. intros [|[n sub] es].
    + apply scripted_skip.
    + apply (scripted_then (IH sub fullPath n) (IHes es)).
Qed.

Lemma scanEntries_scripted (F : NodeFs) (E : TemplateEngine) directory es :
  scripted (scanEntries F E directory es).
Proof.
  induction es as [|[n sub] es IH].
  - apply scripted_skip.
  - apply (scripted_then (scanEntry_scripted F E sub directory n) IH).
Qed.

Lemma scanDirectories_scripted (F : NodeFs) (E : TemplateEngine) dirs :
  scripted (scanDirectories F E dirs).
Proof.
  induction dirs as [|directory dirs IH].
  - apply scripted_skip.
  - apply scripted_then; [|exact IH].
    unfold scanDirectory.
    destruct (lookupPath F directory) as [[raw|entries]|].
    + apply scripted_throw.
    + apply scanEntries_scripted.
    + apply scripted_skip.
Qed.

(** C9, as stated, fails: [reload] empties the live map first and then
    registers the scanned templates into it one at a time.  With two
    template files the live map is, in turn, the old set, empty, half
    rebuilt and rebuilt; and when the second file cannot be read the call
    throws and leaves the half-rebuilt set, in which [a] is the new template
    and [b] is gone. *)
Lemma C9_reload_in_place_counterexample :
  reload (sampleFs (Some (js "<p>new b</p>"))) (engineOf oldRegistry)
  = ([newRegistry; halfRegistry; []; oldRegistry], Ok tt) /\
  halfRegistry <> oldRegistry /\ halfRegistry <> newRegistry /\
  reload (sampleFs None) (engineOf oldRegistry)
  = ([halfRegistry; []; oldRegistry], Throw (HostError SystemError)) /\
  render sampleHost (reloaded (sampleFs None) (engineOf oldRegistry)) 9 (js "a") (obj [])
  = Ok (js "<p>new a</p>") /\
  render sampleHost (reloaded (sampleFs None) (engineOf oldRegistry)) 9 (js "b") (obj [])
  = Throw (TemplateNotFound (js "b")).
Proof.
  repeat match goal with |- _ /\ _ => split end;
    try (vm_compute; reflexivity); vm_compute; discriminate.
Qed.

(** C9, amended: [reload] is a clearing of the live record set followed by
    a sequence of [set] calls that the file system and the configuration
    determine, one live state per call; the sequence and the way the call
    ends do not depend on the record set held before, so a reload that
    returns leaves exactly the rescanned set. *)
Theorem C9_reload_clears_then_sets (F : NodeFs) (E : TemplateEngine) :
  exists sets outcome,
    forall old,
      reload F (withRegistry E old) = (applySets sets [[]; old], outcome) /\
      templateNameToRecord (reloaded F (withRegistry E old))
      = fold_left (fun m kr => mapSet (fst kr) (snd kr) m) sets [].
Proof.
  destruct (scanDirectories_scripted F E (directories E)) as (sets & outcome & Hscan).
  exists sets, outcome. intros old.
  assert (Hreload : reload F (withRegistry E old) = (applySets sets [[]; old], outcome))
    by (exact (Hscan [[]; old])).
  split; [exact Hreload|].
  unfold reloaded; simpl. rewrite Hreload; simpl.
  apply current_applySets.
Qed.

(** ** Data that is not an object *)

(** C10, as stated, fails in its last clause: with the number 5 as data the
    root scope is the single binding [$root], but the identifier [Object]
    resolves to the built-in of the global object, and a name some module
    stored on [globalThis] resolves to that value. *)
Lemma C10_other_identifiers_reach_globals_counterexample :
  isPrimitive (VNum 5) = true /\
  createRootDataProxy (VNum 5) = VObj ProtoNull [(js "$root", VNum 5)] /\
  safeEval sampleHost (js "Object") (createRootDataProxy (VNum 5))
  = Ok (VFun (js "Object")) /\
  render sampleHost pageEngine 9 (js "global") (VNum 5)
  = Ok (js "function Object() { [native code] }") /\
  render taintedHost pageEngine 9 (js "leak") (VNum 5) = Ok (js "<p>leaked</p>").
Proof. repeat split; vm_compute; reflexivity. Qed.

Lemma interpolate_root (H : Host) (scope : value) :
  interpolate H (js "{{ $root }}") scope
  = (x <- mustacheCallback H scope
            {| matched := js "{{ $root }}"; groups := [(1, js "$root")] |} ;;
     Ok (x ++ [])).
Proof.
  unfold interpolate, replaceWith.
  replace (pieces tripleRegex (js "{{ $root }}")) with (List.map Lit (js "{{ $root }}"))
    by (vm_compute; reflexivity).
  change (substitute (rawCallback H scope) (List.map Lit (js "{{ $root }}")))
    with (@Ok error jstr (js "{{ $root }}")).
  cbn [bind].
  replace (pieces mustacheRegex (js "{{ $root }}"))
    with [Hit {| matched := js "{{ $root }}"; groups := [(1, js "$root")] |}]
    by (vm_compute; reflexivity).
  reflexivity.
Qed.

(** C10, amended: for data that is null, undefined, a number, a string or a
    boolean, building the root scope does not fail and gives exactly the
    binding [$root], equal to the data, with no flattened bindings; [render]
    runs the template against that scope; [{{ $root }}] interpolates the
    value (the empty string for null and undefined); every other identifier
    resolves to what the global object holds under that name, and as absent
    when the global object has no such name. *)
Theorem C10_primitive_data_root_scope (H : Host) (E : TemplateEngine) (data : value) :
  isPrimitive data = true ->
  createRootDataProxy data = VObj ProtoNull [(js "$root", data)] /\
  (forall fuel templateName record,
      mapGet (normalizeName E templateName) (templateNameToRecord E) = Some record ->
      render H E fuel templateName data
      = renderContent H E fuel (content record) (VObj ProtoNull [(js "$root", data)]) [] 0) /\
  safeEval H (js "$root") (createRootDataProxy data) = Ok data /\
  interpolate H (js "{{ $root }}") (createRootDataProxy data)
  = (if isNullish data then Ok [] else s <- stringOf data ;; Ok (escapeHtml s)) /\
  (forall s, toString data = Ok s ->
             interpolate H (js "{{ $root }}") (createRootDataProxy data)
             = Ok (if isNullish data then [] else escapeHtml s)) /\
  ((forall n, data = VNum n -> exists s, numberToString n = Ok s) ->
   exists s, toString data = Ok s) /\
  (forall x, x <> js "$root" ->
      scopeGet H (createRootDataProxy data) x
      = Ok (match lookupGlobal H x with Some v => v | None => VUndef end)) /\
  (forall x, x <> js "$root" -> lookupGlobal H x = None ->
      scopeGet H (createRootDataProxy data) x = Ok VUndef).
Proof.
  intros Hprim.
  assert (Hctx : createRootDataProxy data = VObj ProtoNull [(js "$root", data)])
    by (destruct data; try discriminate Hprim; reflexivity).
  assert (Hother : forall x, x <> js "$root" ->
            scopeGet H (createRootDataProxy data) x
            = Ok (match lookupGlobal H x with Some v => v | None => VUndef end)).
  { intros x Hx. rewrite Hctx. unfold scopeGet; simpl.
    rewrite (jstr_eqb_neq Hx); simpl. destruct (lookupGlobal H x); reflexivity. }
  assert (Hinterp : interpolate H (js "{{ $root }}") (createRootDataProxy data)
                    = (if isNullish data then Ok []
                       else s <- stringOf data ;; Ok (escapeHtml s))).
  { rewrite Hctx, interpolate_root. unfold mustacheCallback.
    replace (safeEval H (group 1 {| matched := js "{{ $root }}";
                                    groups := [(1, js "$root")] |})
                      (VObj ProtoNull [(js "$root", data)]))
      with (@Ok error value data) by reflexivity.
    cbn [bind].
    destruct (isNullish data); [reflexivity|].
    destruct (stringOf data) as [s| |]; simpl; [rewrite app_nil_r|..]; reflexivity. }
  repeat match goal with |- _ /\ _ => split end.
  - exact Hctx.
  - intros fuel templateName record Hget. unfold render. rewrite Hget, Hctx. reflexivity.
  - rewrite Hctx. reflexivity.
  - exact Hinterp.
  - intros s Hs. rewrite Hinterp. unfold stringOf. rewrite Hs.
    destruct (isNullish data); reflexivity.
  - intros Hnumber.
    destruct data as [| |b|n|s| | |]; try discriminate Hprim.
    + exists (js "undefined"). reflexivity.
    + exists (js "null"). reflexivity.
    + exists (if b then js "true" else js "false"). destruct b; reflexivity.
    + exact (Hnumber n eq_refl).
    + exists s. reflexivity.
  - exact Hother.
  - intros x Hx Hglobal. rewrite (Hother x Hx), Hglobal. reflexivity.
Qed.

Lemma C10_primitive_data_witness :
  createRootDataProxy (VNum 5) = VObj ProtoNull [(js "$root", VNum 5)] /\
  safeEval sampleHost (js "$root") (createRootDataProxy (VNum 5)) = Ok (VNum 5) /\
  scopeGet sampleHost (createRootDataProxy (VNum 5)) (js "nope") = Ok VUndef /\
  render sampleHost pageEngine 9 (js "root") (VNum 5)
  = renderContent sampleHost pageEngine 9 (js "{{ $root }}")
      (VObj ProtoNull [(js "$root", VNum 5)]) [] 0.
Proof.
  destruct (C10_primitive_data_root_scope sampleHost pageEngine (VNum 5) eq_refl)
    as (Hctx & Hrender & Hroot & _ & _ & _ & _ & Habsent).
  repeat match goal with |- _ /\ _ => split end.
  - exact Hctx.
  - exact Hroot.
  - apply Habsent; [discriminate | reflexivity].
  - exact (Hrender 9 (js "root") _ eq_refl).
Defined.

(** * Termination

    Every budget-bounded definition of the model has budget enough: for
    every engine, template and data [render] returns, with a result, an
    exception of the engine or of the host, or an expression the model does
    not read. *)

(** ** The parser

    A budget of ten calls for each token is enough for every function of
    the parser, and a function that reads an operand takes a token. *)
Lemma parser_budget (n : nat) :
  (forall ts, 10 * length ts + 10 <= n -> consumes true ts (parseCond n ts)) /\
  (forall ts, 10 * length ts + 9 <= n -> consumes true ts (parseOr n ts)) /\
  (forall lhs ts, 10 * length ts + 1 <= n -> consumes false ts (parseOrRest n lhs ts)) /\
  (forall ts, 10 * length ts + 8 <= n -> consumes true ts (parseAnd n ts)) /\
  (forall lhs ts, 10 * length ts + 1 <= n -> consumes false ts (parseAndRest n lhs ts)) /\
  (forall level ts, 10 * length ts + 3 + (4 - level) <= n ->
                    consumes true ts (parseBinary n level ts)) /\
  (forall level lhs ts, 10 * length ts + 1 <= n ->
                        consumes false ts (parseBinaryRest n level lhs ts)) /\
  (forall ts, 10 * length ts + 2 <= n -> consumes true ts (parseUnary n ts)) /\
  (forall ts, 10 * length ts + 1 <= n -> consumes true ts (parsePrimary n ts)) /\
  (forall e ts, 10 * length ts + 1 <= n -> consumes false ts (parsePostfix n e ts)).
Proof.
  induction n as [|n (IHcond & IHor & IHorRest & IHand & IHandRest & IHbin & IHbinRest
                      & IHunary & IHprimary & IHpostfix)].
  - repeat split; intros; lia.
  - repeat split.
    + intros ts Hn. cbn [parseCond].
      budget_call (IHor ts ltac:(lia)) c r1 H1.
      destruct r1 as [|t r1]; [simpl in *; lia|].
      destruct t; try (simpl in *; lia).
      budget_call (IHcond r1 ltac:(simpl in *; lia)) a r2 H2.
      unfold expect. destruct r2 as [|t r2]; [exact I|].
      destruct (isColon t); [cbn [andThen]|exact I].
      budget_call (IHcond r2 ltac:(simpl in *; lia)) b r3 H3.
      simpl in *. lia.
    + intros ts Hn. cbn [parseOr].
      budget_call (IHand ts ltac:(lia)) a r1 H1.
      budget_call (IHorRest a r1 ltac:(lia)) b r2 H2.
      simpl in *. lia.
    + intros lhs ts Hn. cbn [parseOrRest].
      destruct ts as [|t ts']; [simpl; lia|].
      destruct t; try (simpl; lia).
      budget_call (IHand ts' ltac:(simpl in Hn; lia)) a r1 H1.
      budget_call (IHorRest (EOr lhs a) r1 ltac:(simpl in Hn; lia)) b r2 H2.
      simpl in *. lia.
    + intros ts Hn. cbn [parseAnd].
      budget_call (IHbin 0 ts ltac:(lia)) a r1 H1.
      budget_call (IHandRest a r1 ltac:(lia)) b r2 H2.
      simpl in *. lia.
    + intros lhs ts Hn. cbn [parseAndRest].
      destruct ts as [|t ts']; [simpl; lia|].
      destruct t; try (simpl; lia).
      budget_call (IHbin 0 ts' ltac:(cbn [length] in Hn; lia)) a r1 H1.
      budget_call (IHandRest (EAnd lhs a) r1 ltac:(simpl in Hn; lia)) b r2 H2.
      simpl in *. lia.
    + intros level ts Hn. cbn [parseBinary].
      destruct (Nat.leb_spec 4 level) as [Hl|Hl].
      * budget_call (IHunary ts ltac:(lia)) a r1 H1. simpl. exact H1.
      * budget_call (IHbin (S level) ts ltac:(lia)) a r1 H1.
        budget_call (IHbinRest level a r1 ltac:(lia)) b r2 H2.
        simpl in *. lia.
    + intros level lhs ts Hn. cbn [parseBinaryRest].
      destruct ts as [|t ts']; [simpl; lia|].
      destruct t; try (simpl; lia).
      destruct (Nat.eqb (levelOf op) level); [|simpl; lia].
      budget_call (IHbin (S level) ts' ltac:(cbn [length] in Hn; lia)) a r1 H1.
      budget_call (IHbinRest level (EBinary op lhs a) r1 ltac:(simpl in Hn; lia)) b r2 H2.
      simpl in *. lia.
    + intros ts Hn. cbn [parseUnary].
      assert (Hplain :
                consumes true ts
                  (andThen (parsePrimary n ts) (fun e r => parsePostfix n e r))).
      { budget_call (IHprimary ts ltac:(lia)) a r1 H1.
        budget_call (IHpostfix a r1 ltac:(lia)) b r2 H2.
        simpl in *. lia. }
      assert (Hprefix : forall ts' (f : expr -> expr),
                length ts = S (length ts') ->
                consumes true ts
                  (andThen (parseUnary n ts') (fun e r => Parsed (f e) r))).
      { intros ts' f Hlen.
        budget_call (IHunary ts' ltac:(lia)) a r1 H1. simpl in *. lia. }
      destruct ts as [|t ts']; [exact Hplain|].
      destruct t; try exact Hplain.
      * apply Hprefix. reflexivity.
      * destruct op; try exact Hplain; apply Hprefix; reflexivity.
    + intros ts Hn. cbn [parsePrimary].
      destruct ts as [|t ts']; [exact I|].
      destruct t; try (simpl; lia); try exact I.
      budget_call (IHcond ts' ltac:(simpl in Hn; lia)) a r1 H1.
      unfold expect. destruct r1 as [|t r1]; [exact I|].
      destruct (isRParen t); [|exact I]. simpl in *. lia.
    + intros e ts Hn. cbn [parsePostfix].
      assert (Hnext : forall e' ts', length ts' < length ts ->
                consumes false ts (parsePostfix n e' ts')).
      { intros e' ts' Hlt.
        budget_call (IHpostfix e' ts' ltac:(lia)) a r1 H1. simpl in *. lia. }
      assert (Hinner : forall ts' (close : token -> bool) (f : expr -> expr),
                length ts = S (length ts') ->
                consumes false ts
                  (andThen (parseCond n ts') (fun a r =>
                     andThen (expect close a r) (fun a r' =>
                       parsePostfix n (f a) r')))).
      { intros ts' close f Hlen.
        budget_call (IHcond ts' ltac:(lia)) a r1 H1.
        unfold expect. destruct r1 as [|t r1]; [exact I|].
        destruct (close t); [cbn [andThen]|exact I].
        budget_call (IHpostfix (f a) r1 ltac:(simpl in *; lia)) b r2 H2.
        simpl in *. lia. }
      destruct ts as [|t ts']; [simpl; lia|].
      destruct t; try (simpl; lia).
      * destruct ts' as [|t ts'']; [exact I|].
        destruct t; try exact I.
        -- apply Hnext. simpl. lia.
        -- destruct v as [| |[|]| | | | |]; try exact I; apply Hnext; simpl; lia.
      * destruct ts' as [|t ts''];
          [exact (Hinner [] isRParen (fun a => ECall e (Some a)) eq_refl)|].
        destruct t;
          try exact (Hinner (_ :: ts'') isRParen (fun a => ECall e (Some a)) eq_refl).
        apply Hnext. simpl. lia.
      * exact (Hinner ts' isRBracket (fun k => EIndex e k) eq_refl).
Qed.

Lemma parseCond_budget (ts : list token) : parseCond (10 * S (length ts)) ts <> NoBudget.
Proof.
  intros Heq.
  pose proof (proj1 (parser_budget (10 * S (length ts))) ts ltac:(lia)) as Hc.
  rewrite Heq in Hc. exact Hc.
Qed.

(** ** What needs no budget

    Evaluation, interpolation and attribute parsing are structural: they
    never run out. *)
Lemma inBudget_bind {X A B} (m : outcome X A) (k : A -> outcome X B) :
  inBudget m -> (forall a, m = Ok a -> inBudget (k a)) -> inBudget (bind m k).
Proof.
  unfold inBudget. destruct m as [a|e|w]; simpl; intros Hm Hk.
  - apply Hk. reflexivity.
  - discriminate.
  - intros Heq. apply Hm. congruence.
Qed.

Lemma inBudget_catchWith {X Y A} (h : X -> Y) (m : outcome X A) :
  inBudget m -> inBudget (catchWith h m).
Proof. unfold inBudget. destruct m; simpl; congruence. Qed.

Lemma toString_inBudget (v : value) : inBudget (toString v).
Proof.
  revert v. fix IH 1. intros v.
  destruct v as [| |[|]|n|s|items|[|] ps|name]; simpl; try discriminate.
  - destruct n as [z|negative m e| |[|]|]; simpl; try discriminate.
    destruct (safeInteger z); discriminate.
  - induction items as [|x items IHitems]; [discriminate|].
    apply inBudget_bind.
    + destruct (isNullish x); [discriminate | apply IH].
    + intros s _. destruct items as [|y items']; [discriminate|].
      apply inBudget_bind; [exact IHitems | intros r _; discriminate].
  - destruct (_ || _); discriminate.
  - destruct (_ || _); discriminate.
Qed.

Lemma lookupProperty_inBudget (H : Host) (o : value) (k : jstr) :
  inBudget (lookupProperty H o k).
Proof. destruct o as [| | | | | |[|]|]; simpl; discriminate. Qed.

Lemma modelled_inBudget {A} (o : option A) : inBudget (modelled o).
Proof. destruct o; discriminate. Qed.

Lemma applyBinary_inBudget (op : binop) (a b : value) : inBudget (applyBinary op a b).
Proof.
  destruct op; simpl;
    try (apply inBudget_bind; [apply modelled_inBudget | intros r _; discriminate]);
    try (apply inBudget_bind; [apply modelled_inBudget | intros x _];
         apply inBudget_bind; [apply modelled_inBudget | intros y _];
         apply inBudget_bind; [apply modelled_inBudget | intros n _; discriminate]).
  unfold addValues. destruct (_ || _); [discriminate|].
  assert (Hjoin : inBudget (x <- toString a ;; y <- toString b ;; Ok (VStr (x ++ y)))).
  { apply inBudget_bind; [apply toString_inBudget | intros x _].
    apply inBudget_bind; [apply toString_inBudget | intros y _; discriminate]. }
  assert (Hsum : inBudget (x <- modelled (toNumber a) ;; y <- modelled (toNumber b) ;;
                           n <- modelled (numberAdd x y) ;; Ok (VNum n))).
  { apply inBudget_bind; [apply modelled_inBudget | intros x _].
    apply inBudget_bind; [apply modelled_inBudget | intros y _].
    apply inBudget_bind; [apply modelled_inBudget | intros n _; discriminate]. }
  destruct a, b; first [exact Hjoin | exact Hsum].
Qed.

Lemma eval_inBudget (H : Host) (scope : value) (fn : expr) : inBudget (eval H scope fn).
Proof.
  revert fn. fix IH 1. intros fn.
  destruct fn as [x|v|e k|f arg|e|a b|a b|e k|e|e|op a b|c a b]; simpl.
  - unfold scopeGet. apply inBudget_bind; [apply lookupProperty_inBudget|].
    intros [v|] _; [discriminate|]. destruct (lookupGlobal H x); discriminate.
  - discriminate.
  - apply inBudget_bind; [apply IH | intros o _].
    apply inBudget_bind; [apply lookupProperty_inBudget | intros p _; discriminate].
  - apply inBudget_bind; [apply IH | intros fv _].
    apply inBudget_bind.
    + destruct arg as [a|]; [apply IH | discriminate].
    + intros _ _. destruct fv; discriminate.
  - apply inBudget_bind; [apply IH | intros v _; discriminate].
  - apply inBudget_bind; [apply IH | intros v _].
    destruct (toBoolean v); [apply IH | discriminate].
  - apply inBudget_bind; [apply IH | intros v _].
    destruct (toBoolean v); [discriminate | apply IH].
  - apply inBudget_bind; [apply IH | intros o _].
    apply inBudget_bind; [apply IH | intros kv _].
    apply inBudget_bind; [apply toString_inBudget | intros key _].
    apply inBudget_bind; [apply lookupProperty_inBudget | intros p _; discriminate].
  - apply inBudget_bind; [apply IH | intros v _].
    apply inBudget_bind; [apply modelled_inBudget | intros n _; discriminate].
  - apply inBudget_bind; [apply IH | intros v _].
    apply inBudget_bind; [apply modelled_inBudget | intros n _; discriminate].
  - apply inBudget_bind; [apply IH | intros x _].
    apply inBudget_bind; [apply IH | intros y _]. apply applyBinary_inBudget.
  - apply inBudget_bind; [apply IH | intros v _].
    destruct (toBoolean v); apply IH.
Qed.

Lemma safeEval_inBudget (H : Host) (expression : jstr) (data : value) :
  inBudget (safeEval H expression data).
Proof.
  unfold safeEval. apply inBudget_catchWith.
  apply inBudget_bind.
  - unfold newFunction. destruct (lex _ _) as [ts|]; [|discriminate].
    pose proof (@parseCond_budget (TLParen :: ts ++ [TRParen])) as Hbudget.
    cbv zeta. destruct (parseCond _ _) as [e [|t rest]| | |]; try discriminate.
    exfalso. apply Hbudget. reflexivity.
  - intros fn _. apply inBudget_bind.
    + destruct data; discriminate.
    + intros scope _. apply eval_inBudget.
Qed.

Lemma substitute_inBudget {X} (f : hit -> outcome X jstr) (l : list piece) :
  (forall h, inBudget (f h)) -> inBudget (substitute f l).
Proof.
  intros Hf; induction l as [|[c|h] l IH]; simpl.
  - discriminate.
  - apply inBudget_bind; [exact IH | intros r _; discriminate].
  - apply inBudget_bind; [apply Hf | intros x _].
    apply inBudget_bind; [exact IH | intros r _; discriminate].
Qed.

Lemma interpolate_inBudget (H : Host) (html : jstr) (data : value) :
  inBudget (interpolate H html data).
Proof.
  unfold interpolate, replaceWith.
  apply inBudget_bind.
  - apply substitute_inBudget. intros h. unfold rawCallback.
    apply inBudget_bind; [apply safeEval_inBudget | intros v _].
    destruct (isNullish v); [discriminate|].
    apply inBudget_catchWith, toString_inBudget.
  - intros html1 _. apply substitute_inBudget. intros h. unfold mustacheCallback.
    apply inBudget_bind; [apply safeEval_inBudget | intros v _].
    destruct (isNullish v); [discriminate|].
    apply inBudget_bind; [apply inBudget_catchWith, toString_inBudget|].
    intros s _; discriminate.
Qed.

Lemma parseAttributes_inBudget (H : Host) (attrs : jstr) (data : value) :
  inBudget (parseAttributes H attrs data).
Proof.
  unfold parseAttributes. generalize (@nil (jstr * value)) as acc.
  induction (execAll attrRegex attrs) as [|m hits IH]; intros acc; simpl.
  - discriminate.
  - apply inBudget_bind; [|intros acc' _; apply IH].
    destruct (matchFirst _ _).
    + apply inBudget_bind; [apply safeEval_inBudget | intros v _].
      unfold setAttribute. destruct (jstr_eqb _ _); discriminate.
    + unfold setAttribute. destruct (jstr_eqb _ _); discriminate.
Qed.

Lemma substituteFlag_inBudget (f : hit -> result (jstr * bool)) (l : list piece) :
  (forall h, In (Hit h) l -> inBudget (f h)) -> inBudget (substituteFlag f l).
Proof.
  intros Hf; induction l as [|[c|h] l IH]; simpl.
  - discriminate.
  - apply inBudget_bind; [|intros [r d] _; discriminate].
    apply IH. intros h Hin; apply Hf; right; exact Hin.
  - apply inBudget_bind; [apply Hf; left; reflexivity | intros [x d1] _].
    apply inBudget_bind; [|intros [r d2] _; discriminate].
    apply IH. intros h' Hin; apply Hf; right; exact Hin.
Qed.

(** ** Matches are not empty *)

Lemma literally_advances (icase : bool) (s : jstr) :
  forall st st', literally icase s st = Some st' -> pos st <= pos st'.
Proof.
  induction s as [|x s IH]; intros st st' Hl; simpl in Hl.
  - (assert (Hres : st = st') by congruence); subst st'. lia.
  - unfold step in Hl. destruct (rest st) as [|c r]; [discriminate|].
    destruct (N.eqb _ _); [|discriminate].
    apply IH in Hl. simpl in Hl. lia.
Qed.

(** A match never moves backwards: the continuation is entered at or after
    the position the pattern was tried at. *)
Lemma rmatch_advances (icase : bool) (r : regex) :
  forall st k res,
    rmatch icase r st k = Some res ->
    exists st', pos st <= pos st' /\ k st' = Some res.
Proof.
  induction r as [|x|negated items|r1 IH1 r2 IH2|r1 IH1 r2 IH2|r' IH min greedy
                  |i r' IH|i| | |]; intros st k res Hm;
    [simpl in Hm .. | cbn [rmatch] in Hm | simpl in Hm | simpl in Hm | simpl in Hm
     | simpl in Hm | simpl in Hm].
  - exists st. split; [lia | exact Hm].
  - unfold step in Hm. destruct (rest st) as [|c rs]; [discriminate|].
    destruct (N.eqb _ _); [|discriminate].
    eexists. split; [|exact Hm]. simpl. lia.
  - unfold step in Hm. destruct (rest st) as [|c rs]; [discriminate|].
    destruct (set_matches _ _ _ _); [|discriminate].
    eexists. split; [|exact Hm]. simpl. lia.
  - apply IH1 in Hm. destruct Hm as (st1 & Hle1 & Hm).
    apply IH2 in Hm. destruct Hm as (st2 & Hle2 & Hm).
    exists st2. split; [lia | exact Hm].
  - destruct (rmatch icase r1 st k) as [res1|] eqn:H1; simpl in Hm.
    + (assert (Hres : res1 = res) by congruence); subst res1. apply IH1 in H1. exact H1.
    + apply IH2 in Hm. exact Hm.
  - revert Hm. generalize (S (length (rest st)) + min) as budget.
    generalize 0 as count. intros count budget. revert count st.
    induction budget as [|budget IHb]; intros count st Hm;
      [simpl in Hm; discriminate|].
    cbn -[orElse] in Hm.
    assert (Hcases : forall a b : option mstate,
               (a = Some res -> exists st', pos st <= pos st' /\ k st' = Some res) ->
               (b = Some res -> exists st', pos st <= pos st' /\ k st' = Some res) ->
               orElse a b = Some res ->
               exists st', pos st <= pos st' /\ k st' = Some res).
    { intros [a|] b Ha Hb Hab; simpl in Hab; [apply Ha | apply Hb]; exact Hab. }
    destruct greedy; revert Hm; apply Hcases.
    + intros Hr. apply IH in Hr. destruct Hr as (st1 & Hle1 & Hr).
      destruct (_ && _); [discriminate|].
      apply IHb in Hr. destruct Hr as (st2 & Hle2 & Hr).
      exists st2. split; [lia | exact Hr].
    + intros Hs. destruct (Nat.leb min count); [|discriminate].
      exists st. split; [lia | exact Hs].
    + intros Hs. destruct (Nat.leb min count); [|discriminate].
      exists st. split; [lia | exact Hs].
    + intros Hr. apply IH in Hr. destruct Hr as (st1 & Hle1 & Hr).
      destruct (_ && _); [discriminate|].
      apply IHb in Hr. destruct Hr as (st2 & Hle2 & Hr).
      exists st2. split; [lia | exact Hr].
  - apply IH in Hm. destruct Hm as (st1 & Hle1 & Hm).
    eexists. split; [|exact Hm]. simpl. exact Hle1.
  - destruct (capture i (caps st)) as [s|].
    + destruct (literally icase s st) as [st1|] eqn:Hl; [|discriminate].
      exists st1. split; [eapply literally_advances; exact Hl | exact Hm].
    + exists st. split; [lia | exact Hm].
  - destruct (xorb _ _); [|discriminate]. exists st. split; [lia | exact Hm].
  - destruct (prev st); [discriminate|]. exists st. split; [lia | exact Hm].
  - destruct (rest st); [|discriminate]. exists st. split; [lia | exact Hm].
Qed.

(** A pattern that begins with a literal matches no empty text. *)
Lemma match_at_nonempty (icase : bool) (c : jschar) (r : regex) p s n h :
  match_at icase (RSeq (RLit c) r) p s = Some (n, h) -> 1 <= length (matched h).
Proof.
  unfold match_at. simpl. unfold step; simpl.
  destruct s as [|x s]; [discriminate|].
  destruct (N.eqb _ _); [|discriminate].
  destruct (rmatch icase r _ Some) as [res|] eqn:Hm; [|discriminate].
  intros Heq. (assert (Hn : pos res = n) by congruence). (assert (Hh : h = {| matched := firstn (pos res) (x :: s); groups := caps res |}) by congruence). subst n h. simpl.
  apply rmatch_advances in Hm. destruct Hm as (st' & Hle & Hst).
  (assert (Hres : st' = res) by congruence); subst st'. simpl in Hle.
  destruct (pos res) as [|m]; [lia|]. simpl. lia.
Qed.

Lemma scan_hits (icase : bool) (r : regex) (P : hit -> Prop) :
  (forall p s n h, match_at icase r p s = Some (n, h) -> P h) ->
  forall s p skip h, In (Hit h) (scan icase r p s skip) -> P h.
Proof.
  intros Hmatch. induction s as [|c s IH]; intros p skip h Hin.
  - destruct skip; simpl in Hin; [|contradiction].
    destruct (match_at icase r p []) as [[n h0]|] eqn:Hm; simpl in Hin; [|contradiction].
    destruct Hin as [Heq|[]]. (assert (Hh : h0 = h) by congruence); subst h0. eapply Hmatch; exact Hm.
  - destruct skip as [|skip]; cbn [scan] in Hin.
    + destruct (match_at icase r p (c :: s)) as [[n h0]|] eqn:Hm.
      * destruct Hin as [Heq|Hin].
        -- (assert (Hh : h0 = h) by congruence); subst h0. eapply Hmatch; exact Hm.
        -- destruct n as [|n].
           ++ destruct Hin as [Heq|Hin]; [discriminate|]. eapply IH; exact Hin.
           ++ eapply IH; exact Hin.
      * destruct Hin as [Heq|Hin]; [discriminate|]. eapply IH; exact Hin.
    + eapply IH; exact Hin.
Qed.

Lemma hits_nonempty (p : pattern) (c : jschar) (r : regex) (s : jstr) (h : hit) :
  source p = RSeq (RLit c) r ->
  In (Hit h) (pieces p s) -> 1 <= length (matched h).
Proof.
  intros Hsrc. unfold pieces. rewrite Hsrc.
  apply (@scan_hits (ignoreCase p) (RSeq (RLit c) r) (fun h => 1 <= length (matched h))).
  intros p0 s0 n h0. apply match_at_nonempty.
Qed.

(** ** The passes beyond the depth limit *)

(** When every callback that returns gives the empty text and sets the flag,
    the result is shorter than the text as soon as the flag is set. *)
Lemma substituteFlag_shrinks (f : hit -> result (jstr * bool)) (l : list piece) :
  (forall h, In (Hit h) l -> forall x b, f h = Ok (x, b) -> x = [] /\ b = true) ->
  (forall h, In (Hit h) l -> 1 <= length (matched h)) ->
  forall out d,
    substituteFlag f l = Ok (out, d) ->
    length out <= length (restore l) /\ (d = true -> length out < length (restore l)).
Proof.
  intros Hf Hne. induction l as [|[c|h] l IH]; intros out d Hs; simpl in Hs.
  - assert (out = [] /\ d = false) as (-> & ->) by (split; congruence).
    split; [simpl; lia | discriminate].
  - destruct (substituteFlag f l) as [[r d']| |] eqn:Hl; simpl in Hs; try discriminate.
    assert (out = c :: r /\ d = d') as (-> & ->) by (split; congruence).
    destruct (IH (fun h Hin => Hf h (or_intror Hin)) (fun h Hin => Hne h (or_intror Hin))
                 r d' eq_refl) as (Hle & Hlt).
    change (restore (Lit c :: l)) with (c :: restore l). cbn [length].
    split; [clear - Hle; lia | intros Hd; specialize (Hlt Hd); clear - Hlt; lia].
  - destruct (f h) as [[x d1]| |] eqn:Hh; simpl in Hs; try discriminate.
    destruct (substituteFlag f l) as [[r d2]| |] eqn:Hl; simpl in Hs; try discriminate.
    assert (out = x ++ r /\ d = d1 || d2) as (-> & ->) by (split; congruence).
    destruct (Hf h (or_introl eq_refl) x d1 Hh) as (-> & ->).
    destruct (IH (fun h Hin => Hf h (or_intror Hin)) (fun h Hin => Hne h (or_intror Hin))
                 r d2 eq_refl) as (Hle & _).
    pose proof (Hne h (or_introl eq_refl)) as Hm.
    change (restore (Hit h :: l)) with (matched h ++ restore l).
    rewrite !length_app. cbn [app length]. split; [clear - Hle Hm; jlia | intros _; clear - Hle Hm; jlia].
Qed.

Lemma substituteFlag_unflagged (f : hit -> result (jstr * bool)) (l : list piece) :
  (forall h, In (Hit h) l -> forall x b, f h = Ok (x, b) -> b = false) ->
  forall out d, substituteFlag f l = Ok (out, d) -> d = false.
Proof.
  intros Hf. induction l as [|[c|h] l IH]; intros out d Hs; simpl in Hs.
  - congruence.
  - destruct (substituteFlag f l) as [[r d']| |] eqn:Hl; simpl in Hs; try discriminate.
    assert (d = d') as -> by congruence.
    apply (IH (fun h Hin => Hf h (or_intror Hin)) r d' eq_refl).
  - destruct (f h) as [[x d1]| |] eqn:Hh; simpl in Hs; try discriminate.
    destruct (substituteFlag f l) as [[r d2]| |] eqn:Hl; simpl in Hs; try discriminate.
    assert (d = d1 || d2) as -> by congruence.
    rewrite (Hf h (or_introl eq_refl) x d1 Hh).
    rewrite (IH (fun h Hin => Hf h (or_intror Hin)) r d2 eq_refl). reflexivity.
Qed.

Section Deep.

Variable H : Host.
Variable E : TemplateEngine.
Variable P : passes.
Variable depth : nat.
Hypothesis Hdeep : 50 <= depth.

Lemma renderContent_level_deep source data renderStack :
  renderContent_level H P source data renderStack (depth + 1) = Throw RenderDepthExceeded.
Proof.
  unfold renderContent_level.
  destruct (Nat.ltb_spec 50 (depth + 1)) as [_|Hle]; [reflexivity | lia].
Qed.

Lemma loopCallback_deep data renderStack h :
  inBudget (loopCallback H (renderContent_level H P) data renderStack depth h) /\
  forall x b, loopCallback H (renderContent_level H P) data renderStack depth h = Ok (x, b) ->
              x = [] /\ b = true.
Proof.
  unfold loopCallback.
  pose proof (safeEval_inBudget H (group 3 h) data) as Hsafe.
  destruct (safeEval H (group 3 h) data) as [v| |w]; simpl.
  - destruct v as [| | | | |rows| |];
      try (split; [discriminate | intros ? ? Heq; split; congruence]).
    destruct rows as [|row rows]; simpl.
    + split; [discriminate | intros ? ? Heq; split; congruence].
    + rewrite renderContent_level_deep. simpl. split; [discriminate | discriminate].
  - split; [discriminate | discriminate].
  - split; [intros Heq; apply Hsafe; congruence | discriminate].
Qed.

Lemma conditionalCallback_deep data renderStack h :
  inBudget (conditionalCallback H (renderContent_level H P) data renderStack depth h) /\
  forall x b,
    conditionalCallback H (renderContent_level H P) data renderStack depth h = Ok (x, b) ->
    x = [] /\ b = true.
Proof.
  unfold conditionalCallback, safeEvalBoolean.
  pose proof (safeEval_inBudget H (group 3 h) data) as Hsafe.
  destruct (safeEval H (group 3 h) data) as [v| |w]; simpl.
  - destruct (toBoolean v); simpl.
    + rewrite renderContent_level_deep. simpl. split; discriminate.
    + split; [discriminate | intros ? ? Heq; split; congruence].
  - split; discriminate.
  - split; [intros Heq; apply Hsafe; congruence | discriminate].
Qed.

Lemma includeCallback_deep data renderStack h :
  inBudget (includeCallback H E (renderContent_level H P) data renderStack depth h) /\
  forall x b,
    includeCallback H E (renderContent_level H P) data renderStack depth h = Ok (x, b) ->
    b = false.
Proof.
  unfold includeCallback.
  destruct (negb _); [split; [discriminate | intros ? ? Heq; congruence]|].
  pose proof (parseAttributes_inBudget H (group 2 h) data) as Hattrs.
  destruct (parseAttributes H (group 2 h) data) as [attributes| |w]; simpl.
  - destruct (includes _ _); [split; discriminate|].
    destruct (mapGet _ _); [|split; discriminate].
    rewrite renderContent_level_deep. simpl. split; discriminate.
  - split; discriminate.
  - split; [intros Heq; apply Hattrs; congruence | discriminate].
Qed.

End Deep.

(** From depth 50 on a pass can only remove elements, so it re-runs on ever
    shorter text: a budget above the length of the text is enough. *)
Lemma applyLoops_deep (H : Host) (E : TemplateEngine) (fuel : nat) :
  forall html data renderStack depth,
    50 <= depth -> length html < fuel ->
    inBudget (applyLoops H E fuel html data renderStack depth).
Proof.
  induction fuel as [|fuel IH]; intros html data renderStack depth Hd Hlen; [lia|].
  change (applyLoops H E (S fuel)) with
    (applyLoops_level H (renderContent_level H (unfold H E fuel)) (applyLoops H E fuel)).
  unfold applyLoops_level, replaceFlag.
  assert (Hsrc : source forRegex = RSeq (RLit 60) _) by reflexivity.
  apply inBudget_bind.
  - apply substituteFlag_inBudget. intros h _. apply loopCallback_deep. exact Hd.
  - intros [result d] Hs. destruct d; [|discriminate].
    assert (Hd' : 50 <= depth + 1) by lia.
    apply IH; [exact Hd' |].
    destruct (@substituteFlag_shrinks _ _
                (fun h _ => proj2 (@loopCallback_deep H (unfold H E fuel) depth Hd data renderStack h))
                (fun h => @hits_nonempty forRegex _ _ html h Hsrc) _ _ Hs) as (_ & Hlt).
    specialize (Hlt eq_refl). rewrite pieces_restore in Hlt. clear - Hlt Hlen. jlia.
Qed.

Lemma applyConditionals_deep (H : Host) (E : TemplateEngine) (fuel : nat) :
  forall html data renderStack depth,
    50 <= depth -> length html < fuel ->
    inBudget (applyConditionals H E fuel html data renderStack depth).
Proof.
  induction fuel as [|fuel IH]; intros html data renderStack depth Hd Hlen; [lia|].
  change (applyConditionals H E (S fuel)) with
    (applyConditionals_level H (renderContent_level H (unfold H E fuel))
                             (applyConditionals H E fuel)).
  unfold applyConditionals_level, replaceFlag.
  assert (Hsrc : source ifRegex = RSeq (RLit 60) _) by reflexivity.
  apply inBudget_bind.
  - apply substituteFlag_inBudget. intros h _. apply conditionalCallback_deep. exact Hd.
  - intros [result d] Hs. destruct d; [|discriminate].
    assert (Hd' : 50 <= depth + 1) by lia.
    apply IH; [exact Hd' |].
    destruct (@substituteFlag_shrinks _ _
                (fun h _ => proj2 (@conditionalCallback_deep H (unfold H E fuel) depth Hd
                                                             data renderStack h))
                (fun h => @hits_nonempty ifRegex _ _ html h Hsrc) _ _ Hs) as (_ & Hlt).
    specialize (Hlt eq_refl). rewrite pieces_restore in Hlt. clear - Hlt Hlen. jlia.
Qed.

Lemma applyIncludes_deep (H : Host) (E : TemplateEngine) (fuel : nat) :
  forall html data renderStack depth,
    50 <= depth ->
    inBudget (applyIncludes H E (S fuel) html data renderStack depth).
Proof.
  intros html data renderStack depth Hd.
  change (applyIncludes H E (S fuel)) with
    (applyIncludes_level H E (renderContent_level H (unfold H E fuel))
                         (applyIncludes H E fuel)).
  unfold applyIncludes_level, replaceFlag.
  apply inBudget_bind.
  - apply substituteFlag_inBudget. intros h _. apply includeCallback_deep. exact Hd.
  - intros [result d] Hs.
    rewrite (@substituteFlag_unflagged _ _
               (fun h _ => proj2 (@includeCallback_deep H E (unfold H E fuel) depth Hd
                                                        data renderStack h)) _ _ Hs).
    discriminate.
Qed.

(** ** The passes below the depth limit *)

Lemma grows_stable {A} (p : nat -> result A) :
  grows p -> forall n m, n <= m -> inBudget (p n) -> p m = p n.
Proof.
  intros Hg n m Hle Hn. induction Hle as [|m Hle IH]; [reflexivity|].
  destruct (Hg m) as [Hs|Hs].
  - rewrite IH in Hs. contradiction.
  - rewrite <- Hs. exact IH.
Qed.

Lemma halts_const {A} (r : result A) : inBudget r -> halts (fun _ => r).
Proof. intros Hr. exists 0. intros m _. exact Hr. Qed.

Lemma halts_shift {A} (p : nat -> result A) : halts (fun m => p (S m)) -> halts p.
Proof.
  intros (n & Hn). exists (S n). intros [|m] Hm; [lia|]. apply Hn. lia.
Qed.

Lemma halts_bind {A B} (p : nat -> result A) (k : nat -> A -> result B) :
  grows p -> halts p -> (forall a, halts (fun m => k m a)) ->
  halts (fun m => bind (p m) (k m)).
Proof.
  intros Hg (n & Hn) Hk.
  pose proof (Hn n (le_n n)) as Hpn.
  destruct (p n) as [a|e|w] eqn:Hp.
  - destruct (Hk a) as (na & Hna). exists (Nat.max n na). intros m Hm.
    rewrite (grows_stable Hg (n := n) (m := m)); [|lia|rewrite Hp; exact Hpn].
    rewrite Hp. simpl. apply Hna. lia.
  - exists n. intros m Hm.
    rewrite (grows_stable Hg (n := n) (m := m)); [|lia|rewrite Hp; exact Hpn].
    rewrite Hp. discriminate.
  - exists n. intros m Hm.
    rewrite (grows_stable Hg (n := n) (m := m)); [|lia|rewrite Hp; exact Hpn].
    rewrite Hp. simpl. intros Heq. apply Hpn. congruence.
Qed.

Lemma grows_const {A} (r : result A) : grows (fun _ => r).
Proof. intros m. apply settles_refl. Qed.

Section Halting.

Variable H : Host.
Variable E : TemplateEngine.

Lemma rc_le (m : nat) : pass_le (renderContent H E m) (renderContent H E (S m)).
Proof. exact (renderContent_settles H E m 1). Qed.

Lemma loops_le (m : nat) : pass_le (applyLoops H E m) (applyLoops H E (S m)).
Proof. exact (proj1 (unfold_settles H E m)). Qed.

Lemma conditionals_le (m : nat) :
  pass_le (applyConditionals H E m) (applyConditionals H E (S m)).
Proof. exact (proj1 (proj2 (unfold_settles H E m))). Qed.

Lemma includes_le (m : nat) : pass_le (applyIncludes H E m) (applyIncludes H E (S m)).
Proof. exact (proj2 (proj2 (unfold_settles H E m))). Qed.

Lemma substituteFlag_halts (f : nat -> hit -> result (jstr * bool)) (l : list piece) :
  (forall h, grows (fun m => f m h)) ->
  (forall h, halts (fun m => f m h)) ->
  halts (fun m => substituteFlag (f m) l).
Proof.
  intros Hg Hh. induction l as [|[c|h] l IH]; simpl.
  - apply halts_const. discriminate.
  - apply halts_bind with (k := fun _ rd => let '(r, d) := rd in Ok (c :: r, d)).
    + intros m. apply substituteFlag_settles. intros h. apply Hg.
    + exact IH.
    + intros [r d]. apply halts_const. discriminate.
  - apply halts_bind with
      (k := fun m xd => let '(x, d1) := xd in
                        '(r, d2) <- substituteFlag (f m) l ;; Ok (x ++ r, d1 || d2)).
    + apply Hg.
    + apply Hh.
    + intros [x d1].
      apply halts_bind with (k := fun _ rd => let '(r, d2) := rd in Ok (x ++ r, d1 || d2)).
      * intros m. apply substituteFlag_settles. intros h'. apply Hg.
      * exact IH.
      * intros [r d2]. apply halts_const. discriminate.
Qed.

Variable depth : nat.
Hypothesis rc_halts :
  forall source data renderStack,
    halts (fun m => renderContent H E m source data renderStack (depth + 1)).

Lemma loopPieces_halts data renderStack alias inner openTag closingTag rows :
  forall index,
    halts (fun m => loopPieces (renderContent H E m) data renderStack depth alias inner
                               openTag closingTag rows index).
Proof.
  induction rows as [|row rows IH]; intros index; simpl.
  - apply halts_const. discriminate.
  - apply halts_bind with
      (k := fun m processedInner =>
              others <- loopPieces (renderContent H E m) data renderStack depth alias inner
                                   openTag closingTag rows (S index) ;;
              Ok ((openTag ++ processedInner ++ closingTag) ++ others)).
    + intros m. apply rc_le.
    + apply rc_halts.
    + intros body.
      apply halts_bind with
        (k := fun _ others => Ok ((openTag ++ body ++ closingTag) ++ others)).
      * intros m. apply loopPieces_settles. apply rc_le.
      * apply IH.
      * intros others. apply halts_const. discriminate.
Qed.

Lemma loopCallback_grows data renderStack h :
  grows (fun m => loopCallback H (renderContent H E m) data renderStack depth h).
Proof.
  intros m. unfold loopCallback.
  apply settles_bind; [apply settles_refl | intros v].
  destruct v; try apply settles_refl.
  apply settles_bind; [apply loopPieces_settles, rc_le | intros out; apply settles_refl].
Qed.

Lemma loopCallback_halts data renderStack h :
  halts (fun m => loopCallback H (renderContent H E m) data renderStack depth h).
Proof.
  unfold loopCallback.
  apply halts_bind with
    (p := fun _ => safeEval H (group 3 h) data)
    (k := fun m iterable =>
            match iterable with
            | VArr rows =>
                out <- loopPieces (renderContent H E m) data renderStack depth
                         (aliasOf (attrsCombined (group 2 h) (group 4 h))) (group 5 h)
                         (openTagOf (group 1 h)
                            (cleanForAttrs (attrsCombined (group 2 h) (group 4 h))))
                         (closingTagOf (group 1 h)) rows 0 ;;
                Ok (out, true)
            | _ => Ok ([], true)
            end).
  - apply grows_const.
  - apply halts_const, safeEval_inBudget.
  - intros v. destruct v; try (apply halts_const; discriminate).
    apply halts_bind with (k := fun _ out => Ok (out, true)).
    + intros m. apply loopPieces_settles, rc_le.
    + apply loopPieces_halts.
    + intros out. apply halts_const. discriminate.
Qed.

Lemma conditionalCallback_grows data renderStack h :
  grows (fun m => conditionalCallback H (renderContent H E m) data renderStack depth h).
Proof.
  intros m. unfold conditionalCallback.
  apply settles_bind; [apply settles_refl | intros c].
  destruct (negb c); [apply settles_refl|].
  apply settles_bind; [apply rc_le | intros body; apply settles_refl].
Qed.

Lemma conditionalCallback_halts data renderStack h :
  halts (fun m => conditionalCallback H (renderContent H E m) data renderStack depth h).
Proof.
  unfold conditionalCallback.
  apply halts_bind with
    (p := fun _ => safeEvalBoolean H (group 3 h) data)
    (k := fun m (condition : bool) =>
            if negb condition then Ok ([], true)
            else
              processedInner <- renderContent H E m (group 5 h) data renderStack (depth + 1) ;;
              Ok (openTagOf (group 1 h)
                    (cleanIfAttrs (attrsCombined (group 2 h) (group 4 h)))
                  ++ processedInner ++ closingTagOf (group 1 h), true)).
  - apply grows_const.
  - apply halts_const. unfold safeEvalBoolean.
    apply inBudget_bind; [apply safeEval_inBudget | intros r _; discriminate].
  - intros c. destruct (negb c); [apply halts_const; discriminate|].
    apply halts_bind with
      (k := fun _ processedInner =>
              Ok (openTagOf (group 1 h)
                    (cleanIfAttrs (attrsCombined (group 2 h) (group 4 h)))
                  ++ processedInner ++ closingTagOf (group 1 h), true)).
    + intros m. apply rc_le.
    + apply rc_halts.
    + intros body. apply halts_const. discriminate.
Qed.

Lemma includeCallback_grows data renderStack h :
  grows (fun m => includeCallback H E (renderContent H E m) data renderStack depth h).
Proof.
  intros m. unfold includeCallback.
  destruct (negb _); [apply settles_refl|].
  apply settles_bind; [apply settles_refl | intros attributes].
  destruct (includes _ _); [apply settles_refl|].
  destruct (mapGet _ _); [|apply settles_refl].
  apply settles_bind; [apply rc_le | intros body; apply settles_refl].
Qed.

Lemma includeCallback_halts data renderStack h :
  halts (fun m => includeCallback H E (renderContent H E m) data renderStack depth h).
Proof.
  unfold includeCallback.
  destruct (negb _); [apply halts_const; discriminate|].
  apply halts_bind with
    (p := fun _ => parseAttributes H (group 2 h) data)
    (k := fun m attributes =>
            if includes renderStack (normalizeName E (group 1 h))
            then Throw (CyclicInclude (renderStack ++ [normalizeName E (group 1 h)]))
            else
              match mapGet (normalizeName E (group 1 h)) (templateNameToRecord E) with
              | None => Throw (HostError TypeError)
              | Some record =>
                  rendered <- renderContent H E m (content record)
                                 (VObj ProtoObject (assign (ownProps data) attributes))
                                 (renderStack ++ [normalizeName E (group 1 h)])
                                 (depth + 1) ;;
                  Ok (rendered, true)
              end).
  - apply grows_const.
  - apply halts_const, parseAttributes_inBudget.
  - intros attributes. destruct (includes _ _); [apply halts_const; discriminate|].
    destruct (mapGet _ _); [|apply halts_const; discriminate].
    apply halts_bind with (k := fun _ rendered => Ok (rendered, true)).
    + intros m. apply rc_le.
    + apply rc_halts.
    + intros body. apply halts_const. discriminate.
Qed.

Hypothesis loops_halt :
  forall html data renderStack,
    halts (fun m => applyLoops H E m html data renderStack (depth + 1)).
Hypothesis conditionals_halt :
  forall html data renderStack,
    halts (fun m => applyConditionals H E m html data renderStack (depth + 1)).
Hypothesis includes_halt :
  forall html data renderStack,
    halts (fun m => applyIncludes H E m html data renderStack (depth + 1)).

Lemma applyLoops_halts html data renderStack :
  halts (fun m => applyLoops H E m html data renderStack depth).
Proof.
  apply halts_shift.
  change (fun m => applyLoops H E (S m) html data renderStack depth) with
    (fun m => applyLoops_level H (renderContent H E m) (applyLoops H E m) html data renderStack depth).
  unfold applyLoops_level, replaceFlag.
  apply halts_bind with
    (p := fun m => substituteFlag (loopCallback H (renderContent H E m) data renderStack depth)
                                  (pieces forRegex html))
    (k := fun m rd => let '(result, didReplace) := rd in
                      if (didReplace : bool)
                      then applyLoops H E m result data renderStack (depth + 1)
                      else Ok result).
  - intros m. apply substituteFlag_settles. intros h. apply loopCallback_grows.
  - apply substituteFlag_halts; intros h;
      [apply loopCallback_grows | apply loopCallback_halts].
  - intros [result d]. destruct d; [apply loops_halt | apply halts_const; discriminate].
Qed.

Lemma applyConditionals_halts html data renderStack :
  halts (fun m => applyConditionals H E m html data renderStack depth).
Proof.
  apply halts_shift.
  change (fun m => applyConditionals H E (S m) html data renderStack depth) with
    (fun m => applyConditionals_level H (renderContent H E m) (applyConditionals H E m)
                                      html data renderStack depth).
  unfold applyConditionals_level, replaceFlag.
  apply halts_bind with
    (p := fun m => substituteFlag (conditionalCallback H (renderContent H E m) data renderStack depth)
                                  (pieces ifRegex html))
    (k := fun m rd => let '(result, didReplace) := rd in
                      if (didReplace : bool)
                      then applyConditionals H E m result data renderStack (depth + 1)
                      else Ok result).
  - intros m. apply substituteFlag_settles. intros h. apply conditionalCallback_grows.
  - apply substituteFlag_halts; intros h;
      [apply conditionalCallback_grows | apply conditionalCallback_halts].
  - intros [result d]. destruct d;
      [apply conditionals_halt | apply halts_const; discriminate].
Qed.

Lemma applyIncludes_halts html data renderStack :
  halts (fun m => applyIncludes H E m html data renderStack depth).
Proof.
  apply halts_shift.
  change (fun m => applyIncludes H E (S m) html data renderStack depth) with
    (fun m => applyIncludes_level H E (renderContent H E m) (applyIncludes H E m)
                                  html data renderStack depth).
  unfold applyIncludes_level, replaceFlag.
  apply halts_bind with
    (p := fun m => substituteFlag (includeCallback H E (renderContent H E m) data renderStack depth)
                                  (pieces includeTagRegex html))
    (k := fun m rd => let '(result, didReplace) := rd in
                      if (didReplace : bool)
                      then applyIncludes H E m result data renderStack (depth + 1)
                      else Ok result).
  - intros m. apply substituteFlag_settles. intros h. apply includeCallback_grows.
  - apply substituteFlag_halts; intros h;
      [apply includeCallback_grows | apply includeCallback_halts].
  - intros [result d]. destruct d; [apply includes_halt | apply halts_const; discriminate].
Qed.

End Halting.

(** ** [render] returns *)

Lemma renderContent_halts (H : Host) (E : TemplateEngine) (depth : nat) :
  allHalt H E depth ->
  forall source data renderStack,
    halts (fun m => renderContent H E m source data renderStack depth).
Proof.
  intros (Hl & Hc & Hi) source data renderStack.
  unfold renderContent, renderContent_level.
  destruct (Nat.ltb 50 depth); [apply halts_const; discriminate|].
  apply halts_bind with
    (p := fun m => applyLoops H E m (stripBom source) data renderStack depth)
    (k := fun m html =>
            html <- applyConditionals H E m html data renderStack depth ;;
            html <- applyIncludes H E m html data renderStack depth ;;
            interpolate H html data).
  - intros m. apply loops_le.
  - apply Hl.
  - intros html1.
    apply halts_bind with
      (p := fun m => applyConditionals H E m html1 data renderStack depth)
      (k := fun m html =>
              html <- applyIncludes H E m html data renderStack depth ;;
              interpolate H html data).
    + intros m. apply conditionals_le.
    + apply Hc.
    + intros html2.
      apply halts_bind with
        (p := fun m => applyIncludes H E m html2 data renderStack depth)
        (k := fun _ html => interpolate H html data).
      * intros m. apply includes_le.
      * apply Hi.
      * intros html3. apply halts_const, interpolate_inBudget.
Qed.

Lemma allHalt_deep (H : Host) (E : TemplateEngine) (depth : nat) :
  50 <= depth -> allHalt H E depth.
Proof.
  intros Hd. repeat split; intros html data renderStack.
  - exists (S (length html)). intros m Hm. apply applyLoops_deep; [exact Hd | lia].
  - exists (S (length html)). intros m Hm. apply applyConditionals_deep; [exact Hd | lia].
  - exists 1. intros [|m] Hm; [lia|]. apply applyIncludes_deep. exact Hd.
Qed.

Lemma allHalt_step (H : Host) (E : TemplateEngine) (depth : nat) :
  allHalt H E (depth + 1) -> allHalt H E depth.
Proof.
  intros Hnext. pose proof (renderContent_halts Hnext) as Hrc.
  destruct Hnext as (Hl & Hc & Hi). repeat split; intros html data renderStack.
  - apply applyLoops_halts; assumption.
  - apply applyConditionals_halts; assumption.
  - apply applyIncludes_halts; assumption.
Qed.

Lemma allHalt_all (H : Host) (E : TemplateEngine) (depth : nat) : allHalt H E depth.
Proof.
  assert (Hk : forall k d, 50 <= d + k -> allHalt H E d).
  { induction k as [|k IH]; intros d Hd.
    - apply allHalt_deep. lia.
    - apply allHalt_step, IH. lia. }
  apply (Hk 50). lia.
Qed.

Lemma render_grows (H : Host) (E : TemplateEngine) templateName data :
  grows (fun m => render H E m templateName data).
Proof.
  intros m. unfold render. destruct (mapGet _ _); [|apply settles_refl].
  apply rc_le.
Qed.

Lemma render_halts (H : Host) (E : TemplateEngine) templateName data :
  halts (fun m => render H E m templateName data).
Proof.
  unfold render. destruct (mapGet _ _); [|apply halts_const; discriminate].
  apply renderContent_halts, allHalt_all.
Qed.



(** * Further properties

    Properties of the code beside the claims: what the constructor, the
    registry and the listing do, what [render] returns and throws, and what
    the passes leave alone. *)

(** ** The texts of a pattern *)

Lemma after_refl (st : mstate) : after st [] st.
Proof. split; simpl; [reflexivity | lia]. Qed.

Lemma after_trans (st1 st2 st3 : mstate) (w1 w2 : jstr) :
  after st1 w1 st2 -> after st2 w2 st3 -> after st1 (w1 ++ w2) st3.
Proof.
  intros (Hr1 & Hp1) (Hr2 & Hp2). split.
  - rewrite Hr1, Hr2, app_assoc. reflexivity.
  - rewrite Hp2, Hp1, length_app. lia.
Qed.

Lemma step_after (st st' : mstate) (ok : jschar -> bool) :
  step st ok = Some st' -> exists c, ok c = true /\ after st [c] st'.
Proof.
  unfold step. destruct (rest st) as [|c rs] eqn:Hrest; [discriminate|].
  destruct (ok c) eqn:Hok; [|discriminate].
  intros Heq. assert (Hst : st' = {| prev := Some c; rest := rs; pos := S (pos st); caps := caps st |})
    by congruence.
  subst st'. exists c. split; [exact Hok|]. split; simpl; [exact Hrest | lia].
Qed.

Lemma literally_after (icase : bool) (s : jstr) :
  forall st st', literally icase s st = Some st' -> exists w, after st w st'.
Proof.
  induction s as [|x s IH]; intros st st' Hl; simpl in Hl.
  - assert (Hst : st = st') by congruence. subst st'. exists []. apply after_refl.
  - destruct (step st _) as [st1|] eqn:Hstep; [|discriminate].
    apply step_after in Hstep. destruct Hstep as (c & _ & Hc).
    apply IH in Hl. destruct Hl as (w & Hw).
    exists ([c] ++ w). eapply after_trans; eassumption.
Qed.

(** What a match covers is a text of the pattern. *)
Lemma rmatch_spans (icase : bool) (r : regex) :
  forall st k res,
    rmatch icase r st k = Some res ->
    exists w st', after st w st' /\ spans icase r w /\ k st' = Some res.
Proof.
  induction r as [|x|negated items|r1 IH1 r2 IH2|r1 IH1 r2 IH2|r' IH min greedy
                  |i r' IH|i| | |]; intros st k res Hm;
    [simpl in Hm .. | cbn [rmatch] in Hm | simpl in Hm | simpl in Hm | simpl in Hm
     | simpl in Hm | simpl in Hm].
  - exists [], st. split; [apply after_refl|]. split; [reflexivity | exact Hm].
  - destruct (step st _) as [st1|] eqn:Hstep; [|discriminate].
    apply step_after in Hstep. destruct Hstep as (c & Hc & Hafter).
    exists [c], st1. split; [exact Hafter|]. split; [|exact Hm].
    exists c. split; [reflexivity|]. apply N.eqb_eq. exact Hc.
  - destruct (step st _) as [st1|] eqn:Hstep; [|discriminate].
    apply step_after in Hstep. destruct Hstep as (c & Hc & Hafter).
    exists [c], st1. split; [exact Hafter|]. split; [|exact Hm].
    exists c. split; [reflexivity | exact Hc].
  - apply IH1 in Hm. destruct Hm as (w1 & st1 & Ha1 & Hs1 & Hm).
    apply IH2 in Hm. destruct Hm as (w2 & st2 & Ha2 & Hs2 & Hm).
    exists (w1 ++ w2), st2. split; [eapply after_trans; eassumption|].
    split; [|exact Hm]. exists w1, w2. repeat split; assumption.
  - destruct (rmatch icase r1 st k) as [res1|] eqn:H1; simpl in Hm.
    + assert (Hres : res1 = res) by congruence. subst res1.
      apply IH1 in H1. destruct H1 as (w & st1 & Ha & Hs & Hk).
      exists w, st1. split; [exact Ha|]. split; [left; exact Hs | exact Hk].
    + apply IH2 in Hm. destruct Hm as (w & st1 & Ha & Hs & Hk).
      exists w, st1. split; [exact Ha|]. split; [right; exact Hs | exact Hk].
  - assert (Hloop : forall budget count st0,
               (fix loop (budget count : nat) (st : mstate) {struct budget} : option mstate :=
                  match budget with
                  | O => None
                  | S budget' =>
                      let more :=
                        rmatch icase r' st (fun st' =>
                          if Nat.eqb (pos st') (pos st) && Nat.leb min count then None
                          else loop budget' (S count) st') in
                      let stop := if Nat.leb min count then k st else None in
                      if greedy then orElse more stop else orElse stop more
                  end) budget count st0 = Some res ->
               exists ws st', after st0 (concat ws) st' /\ Forall (spans icase r') ws /\
                              min <= count + length ws /\ k st' = Some res).
    { induction budget as [|budget IHb]; intros count st0 Hl; [discriminate|].
      cbn -[orElse] in Hl.
      assert (Hmore :
                rmatch icase r' st0 (fun st' =>
                  if Nat.eqb (pos st') (pos st0) && Nat.leb min count then None
                  else (fix loop (budget count : nat) (st : mstate) {struct budget}
                          : option mstate :=
                          match budget with
                          | O => None
                          | S budget' =>
                              let more :=
                                rmatch icase r' st (fun st' =>
                                  if Nat.eqb (pos st') (pos st) && Nat.leb min count then None
                                  else loop budget' (S count) st') in
                              let stop := if Nat.leb min count then k st else None in
                              if greedy then orElse more stop else orElse stop more
                          end) budget (S count) st') = Some res ->
                exists ws st', after st0 (concat ws) st' /\ Forall (spans icase r') ws /\
                               min <= count + length ws /\ k st' = Some res).
      { intros Hr. apply IH in Hr. destruct Hr as (w1 & st1 & Ha1 & Hs1 & Hr).
        destruct (_ && _); [discriminate|].
        apply IHb in Hr. destruct Hr as (ws & st2 & Ha2 & Hs2 & Hmin & Hk).
        exists (w1 :: ws), st2. split; [simpl; eapply after_trans; eassumption|].
        split; [constructor; assumption|]. split; [simpl; lia | exact Hk]. }
      assert (Hstop :
                (if Nat.leb min count then k st0 else None) = Some res ->
                exists ws st', after st0 (concat ws) st' /\ Forall (spans icase r') ws /\
                               min <= count + length ws /\ k st' = Some res).
      { intros Hs. destruct (Nat.leb_spec min count) as [Hle|]; [|discriminate].
        exists [], st0. split; [apply after_refl|]. split; [constructor|].
        split; [simpl; lia | exact Hs]. }
      destruct greedy.
      - destruct (rmatch icase r' st0 _) as [res1|] eqn:Hr; simpl in Hl.
        + apply Hmore. rewrite <- Hl. reflexivity.
        + apply Hstop. exact Hl.
      - destruct (if Nat.leb min count then k st0 else None) as [res1|] eqn:Hs; simpl in Hl.
        + apply Hstop. rewrite <- Hl. reflexivity.
        + apply Hmore. exact Hl. }
    apply Hloop in Hm. destruct Hm as (ws & st1 & Ha & Hs & Hmin & Hk).
    exists (concat ws), st1. split; [exact Ha|]. split; [|exact Hk].
    exists ws. repeat split; [exact Hs | lia].
  - apply IH in Hm. destruct Hm as (w & st1 & Ha & Hs & Hk).
    eexists w, _. split; [|split; [exact Hs | exact Hk]].
    destruct Ha as (Hr & Hp). split; simpl; assumption.
  - destruct (capture i (caps st)) as [s|].
    + destruct (literally icase s st) as [st1|] eqn:Hl; [|discriminate].
      apply literally_after in Hl. destruct Hl as (w & Hw).
      exists w, st1. split; [exact Hw|]. split; [exact I | exact Hm].
    + exists [], st. split; [apply after_refl|]. split; [exact I | exact Hm].
  - destruct (xorb _ _); [|discriminate].
    exists [], st. split; [apply after_refl|]. split; [reflexivity | exact Hm].
  - destruct (prev st); [discriminate|].
    exists [], st. split; [apply after_refl|]. split; [reflexivity | exact Hm].
  - destruct (rest st); [|discriminate].
    exists [], st. split; [apply after_refl|]. split; [reflexivity | exact Hm].
Qed.

(** The text of a match is a text of the pattern. *)
Lemma match_at_spans (icase : bool) (r : regex) p s n h :
  match_at icase r p s = Some (n, h) -> spans icase r (matched h).
Proof.
  unfold match_at.
  destruct (rmatch icase r _ Some) as [res|] eqn:Hm; [|discriminate].
  intros Heq.
  assert (Hh : h = {| matched := firstn (pos res) s; groups := caps res |}) by congruence.
  subst h. simpl.
  apply rmatch_spans in Hm. destruct Hm as (w & st' & (Hrest & Hpos) & Hs & Hk).
  assert (Hst : st' = res) by congruence. subst st'. simpl in Hrest, Hpos.
  rewrite Hrest, Hpos. simpl.
  rewrite firstn_app, firstn_all, Nat.sub_diag. simpl. rewrite app_nil_r. exact Hs.
Qed.

Lemma hits_span (p : pattern) (s : jstr) (h : hit) :
  In (Hit h) (pieces p s) -> spans (ignoreCase p) (source p) (matched h).
Proof.
  unfold pieces. intros Hin.
  apply (@scan_hits (ignoreCase p) (source p)
           (fun h => spans (ignoreCase p) (source p) (matched h))
           (fun p0 s0 n h0 => @match_at_spans _ _ p0 s0 n h0) _ _ _ _ Hin).
Qed.

Lemma canon_caseless (icase : bool) (c x : jschar) :
  caseless x = true -> canon icase c = canon icase x -> c = x.
Proof.
  unfold caseless, canon, in_range. intros Hx.
  apply negb_true_iff, orb_false_iff in Hx. destruct Hx as (Hup & Hlow).
  rewrite Hlow, andb_false_r.
  destruct icase; simpl; [|auto].
  destruct (N.leb 97 c && N.leb c 122) eqn:Hc; [|auto].
  intros Heq. exfalso.
  apply andb_true_iff in Hc. destruct Hc as (H1 & H2).
  apply N.leb_le in H1, H2.
  apply andb_false_iff in Hup.
  destruct Hup as [Hup|Hup]; apply N.leb_gt in Hup; lia.
Qed.

Lemma spans_needs (icase : bool) (c : jschar) (r : regex) :
  caseless c = true ->
  forall w, needs c r = true -> spans icase r w -> In c w.
Proof.
  intros Hc.
  induction r as [|x|negated items|r1 IH1 r2 IH2|r1 IH1 r2 IH2|r' IH min greedy
                  |i r' IH|i| | |]; intros w Hn Hs; simpl in Hn; try discriminate.
  - apply N.eqb_eq in Hn. subst x. destruct Hs as (c' & -> & Hcanon).
    left. apply (@canon_caseless icase c' c Hc Hcanon).
  - destruct Hs as (w1 & w2 & -> & Hs1 & Hs2). apply in_or_app.
    apply orb_true_iff in Hn. destruct Hn as [Hn|Hn]; [left; auto | right; auto].
  - apply andb_true_iff in Hn. destruct Hn as (Hn1 & Hn2).
    destruct Hs as [Hs|Hs]; auto.
  - apply andb_true_iff in Hn. destruct Hn as (Hmin & Hn).
    assert (Hmin' : 1 <= min) by (destruct min; [discriminate | lia]).
    destruct Hs as (ws & -> & Hall & Hlen).
    destruct ws as [|w1 ws]; [simpl in Hlen; lia|].
    simpl. apply in_or_app. left. apply IH; [exact Hn|].
    inversion Hall; assumption.
  - apply IH; assumption.
Qed.

Lemma restore_In (l : list piece) (h : hit) (c : jschar) :
  In (Hit h) l -> In c (matched h) -> In c (restore l).
Proof.
  intros Hin Hc. unfold restore. apply in_flat_map.
  exists (Hit h). split; assumption.
Qed.

Lemma literal_pieces (l : list piece) :
  (forall h, ~ In (Hit h) l) -> l = List.map Lit (restore l).
Proof.
  induction l as [|[c|h] l IH]; intros Hno.
  - reflexivity.
  - change (restore (Lit c :: l)) with (c :: restore l). simpl.
    rewrite <- IH; [reflexivity|]. intros h Hin. apply (Hno h). right. exact Hin.
  - exfalso. apply (Hno h). left. reflexivity.
Qed.

(** A text that lacks a code unit the pattern needs holds no match. *)
Lemma pieces_without (p : pattern) (c : jschar) (s : jstr) :
  needs c (source p) = true -> caseless c = true -> ~ In c s ->
  pieces p s = List.map Lit s.
Proof.
  intros Hn Hc Hs.
  rewrite (literal_pieces (pieces p s)).
  - rewrite pieces_restore. reflexivity.
  - intros h Hin. apply Hs.
    rewrite <- (pieces_restore p s). apply (@restore_In _ h c Hin).
    apply (@spans_needs (ignoreCase p) c (source p) Hc _ Hn).
    apply (@hits_span p s h Hin).
Qed.

Lemma substitute_literals {X} (f : hit -> outcome X jstr) (l : jstr) :
  substitute f (List.map Lit l) = Ok l.
Proof. induction l as [|c l IH]; simpl; [reflexivity | rewrite IH; reflexivity]. Qed.

Lemma interpolate_without_brace (H : Host) (html : jstr) (data : value) :
  ~ In 123%N html -> interpolate H html data = Ok html.
Proof.
  intros Hno. unfold interpolate, replaceWith.
  rewrite (@pieces_without tripleRegex 123%N html eq_refl eq_refl Hno).
  rewrite substitute_literals. simpl.
  rewrite (@pieces_without mustacheRegex 123%N html eq_refl eq_refl Hno).
  apply substitute_literals.
Qed.

Lemma passes_without_tag (H : Host) (E : TemplateEngine) (fuel : nat)
      (html : jstr) (data : value) (renderStack : list jstr) (depth : nat) :
  ~ In 60%N html ->
  applyLoops H E (S fuel) html data renderStack depth = Ok html /\
  applyConditionals H E (S fuel) html data renderStack depth = Ok html /\
  applyIncludes H E (S fuel) html data renderStack depth = Ok html.
Proof.
  intros Hno. repeat split.
  - change (applyLoops H E (S fuel)) with
      (applyLoops_level H (renderContent_level H (unfold H E fuel)) (applyLoops H E fuel)).
    unfold applyLoops_level, replaceFlag.
    rewrite (@pieces_without forRegex 60%N html eq_refl eq_refl Hno).
    rewrite substituteFlag_literals. reflexivity.
  - change (applyConditionals H E (S fuel)) with
      (applyConditionals_level H (renderContent_level H (unfold H E fuel))
                               (applyConditionals H E fuel)).
    unfold applyConditionals_level, replaceFlag.
    rewrite (@pieces_without ifRegex 60%N html eq_refl eq_refl Hno).
    rewrite substituteFlag_literals. reflexivity.
  - change (applyIncludes H E (S fuel)) with
      (applyIncludes_level H E (renderContent_level H (unfold H E fuel))
                           (applyIncludes H E fuel)).
    unfold applyIncludes_level, replaceFlag.
    rewrite (@pieces_without includeTagRegex 60%N html eq_refl eq_refl Hno).
    rewrite substituteFlag_literals. reflexivity.
Qed.

Lemma stripBom_In (c : jschar) (s : jstr) : In c (stripBom s) -> In c s.
Proof.
  destruct s as [|x s]; simpl; [auto|].
  destruct (N.eqb x 65279); simpl; auto.
Qed.

(** X2: a text without [<] goes through the three passes as it is, and one
    without [{] through the interpolation too: such a template renders to
    its own text, less a leading byte order mark. *)
Theorem X2_static_text (H : Host) (E : TemplateEngine) :
  (forall fuel source data renderStack depth,
      depth <= 50 -> ~ In 60%N source ->
      renderContent H E (S fuel) source data renderStack depth
      = interpolate H (stripBom source) data) /\
  (forall html data, ~ In 123%N html -> interpolate H html data = Ok html) /\
  (forall fuel templateName data record,
      mapGet (normalizeName E templateName) (templateNameToRecord E) = Some record ->
      ~ In 60%N (content record) -> ~ In 123%N (content record) ->
      render H E (S fuel) templateName data = Ok (stripBom (content record))).
Proof.
  assert (Hrc : forall fuel source data renderStack depth,
             depth <= 50 -> ~ In 60%N source ->
             renderContent H E (S fuel) source data renderStack depth
             = interpolate H (stripBom source) data).
  { intros fuel source data renderStack depth Hd Hno.
    unfold renderContent, renderContent_level.
    destruct (Nat.ltb_spec 50 depth) as [Hlt|_]; [lia|].
    assert (Hno' : ~ In 60%N (stripBom source))
      by (intros Hin; apply Hno, stripBom_In, Hin).
    destruct (@passes_without_tag H E fuel (stripBom source) data renderStack depth Hno')
      as (Hl & Hc & Hi).
    fold (applyLoops H E (S fuel)). fold (applyConditionals H E (S fuel)).
    fold (applyIncludes H E (S fuel)).
    cbv zeta. rewrite Hl. cbn [bind]. rewrite Hc. cbn [bind]. rewrite Hi. reflexivity. }
  split; [exact Hrc|]. split; [apply interpolate_without_brace|].
  intros fuel templateName data record Hget Hlt Hbrace.
  unfold render. rewrite Hget. rewrite Hrc; [|lia|exact Hlt].
  apply interpolate_without_brace. intros Hin. apply Hbrace, stripBom_In, Hin.
Qed.

Lemma X2_static_text_witness :
  renderContent sampleHost staticEngine 1 (js "{{ n }} items") (obj [("n", VNum 3)]%string) [] 0
  = interpolate sampleHost (js "{{ n }} items") (obj [("n", VNum 3)]%string) /\
  interpolate sampleHost (js "a > b") VNull = Ok (js "a > b") /\
  render sampleHost staticEngine 1 (js "motd") VNull = Ok (js "Hello, world").
Proof.
  destruct (X2_static_text sampleHost staticEngine) as (Hrc & Hi & Hr).
  split; [|split].
  - apply (Hrc 0 (js "{{ n }} items")); [lia | absent].
  - apply Hi. absent.
  - apply (Hr 0 (js "motd") VNull
              {| name := js "motd"; filePath := js "views/motd.html";
                 content := js "Hello, world" |}); [reflexivity | absent | absent].
Defined.

(** ** Escaping and markup *)

Lemma occurrences_app (c : jschar) (a b : jstr) :
  occurrences c (a ++ b) = occurrences c a + occurrences c b.
Proof. unfold occurrences. rewrite filter_app, length_app. reflexivity. Qed.

Lemma occurrences_none (c : jschar) (s : jstr) : ~ In c s -> occurrences c s = 0.
Proof.
  unfold occurrences. induction s as [|x s IH]; intros Hno; [reflexivity|].
  simpl. destruct (N.eqb_spec c x) as [->|Hne].
  - exfalso. apply Hno. left. reflexivity.
  - apply IH. intros Hin. apply Hno. right. exact Hin.
Qed.

Lemma escapeChar_markup (c x : jschar) : isMarkup c = true -> ~ In c (escapeChar x).
Proof.
  unfold isMarkup, escapeChar. intros Hc Hin.
  destruct (N.eqb_spec x 38) as [->|H38];
    [|destruct (N.eqb_spec x 34) as [->|H34];
      [|destruct (N.eqb_spec x 39) as [->|H39];
        [|destruct (N.eqb_spec x 60) as [->|H60];
          [|destruct (N.eqb_spec x 62) as [->|H62]]]]].
  1-5: simpl in Hin;
    repeat (destruct Hin as [Heq|Hin]; [subst c; discriminate Hc|]); exact Hin.
  destruct Hin as [Heq|[]]. subst x.
  repeat (apply orb_true_iff in Hc; destruct Hc as [Hc|Hc]);
    apply N.eqb_eq in Hc; congruence.
Qed.

Lemma escapeHtml_markup (c : jschar) (s : jstr) :
  isMarkup c = true -> ~ In c (escapeHtml s).
Proof.
  intros Hc. rewrite escapeHtml_escapeChar. intros Hin.
  apply in_flat_map in Hin. destruct Hin as (x & _ & Hin).
  exact (@escapeChar_markup c x Hc Hin).
Qed.

Lemma mustacheCallback_markup (H : Host) (data : value) (h : hit) (out : jstr)
      (c : jschar) :
  mustacheCallback H data h = Ok out -> isMarkup c = true -> ~ In c out.
Proof.
  unfold mustacheCallback. intros Hcb Hc.
  destruct (safeEval H (group 1 h) data) as [v| |]; simpl in Hcb; try discriminate.
  destruct (isNullish v).
  - assert (Hout : out = []) by congruence. subst out. intros [].
  - destruct (stringOf v) as [s| |]; simpl in Hcb; try discriminate.
    assert (Hout : out = escapeHtml s) by congruence. subst out.
    apply escapeHtml_markup. exact Hc.
Qed.

(** Replacing matches by texts free of [c] adds no [c]. *)
Lemma substitute_occurrences {X} (f : hit -> outcome X jstr) (c : jschar)
      (l : list piece) :
  (forall h x, f h = Ok x -> ~ In c x) ->
  forall out, substitute f l = Ok out -> occurrences c out <= occurrences c (restore l).
Proof.
  intros Hf. induction l as [|[x|h] l IH]; intros out Hs; simpl in Hs.
  - assert (Hout : out = []) by congruence. subst out. simpl. lia.
  - destruct (substitute f l) as [r| |]; simpl in Hs; try discriminate.
    assert (Hout : out = x :: r) by congruence. subst out.
    change (restore (Lit x :: l)) with ([x] ++ restore l).
    change (x :: r) with ([x] ++ r). rewrite !occurrences_app.
    specialize (IH r eq_refl). lia.
  - destruct (f h) as [y| |] eqn:Hh; simpl in Hs; try discriminate.
    destruct (substitute f l) as [r| |]; simpl in Hs; try discriminate.
    assert (Hout : out = y ++ r) by congruence. subst out.
    change (restore (Hit h :: l)) with (matched h ++ restore l).
    rewrite !occurrences_app. rewrite (@occurrences_none c y (Hf h y Hh)).
    specialize (IH r eq_refl). lia.
Qed.

Lemma execAll_none (l : list piece) :
  flat_map (fun pc => match pc with Hit h => [h] | Lit _ => [] end) l = [] ->
  forall h, ~ In (Hit h) l.
Proof.
  induction l as [|[c|h0] l IH]; simpl; intros Hnil h Hin.
  - exact Hin.
  - destruct Hin as [Heq|Hin]; [discriminate|]. exact (IH Hnil h Hin).
  - discriminate.
Qed.

(** X3: the escaped form of interpolation cannot add markup.  The text
    [escapeHtml] returns holds no [<], [>] or quote, and neither does what a
    double-delimited expression is replaced by; so the escaped sub-pass, and
    the whole of [interpolate] on a text without a triple-delimited
    expression, return a text with no more of these than the text had. *)
Theorem X3_escaped_output_adds_no_markup (H : Host) :
  (forall s c, isMarkup c = true -> ~ In c (escapeHtml s)) /\
  (forall data h out c,
      mustacheCallback H data h = Ok out -> isMarkup c = true -> ~ In c out) /\
  (forall html data out c,
      replaceWith mustacheRegex html (mustacheCallback H data) = Ok out ->
      isMarkup c = true ->
      occurrences c out <= occurrences c html) /\
  (forall html data out c,
      execAll tripleRegex html = [] ->
      interpolate H html data = Ok out ->
      isMarkup c = true ->
      occurrences c out <= occurrences c html).
Proof.
  assert (Hpass : forall html data out c,
             replaceWith mustacheRegex html (mustacheCallback H data) = Ok out ->
             isMarkup c = true ->
             occurrences c out <= occurrences c html).
  { intros html data out c Hr Hc. unfold replaceWith in Hr.
    rewrite <- (pieces_restore mustacheRegex html).
    apply (@substitute_occurrences _ (mustacheCallback H data) c _
             (fun h x Hx => @mustacheCallback_markup H data h x c Hx Hc) out Hr). }
  repeat split.
  - intros s c Hc. apply escapeHtml_markup. exact Hc.
  - intros data h out c Hcb Hc. exact (@mustacheCallback_markup H data h out c Hcb Hc).
  - exact Hpass.
  - intros html data out c Hnone Hi Hc. unfold interpolate, replaceWith in Hi.
    rewrite (@literal_pieces (pieces tripleRegex html) (@execAll_none _ Hnone)) in Hi.
    rewrite substitute_literals, pieces_restore in Hi. simpl in Hi.
    exact (Hpass html data out c Hi Hc).
Qed.

Lemma X3_escaped_output_witness :
  ~ In 60%N (escapeHtml (js "<b>")) /\
  occurrences 60 (js "&lt;b&gt; and <i>") <= occurrences 60 (js "{{ v }} and <i>").
Proof.
  destruct (X3_escaped_output_adds_no_markup sampleHost) as (Hesc & _ & _ & Hi).
  split.
  - apply Hesc. reflexivity.
  - apply (Hi (js "{{ v }} and <i>") (obj [("v", str "<b>")]%string)
              (js "&lt;b&gt; and <i>") 60%N); reflexivity.
Defined.

(** An entity stands for one code unit only. *)
Lemma escapeChar_injective (a b : jschar) (s t : jstr) :
  escapeChar a ++ s = escapeChar b ++ t -> a = b /\ s = t.
Proof.
  unfold escapeChar.
  destruct (N.eqb_spec a 38) as [->|Ha38];
    [|destruct (N.eqb_spec a 34) as [->|Ha34];
      [|destruct (N.eqb_spec a 39) as [->|Ha39];
        [|destruct (N.eqb_spec a 60) as [->|Ha60];
          [|destruct (N.eqb_spec a 62) as [->|Ha62]]]]];
  (destruct (N.eqb_spec b 38) as [->|Hb38];
    [|destruct (N.eqb_spec b 34) as [->|Hb34];
      [|destruct (N.eqb_spec b 39) as [->|Hb39];
        [|destruct (N.eqb_spec b 60) as [->|Hb60];
          [|destruct (N.eqb_spec b 62) as [->|Hb62]]]]]);
  simpl; intros Heq; inversion Heq; subst;
    first [split; reflexivity | congruence].
Qed.

(** X4: [escapeHtml] loses nothing: two texts with the same escaped text are
    the same text; it works code unit by code unit, so the escaped text of a
    concatenation is the concatenation of the escaped texts, and a text free
    of the five code units it replaces is returned as it is. *)
Theorem X4_escapeHtml_injective :
  (forall a b, escapeHtml a = escapeHtml b -> a = b) /\
  (forall a b, escapeHtml (a ++ b) = escapeHtml a ++ escapeHtml b) /\
  (forall s, (forall c, In c s -> isMarkup c = false /\ c <> 38%N) -> escapeHtml s = s).
Proof.
  repeat split.
  - intros a. rewrite escapeHtml_escapeChar.
    induction a as [|x a IH]; intros b Heq; rewrite escapeHtml_escapeChar in Heq.
    + destruct b as [|y b]; [reflexivity|]. exfalso.
      simpl in Heq. unfold escapeChar in Heq.
      repeat (destruct (N.eqb _ _); [discriminate|]). discriminate.
    + destruct b as [|y b].
      * exfalso. simpl in Heq. unfold escapeChar in Heq.
        repeat (destruct (N.eqb _ _); [discriminate|]). discriminate.
      * simpl in Heq. apply escapeChar_injective in Heq. destruct Heq as (-> & Heq).
        f_equal. apply IH. rewrite escapeHtml_escapeChar. exact Heq.
  - intros a b. rewrite !escapeHtml_escapeChar. apply flat_map_app.
  - intros s Hs. rewrite escapeHtml_escapeChar.
    induction s as [|x s IH]; [reflexivity|].
    simpl. rewrite IH; [|intros c Hc; apply Hs; right; exact Hc].
    destruct (Hs x (or_introl eq_refl)) as (Hm & Hamp).
    unfold isMarkup in Hm. apply orb_false_iff in Hm. destruct Hm as (Hm & H39).
    apply orb_false_iff in Hm. destruct Hm as (Hm & H34).
    apply orb_false_iff in Hm. destruct Hm as (H60 & H62).
    unfold escapeChar. rewrite H34, H39, H60, H62.
    apply N.eqb_neq in Hamp. rewrite Hamp. reflexivity.
Qed.

Lemma X4_escapeHtml_injective_witness :
  escapeHtml (js "a, b") = js "a, b" /\
  (escapeHtml (js "&lt;") = escapeHtml (js "<") -> js "&lt;" = js "<").
Proof.
  destruct X4_escapeHtml_injective as (Hinj & _ & Hplain).
  split.
  - apply Hplain. intros c Hin. vm_compute in Hin.
    repeat (destruct Hin as [Hin|Hin]; [subst c; split; [reflexivity | discriminate]|]).
    contradiction.
  - apply Hinj.
Defined.

(** ** What [render] throws *)

Lemma raises_bind {X A B} (m : outcome X A) (k : A -> outcome X B) (P : X -> Prop) :
  raises m P -> (forall a, m = Ok a -> raises (k a) P) -> raises (bind m k) P.
Proof.
  unfold raises. destruct m as [a|e|w]; simpl; intros Hm Hk e' He.
  - exact (Hk a eq_refl e' He).
  - assert (Heq : e = e') by congruence. subst e'. apply Hm. reflexivity.
  - discriminate.
Qed.

Lemma raises_ok {X A} (a : A) (P : X -> Prop) : raises (Ok a) P.
Proof. intros e He. discriminate. Qed.

Lemma raises_stuck {X A} (w : why) (P : X -> Prop) : raises (@Stuck X A w) P.
Proof. intros e He. discriminate. Qed.

Lemma toString_raises (v : value) : raises (toString v) (fun e => e = TypeError).
Proof.
  revert v. fix IH 1. intros v.
  destruct v as [| |[|]|n|s|items|[|] ps|name]; simpl; try apply raises_ok.
  - destruct n as [z|negative m e| |[|]|]; simpl;
      try apply raises_ok; try apply raises_stuck.
    destruct (safeInteger z); [apply raises_ok | apply raises_stuck].
  - induction items as [|x items IHitems]; [apply raises_ok|].
    apply raises_bind.
    + destruct (isNullish x); [apply raises_ok | apply IH].
    + intros s _. destruct items as [|y items]; [apply raises_ok|].
      apply raises_bind; [exact IHitems | intros r _; apply raises_ok].
  - destruct (_ || _); [apply raises_stuck|]. intros e He. congruence.
  - destruct (_ || _); [apply raises_stuck | apply raises_ok].
Qed.

Lemma lookupProperty_raises (H : Host) (o : value) (k : jstr) :
  raises (lookupProperty H o k) (fun e => e = TypeError).
Proof.
  destruct o as [| | | | | |[|] ps|]; simpl;
    try apply raises_ok; try apply raises_stuck; intros e He; congruence.
Qed.

Lemma modelled_raises {A} (o : option A) (P : js_exn -> Prop) : raises (modelled o) P.
Proof. destruct o; [apply raises_ok | apply raises_stuck]. Qed.

(** An operator on primitives throws nothing. *)
Lemma applyBinary_raises (op : binop) (a b : value) :
  raises (applyBinary op a b) (fun e => e = TypeError).
Proof.
  destruct op; simpl;
    try (apply raises_bind; [apply modelled_raises | intros r _; apply raises_ok]);
    try (apply raises_bind; [apply modelled_raises | intros x _];
         apply raises_bind; [apply modelled_raises | intros y _];
         apply raises_bind; [apply modelled_raises | intros n _; apply raises_ok]).
  unfold addValues. destruct (_ || _); [apply raises_stuck|].
  assert (Hjoin : raises (x <- toString a ;; y <- toString b ;; Ok (VStr (x ++ y)))
                         (fun e => e = TypeError)).
  { apply raises_bind; [apply toString_raises | intros x _].
    apply raises_bind; [apply toString_raises | intros y _; apply raises_ok]. }
  assert (Hsum : raises (x <- modelled (toNumber a) ;; y <- modelled (toNumber b) ;;
                         n <- modelled (numberAdd x y) ;; Ok (VNum n))
                        (fun e => e = TypeError)).
  { apply raises_bind; [apply modelled_raises | intros x _].
    apply raises_bind; [apply modelled_raises | intros y _].
    apply raises_bind; [apply modelled_raises | intros n _; apply raises_ok]. }
  destruct a, b; first [exact Hjoin | exact Hsum].
Qed.

Lemma eval_raises (H : Host) (scope : value) (fn : expr) :
  raises (eval H scope fn) (fun e => e = TypeError).
Proof.
  revert fn. fix IH 1. intros fn.
  destruct fn as [x|v|e' k|f arg|e'|a b|a b|e' k|e'|e'|op a b|c a b]; simpl.
  - unfold scopeGet. apply raises_bind; [apply lookupProperty_raises|].
    intros own _. destruct own; [apply raises_ok|].
    destruct (lookupGlobal H x); apply raises_ok.
  - apply raises_ok.
  - apply raises_bind; [apply IH | intros o _].
    apply raises_bind; [apply lookupProperty_raises | intros p _; apply raises_ok].
  - apply raises_bind; [apply IH | intros fv _].
    apply raises_bind.
    + destruct arg as [a|]; [apply IH | apply raises_ok].
    + intros _ _. destruct fv; try apply raises_stuck; intros e He; congruence.
  - apply raises_bind; [apply IH | intros v _; apply raises_ok].
  - apply raises_bind; [apply IH | intros v _].
    destruct (toBoolean v); [apply IH | apply raises_ok].
  - apply raises_bind; [apply IH | intros v _].
    destruct (toBoolean v); [apply raises_ok | apply IH].
  - apply raises_bind; [apply IH | intros o _].
    apply raises_bind; [apply IH | intros kv _].
    apply raises_bind; [apply toString_raises | intros key _].
    apply raises_bind; [apply lookupProperty_raises | intros p _; apply raises_ok].
  - apply raises_bind; [apply IH | intros v _].
    apply raises_bind; [apply modelled_raises | intros n _; apply raises_ok].
  - apply raises_bind; [apply IH | intros v _].
    apply raises_bind; [apply modelled_raises | intros n _; apply raises_ok].
  - apply raises_bind; [apply IH | intros x _].
    apply raises_bind; [apply IH | intros y _]. apply applyBinary_raises.
  - apply raises_bind; [apply IH | intros v _].
    destruct (toBoolean v); apply IH.
Qed.

Lemma newFunction_raises (expression : jstr) :
  raises (newFunction expression) (fun e => e = SyntaxError).
Proof.
  unfold newFunction. destruct (lex _ _) as [ts|]; [|apply raises_stuck].
  cbv zeta. destruct (parseCond _ _) as [e [|t rest]| | |];
    try apply raises_ok; try apply raises_stuck; intros e' He; congruence.
Qed.

(** [safeEval] throws its own error only, for a syntax or a type error. *)
Lemma safeEval_raises (H : Host) (E : TemplateEngine) (expression : jstr) (data : value) :
  raises (safeEval H expression data) (contentError E).
Proof.
  unfold safeEval. intros e He.
  destruct (fn <- newFunction expression ;; scope <- createEvalScope data ;; eval H scope fn)
    as [v|cause|w] eqn:Hbody; simpl in He; try discriminate.
  assert (Hc : cause = SyntaxError \/ cause = TypeError).
  { revert Hbody.
    apply (@raises_bind _ _ _ (newFunction expression)
             (fun fn => scope <- createEvalScope data ;; eval H scope fn)
             (fun c => c = SyntaxError \/ c = TypeError)).
    - intros c Hcause. left. exact (@newFunction_raises expression c Hcause).
    - intros fn _. apply raises_bind.
      + intros c Hcause. right. destruct data; simpl in Hcause; congruence.
      + intros scope _ c Hcause. right. exact (@eval_raises H scope fn c Hcause). }
  assert (Heq : e = ExpressionEvaluationError expression cause) by congruence.
  subst e. exact Hc.
Qed.

Lemma stringOf_raises (E : TemplateEngine) (v : value) :
  raises (stringOf v) (contentError E).
Proof.
  unfold stringOf. intros e He.
  destruct (toString v) as [s|cause|w] eqn:Hs; simpl in He; try discriminate.
  assert (Heq : e = HostError cause) by congruence. subst e.
  exact (@toString_raises v cause Hs).
Qed.

Lemma substitute_raises {X} (f : hit -> outcome X jstr) (l : list piece) (P : X -> Prop) :
  (forall h, raises (f h) P) -> raises (substitute f l) P.
Proof.
  intros Hf. induction l as [|[c|h] l IH]; simpl.
  - apply raises_ok.
  - apply raises_bind; [exact IH | intros r _; apply raises_ok].
  - apply raises_bind; [apply Hf | intros x _].
    apply raises_bind; [exact IH | intros r _; apply raises_ok].
Qed.

Lemma interpolate_raises (H : Host) (E : TemplateEngine) (html : jstr) (data : value) :
  raises (interpolate H html data) (contentError E).
Proof.
  unfold interpolate, replaceWith. apply raises_bind.
  - apply substitute_raises. intros h. unfold rawCallback.
    apply raises_bind; [apply safeEval_raises | intros v _].
    destruct (isNullish v); [apply raises_ok | apply stringOf_raises].
  - intros html1 _. apply substitute_raises. intros h. unfold mustacheCallback.
    apply raises_bind; [apply safeEval_raises | intros v _].
    destruct (isNullish v); [apply raises_ok|].
    apply raises_bind; [apply stringOf_raises | intros s _; apply raises_ok].
Qed.

Lemma parseAttributes_raises (H : Host) (E : TemplateEngine) (attrs : jstr) (data : value) :
  raises (parseAttributes H attrs data) (contentError E).
Proof.
  unfold parseAttributes. generalize (@nil (jstr * value)) as acc.
  induction (execAll attrRegex attrs) as [|m hits IH]; intros acc; simpl.
  - apply raises_ok.
  - apply raises_bind; [|intros acc' _; apply IH].
    destruct (matchFirst exprAttrRegex (group 2 m)) as [exprMatch|].
    + apply raises_bind; [apply safeEval_raises | intros v _].
      unfold setAttribute. destruct (jstr_eqb _ _); [apply raises_stuck | apply raises_ok].
    + unfold setAttribute. destruct (jstr_eqb _ _); [apply raises_stuck | apply raises_ok].
Qed.

Lemma substituteFlag_raises (f : hit -> result (jstr * bool)) (l : list piece)
      (P : error -> Prop) :
  (forall h, raises (f h) P) -> raises (substituteFlag f l) P.
Proof.
  intros Hf. induction l as [|[c|h] l IH]; simpl.
  - apply raises_ok.
  - apply raises_bind; [exact IH | intros [r d] _; apply raises_ok].
  - apply raises_bind; [apply Hf | intros [x d1] _].
    apply raises_bind; [exact IH | intros [r d2] _; apply raises_ok].
Qed.

Lemma includes_In (arr : list jstr) (s : jstr) : includes arr s = true <-> In s arr.
Proof.
  unfold includes. rewrite existsb_exists. split.
  - intros (x & Hin & Heq). destruct (jstr_eqb_spec s x) as [->|]; [exact Hin | discriminate].
  - intros Hin. exists s. split; [exact Hin | apply jstr_eqb_refl].
Qed.

Lemma goodStack_push (E : TemplateEngine) (renderStack : list jstr) (n : jstr) :
  goodStack E renderStack ->
  includes renderStack n = false ->
  mapHas n (templateNameToRecord E) = true ->
  goodStack E (renderStack ++ [n]).
Proof.
  intros (Hnodup & Hreg) Hnot Hhas. split.
  - apply NoDup_app; [exact Hnodup | constructor; [intros [] | constructor] |].
    intros x Hx [Heq|[]]. subst x.
    apply includes_In in Hx. congruence.
  - intros x Hx. apply in_app_or in Hx. destruct Hx as [Hx|[Heq|[]]].
    + apply Hreg. exact Hx.
    + subst x. exact Hhas.
Qed.

Section Careful.

Variable H : Host.
Variable E : TemplateEngine.
Variable rc self : pass.
Hypothesis rc_careful : careful E rc.
Hypothesis self_careful : careful E self.

Lemma loopPieces_raises data renderStack depth alias inner openTag closingTag rows :
  goodStack E renderStack ->
  forall index,
    raises (loopPieces rc data renderStack depth alias inner openTag closingTag rows index)
           (contentError E).
Proof.
  intros Hstack. induction rows as [|row rows IH]; intros index; simpl.
  - apply raises_ok.
  - apply raises_bind; [apply rc_careful; exact Hstack | intros body _].
    apply raises_bind; [apply IH | intros others _; apply raises_ok].
Qed.

Lemma applyLoops_level_careful : careful E (applyLoops_level H rc self).
Proof.
  intros html data renderStack depth Hstack. unfold applyLoops_level, replaceFlag.
  apply raises_bind.
  - apply substituteFlag_raises. intros h. unfold loopCallback.
    apply raises_bind; [apply safeEval_raises | intros v _].
    destruct v; try apply raises_ok.
    apply raises_bind; [apply loopPieces_raises; exact Hstack | intros out _; apply raises_ok].
  - intros [result d] _. destruct d; [apply self_careful; exact Hstack | apply raises_ok].
Qed.

Lemma applyConditionals_level_careful : careful E (applyConditionals_level H rc self).
Proof.
  intros html data renderStack depth Hstack. unfold applyConditionals_level, replaceFlag.
  apply raises_bind.
  - apply substituteFlag_raises. intros h. unfold conditionalCallback, safeEvalBoolean.
    apply raises_bind.
    + apply raises_bind; [apply safeEval_raises | intros v _; apply raises_ok].
    + intros c _. destruct (negb c); [apply raises_ok|].
      apply raises_bind; [apply rc_careful; exact Hstack | intros body _; apply raises_ok].
  - intros [result d] _. destruct d; [apply self_careful; exact Hstack | apply raises_ok].
Qed.

Lemma applyIncludes_level_careful : careful E (applyIncludes_level H E rc self).
Proof.
  intros html data renderStack depth Hstack. unfold applyIncludes_level, replaceFlag.
  apply raises_bind.
  - apply substituteFlag_raises. intros h. unfold includeCallback.
    destruct (mapHas _ _) eqn:Hhas; simpl; [|apply raises_ok].
    apply raises_bind; [apply parseAttributes_raises | intros attributes _].
    destruct (includes renderStack _) eqn:Hinc.
    + intros e He. assert (Heq : e = CyclicInclude
                                       (renderStack ++ [normalizeName E (group 1 h)]))
        by congruence.
      subst e. exists renderStack, (normalizeName E (group 1 h)).
      split; [reflexivity|]. split; [apply includes_In; exact Hinc | exact Hstack].
    + destruct (mapGet _ _); [|intros e He; assert (Heq : e = HostError TypeError)
                                 by congruence; subst e; reflexivity].
      apply raises_bind; [|intros body _; apply raises_ok].
      apply rc_careful. apply goodStack_push; assumption.
  - intros [result d] _. destruct d; [apply self_careful; exact Hstack | apply raises_ok].
Qed.

End Careful.

Lemma renderContent_level_careful (H : Host) (E : TemplateEngine) (P : passes) :
  careful E (loopsPass P) -> careful E (conditionalsPass P) -> careful E (includesPass P) ->
  careful E (renderContent_level H P).
Proof.
  intros Hl Hc Hi source data renderStack depth Hstack. unfold renderContent_level.
  destruct (Nat.ltb 50 depth).
  - intros e He. assert (Heq : e = RenderDepthExceeded) by congruence. subst e. exact I.
  - cbv zeta. apply raises_bind; [apply Hl; exact Hstack | intros html1 _].
    apply raises_bind; [apply Hc; exact Hstack | intros html2 _].
    apply raises_bind; [apply Hi; exact Hstack | intros html3 _].
    apply interpolate_raises.
Qed.

Lemma unfold_careful (H : Host) (E : TemplateEngine) (fuel : nat) :
  careful E (loopsPass (unfold H E fuel)) /\
  careful E (conditionalsPass (unfold H E fuel)) /\
  careful E (includesPass (unfold H E fuel)).
Proof.
  induction fuel as [|fuel (IHl & IHc & IHi)].
  - repeat split; intros html data renderStack depth _; apply raises_stuck.
  - pose proof (@renderContent_level_careful H E (unfold H E fuel) IHl IHc IHi) as Hrc.
    repeat split; cbn [unfold loopsPass conditionalsPass includesPass].
    + apply applyLoops_level_careful; assumption.
    + apply applyConditionals_level_careful; assumption.
    + apply applyIncludes_level_careful; assumption.
Qed.

Lemma renderContent_careful (H : Host) (E : TemplateEngine) (fuel : nat) :
  careful E (renderContent H E fuel).
Proof.
  unfold renderContent.
  destruct (unfold_careful H E fuel) as (Hl & Hc & Hi).
  apply renderContent_level_careful; assumption.
Qed.

Lemma goodStack_nil (E : TemplateEngine) : goodStack E [].
Proof. split; [constructor | intros n []]. Qed.

(** X5: [render] throws [Template not found] for the requested name exactly
    when the normalized name is not registered, whatever the template does:
    no include, loop or condition raises it. *)
Theorem X5_template_not_found (H : Host) (E : TemplateEngine) :
  (forall fuel templateName data,
      mapHas (normalizeName E templateName) (templateNameToRecord E) = false ->
      render H E fuel templateName data = Throw (TemplateNotFound templateName)) /\
  (forall fuel templateName data requested,
      render H E fuel templateName data = Throw (TemplateNotFound requested) ->
      requested = templateName /\
      mapHas (normalizeName E templateName) (templateNameToRecord E) = false) /\
  (forall fuel layoutName innerName data contentVarName,
      mapHas (normalizeName E innerName) (templateNameToRecord E) = false ->
      renderWithLayout H E fuel layoutName innerName data contentVarName
      = Throw (TemplateNotFound innerName)).
Proof.
  assert (Hmiss : forall fuel templateName data,
             mapHas (normalizeName E templateName) (templateNameToRecord E) = false ->
             render H E fuel templateName data = Throw (TemplateNotFound templateName)).
  { intros fuel templateName data Hhas. unfold render, mapHas in *.
    destruct (mapGet _ _); [discriminate | reflexivity]. }
  split; [exact Hmiss|]. split.
  - intros fuel templateName data requested Hr. unfold render in Hr. unfold mapHas.
    destruct (mapGet _ _) as [record|].
    + exfalso. exact (@renderContent_careful H E fuel _ _ _ _ (goodStack_nil E) _ Hr).
    + split; [congruence | reflexivity].
  - intros fuel layoutName innerName data contentVarName Hhas.
    unfold renderWithLayout. rewrite (Hmiss fuel innerName data Hhas). reflexivity.
Qed.

Lemma X5_template_not_found_witness :
  render sampleHost pageEngine 3 (js " Missing ") VNull
  = Throw (TemplateNotFound (js " Missing ")) /\
  (render sampleHost selfEngine 3 (js "b") VNull = Throw (TemplateNotFound (js "b")) ->
   js "b" = js "b" /\
   mapHas (normalizeName selfEngine (js "b")) (templateNameToRecord selfEngine) = false) /\
  renderWithLayout sampleHost layoutEngine 3 (js "nolayout") (js "nopage") VNull None
  = Throw (TemplateNotFound (js "nopage")).
Proof.
  destruct (X5_template_not_found sampleHost pageEngine) as (Hmiss & _ & _).
  destruct (X5_template_not_found sampleHost selfEngine) as (_ & Hfound & _).
  destruct (X5_template_not_found sampleHost layoutEngine) as (_ & _ & Hlayout).
  split; [|split].
  - apply Hmiss. reflexivity.
  - apply Hfound.
  - apply Hlayout. reflexivity.
Defined.

(** ** Names *)

Lemma trimStart_allSpace (ws s : jstr) :
  allSpace ws = true -> trimStart (ws ++ s) = trimStart s.
Proof.
  induction ws as [|c ws IH]; simpl; intros Hws; [reflexivity|].
  apply andb_true_iff in Hws. destruct Hws as (Hc & Hws). rewrite Hc. apply IH. exact Hws.
Qed.

Lemma trimStart_headTight (s : jstr) : headTight s -> trimStart s = s.
Proof. destruct s as [|c s]; simpl; [reflexivity | intros ->; reflexivity]. Qed.

Lemma trimStart_split (s : jstr) :
  exists ws, allSpace ws = true /\ s = ws ++ trimStart s /\ headTight (trimStart s).
Proof.
  induction s as [|c s (ws & Hws & Hs & Ht)].
  - exists []. repeat split.
  - simpl. destruct (is_space c) eqn:Hc.
    + exists (c :: ws). simpl. rewrite Hc, Hws. repeat split; [|exact Ht].
      f_equal. exact Hs.
    + exists []. repeat split. simpl. exact Hc.
Qed.

Lemma allSpace_rev (s : jstr) : allSpace s = true -> allSpace (rev s) = true.
Proof.
  unfold allSpace. rewrite !forallb_forall. intros Hs x Hx. apply Hs, in_rev, Hx.
Qed.

Lemma allSpace_app (a b : jstr) :
  allSpace a = true -> allSpace b = true -> allSpace (a ++ b) = true.
Proof. unfold allSpace. rewrite forallb_app. intros -> ->. reflexivity. Qed.

(** A text without white space at either end, between white space, is what
    [trim] returns. *)
Lemma trim_tight (ws core ws' : jstr) :
  allSpace ws = true -> allSpace ws' = true ->
  headTight core -> headTight (rev core) ->
  trim (ws ++ core ++ ws') = core.
Proof.
  intros Hws Hws' Hhead Htail. unfold trim.
  rewrite (@trimStart_allSpace ws _ Hws).
  destruct core as [|c core].
  - simpl. rewrite <- (app_nil_r ws'). rewrite (@trimStart_allSpace ws' _ Hws'). reflexivity.
  - rewrite (@trimStart_headTight ((c :: core) ++ ws') Hhead).
    rewrite rev_app_distr.
    rewrite (@trimStart_allSpace (rev ws') _ (@allSpace_rev ws' Hws')).
    rewrite (@trimStart_headTight _ Htail). apply rev_involutive.
Qed.

Lemma trim_split (s : jstr) :
  exists ws ws',
    allSpace ws = true /\ allSpace ws' = true /\
    headTight (trim s) /\ headTight (rev (trim s)) /\
    s = ws ++ trim s ++ ws'.
Proof.
  destruct (trimStart_split s) as (ws & Hws & Hs & Ht).
  destruct (trimStart_split (rev (trimStart s))) as (ws2 & Hws2 & Hs2 & Ht2).
  exists ws, (rev ws2). unfold trim.
  set (t := trimStart s) in *. set (u := trimStart (rev t)) in *.
  assert (Hrev : t = rev u ++ rev ws2).
  { rewrite <- rev_app_distr, <- Hs2. symmetry. apply rev_involutive. }
  split; [exact Hws|]. split; [apply allSpace_rev; exact Hws2|].
  split; [|split].
  - destruct (rev u) as [|c ru] eqn:Hru; [exact I|].
    rewrite Hrev in Ht. simpl in Ht. exact Ht.
  - rewrite rev_involutive. exact Ht2.
  - rewrite <- Hrev. exact Hs.
Qed.

Lemma trim_trim (s : jstr) : trim (trim s) = trim s.
Proof.
  destruct (trim_split s) as (ws & ws' & _ & _ & Hhead & Htail & _).
  rewrite <- (app_nil_r (trim s)) at 1.
  apply (@trim_tight [] (trim s) [] eq_refl eq_refl Hhead Htail).
Qed.

Lemma trim_padded (ws s ws' : jstr) :
  allSpace ws = true -> allSpace ws' = true -> trim (ws ++ s ++ ws') = trim s.
Proof.
  intros Hws Hws'.
  destruct (trim_split s) as (a & b & Ha & Hb & Hhead & Htail & Hs).
  rewrite Hs at 1.
  replace (ws ++ (a ++ trim s ++ b) ++ ws') with ((ws ++ a) ++ trim s ++ (b ++ ws'))
    by (rewrite <- !app_assoc; reflexivity).
  apply trim_tight; try assumption; apply allSpace_app; assumption.
Qed.

Lemma is_space_letter (c : jschar) : in_range 65 122 c = true -> is_space c = false.
Proof.
  unfold in_range, is_space. intros Hc.
  apply andb_true_iff in Hc. destruct Hc as (Hlo & Hhi).
  apply N.leb_le in Hlo, Hhi.
  repeat (apply orb_false_iff; split);
    try (apply N.eqb_neq; lia);
    apply andb_false_iff; first [left; apply N.leb_gt; lia | right; apply N.leb_gt; lia].
Qed.

Lemma is_space_lower (c : jschar) : is_space (lower_char c) = is_space c.
Proof.
  unfold lower_char. destruct (in_range 65 90 c) eqn:Hc; [|reflexivity].
  unfold in_range in Hc. apply andb_true_iff in Hc. destruct Hc as (Hlo & Hhi).
  apply N.leb_le in Hlo, Hhi.
  rewrite !is_space_letter; [reflexivity | |];
    unfold in_range; apply andb_true_iff; split; apply N.leb_le; lia.
Qed.

Lemma lower_lower (c : jschar) : lower_char (lower_char c) = lower_char c.
Proof.
  unfold lower_char. destruct (in_range 65 90 c) eqn:Hc; [|rewrite Hc; reflexivity].
  unfold in_range in *. apply andb_true_iff in Hc. destruct Hc as (Hlo & Hhi).
  apply N.leb_le in Hlo, Hhi.
  replace (N.leb (c + 32) 90) with false by (symmetry; apply N.leb_gt; lia).
  rewrite andb_false_r. reflexivity.
Qed.

Lemma trimStart_lower (s : jstr) : trimStart (toLowerCase s) = toLowerCase (trimStart s).
Proof.
  unfold toLowerCase. induction s as [|c s IH]; simpl; [reflexivity|].
  rewrite is_space_lower. destruct (is_space c); [exact IH | reflexivity].
Qed.

Lemma trim_lower (s : jstr) : trim (toLowerCase s) = toLowerCase (trim s).
Proof.
  unfold trim. rewrite trimStart_lower.
  unfold toLowerCase at 1. rewrite <- map_rev. fold (toLowerCase (rev (trimStart s))).
  rewrite trimStart_lower. unfold toLowerCase. rewrite map_rev. reflexivity.
Qed.

Lemma toLowerCase_twice (s : jstr) : toLowerCase (toLowerCase s) = toLowerCase s.
Proof.
  unfold toLowerCase. rewrite map_map. apply map_ext. intros c. apply lower_lower.
Qed.

Lemma normalizeName_twice (E : TemplateEngine) (n : jstr) :
  normalizeName E (normalizeName E n) = normalizeName E n.
Proof.
  unfold normalizeName. destruct (caseInsensitiveNames E).
  - rewrite <- trim_lower, toLowerCase_twice, trim_lower, trim_trim. reflexivity.
  - apply trim_trim.
Qed.

(** X7: what [normalizeName] does to a name.  White space around the name
    does not count; on ASCII names, normalizing twice is normalizing once
    and, when [caseInsensitiveNames] is set, two names that differ in the
    case of letters only are the same name; otherwise the case counts.
    [render] reads the name through [normalizeName] only: two names with one
    normal form that is registered render the same. *)
Theorem X7_normalizeName (H : Host) (E : TemplateEngine) :
  (forall ws n ws',
      allSpace ws = true -> allSpace ws' = true ->
      normalizeName E (ws ++ n ++ ws') = normalizeName E n) /\
  (forall n, isAscii n = true ->
             normalizeName E (normalizeName E n) = normalizeName E n) /\
  (forall a b,
      caseInsensitiveNames E = true -> isAscii a = true -> isAscii b = true ->
      toLowerCase a = toLowerCase b ->
      normalizeName E a = normalizeName E b) /\
  (forall n, caseInsensitiveNames E = false -> normalizeName E n = trim n) /\
  (forall fuel a b data,
      normalizeName E a = normalizeName E b ->
      mapHas (normalizeName E a) (templateNameToRecord E) = true ->
      render H E fuel a data = render H E fuel b data).
Proof.
  split; [|split; [|split; [|split]]].
  - intros ws n ws' Hws Hws'. unfold normalizeName.
    rewrite (@trim_padded ws n ws' Hws Hws'). reflexivity.
  - intros n _. apply normalizeName_twice.
  - intros a b Hci _ _ Hab. unfold normalizeName. rewrite Hci.
    rewrite <- !trim_lower, Hab. reflexivity.
  - intros n Hci. unfold normalizeName. rewrite Hci. reflexivity.
  - intros fuel a b data Hab Hhas. unfold render. rewrite <- Hab.
    unfold mapHas in Hhas.
    destruct (mapGet _ _) as [record|]; [reflexivity | discriminate].
Qed.

Lemma X7_normalizeName_witness :
  normalizeName pageEngine (js "  " ++ js "List" ++ js " ") = normalizeName pageEngine (js "List") /\
  normalizeName pageEngine (normalizeName pageEngine (js " List")) = normalizeName pageEngine (js " List") /\
  normalizeName pageEngine (js "LIST") = normalizeName pageEngine (js "list") /\
  render sampleHost pageEngine 3 (js " NOPE") VNull = render sampleHost pageEngine 3 (js "nope") VNull.
Proof.
  destruct (X7_normalizeName sampleHost pageEngine) as (Hpad & Htwice & Hcase & _ & Hrender).
  split; [|split; [|split]].
  - apply Hpad; reflexivity.
  - apply Htwice. reflexivity.
  - apply Hcase; reflexivity.
  - apply Hrender; reflexivity.
Defined.

(** ** The registry as a map *)

Lemma mapGet_mapSet {V} (k k' : jstr) (v : V) (m : list (jstr * V)) :
  mapGet k' (mapSet k v m) = if jstr_eqb k' k then Some v else mapGet k' m.
Proof.
  induction m as [|[k0 v0] m IH]; simpl.
  - destruct (jstr_eqb k' k); reflexivity.
  - destruct (jstr_eqb_spec k k0) as [->|Hk]; simpl.
    + destruct (jstr_eqb k' k0); reflexivity.
    + rewrite IH. destruct (jstr_eqb_spec k' k0) as [->|Hk'].
      * rewrite jstr_eqb_neq by congruence. reflexivity.
      * reflexivity.
Qed.

Lemma mapSet_keys {V} (k : jstr) (v : V) (m : list (jstr * V)) :
  List.map fst (mapSet k v m)
  = if mapHas k m then List.map fst m else List.map fst m ++ [k].
Proof.
  unfold mapHas. induction m as [|[k0 v0] m IH]; simpl; [reflexivity|].
  destruct (jstr_eqb_spec k k0) as [->|Hk]; simpl; [reflexivity|].
  rewrite IH. destruct (mapGet k m); reflexivity.
Qed.

Lemma mapHas_In {V} (k : jstr) (m : list (jstr * V)) :
  mapHas k m = true <-> In k (List.map fst m).
Proof.
  unfold mapHas. induction m as [|[k0 v0] m IH]; simpl.
  - split; [discriminate | intros []].
  - destruct (jstr_eqb_spec k k0) as [->|Hk].
    + split; [left; reflexivity | reflexivity].
    + rewrite IH. split; [right; assumption | intros [Heq|Hin]; [congruence | exact Hin]].
Qed.

Lemma mapSet_NoDup {V} (k : jstr) (v : V) (m : list (jstr * V)) :
  NoDup (List.map fst m) -> NoDup (List.map fst (mapSet k v m)).
Proof.
  intros Hm. rewrite mapSet_keys. destruct (mapHas k m) eqn:Hhas; [exact Hm|].
  apply NoDup_app; [exact Hm | constructor; [intros [] | constructor] |].
  intros x Hx [Heq|[]]. subst x. apply mapHas_In in Hx. congruence.
Qed.

Lemma mapSet_In {V} (k k' : jstr) (v v' : V) (m : list (jstr * V)) :
  In (k', v') (mapSet k v m) -> (k', v') = (k, v) \/ In (k', v') m.
Proof.
  induction m as [|[k0 v0] m IH]; simpl.
  - intros [Heq|[]]. left. congruence.
  - destruct (jstr_eqb k k0); simpl.
    + intros [Heq|Hin]; [left; congruence | right; right; exact Hin].
    + intros [Heq|Hin]; [right; left; exact Heq|].
      destruct (IH Hin) as [Heq|Hin']; [left; exact Heq | right; right; exact Hin'].
Qed.

Lemma mapGet_In {V} (k : jstr) (v : V) (m : list (jstr * V)) :
  NoDup (List.map fst m) -> In (k, v) m -> mapGet k m = Some v.
Proof.
  induction m as [|[k0 v0] m IH]; simpl; intros Hnd Hin; [contradiction|].
  inversion Hnd as [|x l Hnotin Hnd']; subst.
  destruct Hin as [Heq|Hin].
  - assert (Hk : k0 = k) by congruence. assert (Hv : v0 = v) by congruence. subst.
    rewrite jstr_eqb_refl. reflexivity.
  - destruct (jstr_eqb_spec k k0) as [->|Hk].
    + exfalso. apply Hnotin. apply in_map_iff. exists (k0, v). split; [reflexivity | exact Hin].
    + apply IH; assumption.
Qed.

(** The live map after a sequence of [set] calls from the empty map. *)
Lemma sets_invariant (P : jstr -> TemplateRecord -> Prop)
      (sets : list (jstr * TemplateRecord)) :
  Forall (fun kr => P (fst kr) (snd kr)) sets ->
  forall m,
    NoDup (List.map fst m) -> (forall k r, In (k, r) m -> P k r) ->
    let m' := fold_left (fun m kr => mapSet (fst kr) (snd kr) m) sets m in
    NoDup (List.map fst m') /\ (forall k r, In (k, r) m' -> P k r).
Proof.
  induction 1 as [|[k0 r0] sets Hkr Hsets IH]; intros m Hnd Hm; simpl.
  - split; assumption.
  - apply IH.
    + apply mapSet_NoDup. exact Hnd.
    + intros k r Hin. apply mapSet_In in Hin. destruct Hin as [Heq|Hin].
      * assert (Hk : k = k0) by congruence. assert (Hr : r = r0) by congruence.
        subst. exact Hkr.
      * apply Hm. exact Hin.
Qed.

(** ** Scanning the directories *)

Lemma scriptedBy_skip P : scriptedBy P (fun st => (st, Ok tt)).
Proof. exists [], (Ok tt). split; [constructor | reflexivity]. Qed.

Lemma scriptedBy_throw P (e : error) : scriptedBy P (fun st => (st, Throw e)).
Proof. exists [], (Throw e). split; [constructor | reflexivity]. Qed.

Lemma scriptedBy_then P (f g : store -> store * result unit) :
  scriptedBy P f -> scriptedBy P g ->
  scriptedBy P (fun st => match f st with
                          | (st', Ok _) => g st'
                          | (st', Throw e) => (st', Throw e)
                          | (st', Stuck w) => (st', Stuck w)
                          end).
Proof.
  intros (sf & rf & Pf & Hf) (sg & rg & Pg & Hg).
  destruct rf as [[]|e|w].
  - exists (sf ++ sg), rg. split; [apply Forall_app; split; assumption|].
    intros st. rewrite Hf, Hg, applySets_app. reflexivity.
  - exists sf, (Throw e). split; [exact Pf|]. intros st. rewrite Hf. reflexivity.
  - exists sf, (Stuck w). split; [exact Pf|]. intros st. rewrite Hf. reflexivity.
Qed.

Section Scans.

Variable F : NodeFs.
Variable E : TemplateEngine.
Variable P : jstr -> TemplateRecord -> Prop.
Hypothesis file_scriptedBy :
  forall fullPath entryName raw, scriptedBy P (scanFile F E fullPath entryName raw).

Lemma scanEntry_scriptedBy (node : fsNode) :
  forall directory entryName, scriptedBy P (scanEntry F E directory entryName node).
Proof.
  revert node. fix IH 1. intros [raw|entries] directory entryName.
  - apply file_scriptedBy.
  - cbn [scanEntry].
    generalize (pathJoin F directory entryName) as fullPath. intros fullPath.
    revert entries. fix IHes 1. intros [|[n sub] es].
    + apply scriptedBy_skip.
    + apply (scriptedBy_then (IH sub fullPath n) (IHes es)).
Qed.

Lemma scanEntries_scriptedBy directory es : scriptedBy P (scanEntries F E directory es).
Proof.
  induction es as [|[n sub] es IH].
  - apply scriptedBy_skip.
  - apply (scriptedBy_then (scanEntry_scriptedBy sub directory n) IH).
Qed.

Lemma scanDirectories_scriptedBy dirs : scriptedBy P (scanDirectories F E dirs).
Proof.
  induction dirs as [|directory dirs IH].
  - apply scriptedBy_skip.
  - apply scriptedBy_then; [|exact IH].
    unfold scanDirectory.
    destruct (lookupPath F directory) as [[raw|entries]|].
    + apply scriptedBy_throw.
    + apply scanEntries_scriptedBy.
    + apply scriptedBy_skip.
Qed.

(** The registry [reload] leaves, whether it returns or throws: every
    record is one of [P], under a key of its own. *)
Lemma reloaded_invariant :
  NoDup (List.map fst (templateNameToRecord (reloaded F E))) /\
  forall k r, In (k, r) (templateNameToRecord (reloaded F E)) -> P k r.
Proof.
  destruct (scanDirectories_scriptedBy (directories E)) as (sets & outcome & Psets & Hscan).
  unfold reloaded, reload; simpl. rewrite Hscan; simpl.
  unfold mutate; simpl. rewrite current_applySets.
  apply (@sets_invariant P sets Psets []); [constructor | intros k r []].
Qed.

End Scans.

Lemma scanFile_scanned (F : NodeFs) (E : TemplateEngine) fullPath entryName raw :
  scriptedBy (scanned E) (scanFile F E fullPath entryName raw).
Proof.
  unfold scanFile.
  destruct (negb _); [apply scriptedBy_skip|].
  destruct raw as [raw|]; [|apply scriptedBy_throw].
  eexists [(_, _)], (Ok tt). split; [|intros st; reflexivity].
  constructor; [|constructor]. split; [reflexivity|]. eexists. reflexivity.
Qed.

Lemma reloaded_scanned (F : NodeFs) (E : TemplateEngine) :
  NoDup (List.map fst (templateNameToRecord (reloaded F E))) /\
  forall k r, In (k, r) (templateNameToRecord (reloaded F E)) -> scanned E k r.
Proof. exact (@reloaded_invariant F E (scanned E) (scanFile_scanned F E)). Qed.

(** X8: the registry [reload] leaves, whether the scan returns or throws on
    the way, is a map whose keys are normalized names, each once, and whose
    records carry their key as [name]; so [get] of a key returns its record.
    [set] replaces the record of a name already registered and leaves the
    other names alone: of two files with one normalized name the one scanned
    later is the one registered. *)
Theorem X8_registry_after_reload (F : NodeFs) (E : TemplateEngine) :
  NoDup (List.map fst (templateNameToRecord (reloaded F E))) /\
  (forall k r,
      In (k, r) (templateNameToRecord (reloaded F E)) ->
      mapGet k (templateNameToRecord (reloaded F E)) = Some r /\
      name r = k /\ exists n, k = normalizeName E n) /\
  (forall fullPath entryName raw st k,
      existsb (fun ext => endsWith (toLowerCase entryName) ext) (extensions E) = true ->
      let normalizedName :=
        normalizeName E (match extractTemplateName E raw with
                         | Some n => n
                         | None => baseNameWithoutExt F entryName
                         end) in
      snd (scanFile F E fullPath entryName (Some raw) st) = Ok tt /\
      mapGet k (current (fst (scanFile F E fullPath entryName (Some raw) st)))
      = if jstr_eqb k normalizedName
        then Some {| name := normalizedName; filePath := fullPath; content := raw |}
        else mapGet k (current st)).
Proof.
  destruct (@reloaded_invariant F E (scanned E) (scanFile_scanned F E)) as (Hnd & Hall).
  split; [exact Hnd|]. split.
  - intros k r Hin. split; [apply mapGet_In; assumption | apply Hall; exact Hin].
  - intros fullPath entryName raw st k Hext normalizedName.
    unfold scanFile. rewrite Hext. simpl. split; [reflexivity|].
    apply mapGet_mapSet.
Qed.

Lemma X8_registry_after_reload_witness :
  mapGet (js "a") (templateNameToRecord (reloaded (sampleFs None) (engineOf oldRegistry)))
  = Some {| name := js "a"; filePath := js "views/a.html"; content := js "<p>new a</p>" |} /\
  mapGet (js "b")
    (current (fst (scanFile (sampleFs None) (engineOf oldRegistry) (js "views/B.HTML")
                            (js "B.HTML") (Some (js "<p>b</p>")) [oldRegistry])))
  = Some {| name := js "b"; filePath := js "views/B.HTML"; content := js "<p>b</p>" |}.
Proof.
  destruct (X8_registry_after_reload (sampleFs None) (engineOf oldRegistry))
    as (_ & Hrecords & Hset).
  split.
  - apply (Hrecords (js "a")). vm_compute. left. reflexivity.
  - destruct (Hset (js "views/B.HTML") (js "B.HTML") (js "<p>b</p>") [oldRegistry] (js "b")
                   eq_refl) as (_ & Hget).
    exact Hget.
Defined.

(** ** Extensions *)

Lemma skipn_In {A} (n : nat) (l : list A) (x : A) : In x (skipn n l) -> In x l.
Proof.
  revert l; induction n as [|n IH]; intros [|y l]; simpl; auto.
Qed.

Lemma lower_char_not_upper (c : jschar) : in_range 65 90 (lower_char c) = false.
Proof.
  unfold lower_char. destruct (in_range 65 90 c) eqn:Hc; [|exact Hc].
  unfold in_range in *. apply andb_true_iff in Hc. destruct Hc as (Hlo & Hhi).
  apply N.leb_le in Hlo, Hhi. apply andb_false_iff. right. apply N.leb_gt. lia.
Qed.

Lemma endsWith_lower (s ext : jstr) :
  endsWith (toLowerCase s) ext = true -> existsb (in_range 65 90) ext = false.
Proof.
  unfold endsWith. intros He. apply andb_true_iff in He. destruct He as (_ & He).
  destruct (jstr_eqb_spec (skipn (length (toLowerCase s) - length ext) (toLowerCase s)) ext)
    as [Heq|]; [|discriminate].
  destruct (existsb (in_range 65 90) ext) eqn:Hex; [|reflexivity].
  apply existsb_exists in Hex. destruct Hex as (c & Hin & Hc).
  rewrite <- Heq in Hin. apply skipn_In in Hin.
  unfold toLowerCase in Hin. apply in_map_iff in Hin. destruct Hin as (x & <- & _).
  rewrite lower_char_not_upper in Hc. discriminate.
Qed.

(** X9: the file name is lower-cased before it is compared with the
    configured extensions, and the extensions are not: an extension with a
    capital ASCII letter matches no file, and an engine whose extensions all
    have one registers nothing. *)
Theorem X9_capital_extension_matches_nothing (F : NodeFs) (E : TemplateEngine) :
  (forall entryName ext,
      existsb (in_range 65 90) ext = true ->
      endsWith (toLowerCase entryName) ext = false) /\
  ((forall ext, In ext (extensions E) -> existsb (in_range 65 90) ext = true) ->
   templateNameToRecord (reloaded F E) = []).
Proof.
  assert (Hone : forall entryName ext,
             existsb (in_range 65 90) ext = true ->
             endsWith (toLowerCase entryName) ext = false).
  { intros entryName ext Hup.
    destruct (endsWith (toLowerCase entryName) ext) eqn:He; [|reflexivity].
    apply endsWith_lower in He. congruence. }
  split; [exact Hone|]. intros Hexts.
  assert (Hfile : forall fullPath entryName raw,
             scriptedBy (fun _ _ => False) (scanFile F E fullPath entryName raw)).
  { intros fullPath entryName raw. unfold scanFile.
    replace (existsb (fun ext => endsWith (toLowerCase entryName) ext) (extensions E))
      with false; [apply scriptedBy_skip|].
    symmetry. apply not_true_is_false. intros Hex.
    apply existsb_exists in Hex. destruct Hex as (ext & Hin & He).
    rewrite (Hone entryName ext (Hexts ext Hin)) in He. discriminate. }
  destruct (@reloaded_invariant F E (fun _ _ => False) Hfile) as (_ & Hall).
  destruct (templateNameToRecord (reloaded F E)) as [|[k r] m]; [reflexivity|].
  exfalso. apply (Hall k r). left. reflexivity.
Qed.

Lemma X9_capital_extension_witness :
  endsWith (toLowerCase (js "a.HTML")) (js ".HTML") = false /\
  templateNameToRecord (reloaded (sampleFs None) capitalEngine) = [].
Proof.
  destruct (X9_capital_extension_matches_nothing (sampleFs None) capitalEngine)
    as (Hone & Hall).
  split.
  - apply Hone. reflexivity.
  - apply Hall. intros ext [<-|[]]. reflexivity.
Defined.

(** ** Sorting *)

Lemma jstr_leb_total (a b : jstr) : jstr_leb a b = false -> jstr_leb b a = true.
Proof.
  revert b; induction a as [|x a IH]; intros [|y b]; simpl; try discriminate; auto.
  intros Hab. apply orb_false_iff in Hab. destruct Hab as (Hlt & Heq).
  apply N.ltb_ge in Hlt.
  destruct (N.eqb_spec x y) as [->|Hne].
  - simpl in Heq. rewrite N.eqb_refl, (IH b Heq). apply orb_true_r.
  - replace (N.ltb y x) with true by (symmetry; apply N.ltb_lt; lia). reflexivity.
Qed.

Lemma insertSorted_perm (x : jstr) (l : list jstr) : Permutation (insertSorted x l) (x :: l).
Proof.
  induction l as [|y l IH]; simpl; [reflexivity|].
  destruct (jstr_leb x y); [reflexivity|].
  rewrite IH. apply perm_swap.
Qed.

Lemma sort_perm (l : list jstr) : Permutation (sort l) l.
Proof.
  induction l as [|x l IH]; simpl; [reflexivity|].
  rewrite insertSorted_perm. constructor. exact IH.
Qed.

Lemma insertSorted_sorted (x : jstr) (l : list jstr) :
  Sorted (fun a b => jstr_leb a b = true) l ->
  Sorted (fun a b => jstr_leb a b = true) (insertSorted x l).
Proof.
  induction 1 as [|y l Hl IH Hhd]; simpl.
  - repeat constructor.
  - destruct (jstr_leb x y) eqn:Hxy.
    + constructor; [constructor; assumption | constructor; exact Hxy].
    + constructor; [exact IH|].
      destruct l as [|z l]; simpl.
      * constructor. apply jstr_leb_total. exact Hxy.
      * destruct (jstr_leb x z).
        -- constructor. apply jstr_leb_total. exact Hxy.
        -- inversion Hhd; subst. constructor. assumption.
Qed.

Lemma sort_sorted (l : list jstr) : Sorted (fun a b => jstr_leb a b = true) (sort l).
Proof.
  induction l as [|x l IH]; simpl; [constructor | apply insertSorted_sorted; exact IH].
Qed.

(** X10: [listTemplateNames] returns the registered names in the order of
    their code units, none left out or added.  After [reload] every name is
    listed once, and rendering a listed ASCII name finds its template. *)
Theorem X10_listTemplateNames (H : Host) (F : NodeFs) (E : TemplateEngine) :
  Sorted (fun a b => jstr_leb a b = true) (listTemplateNames E) /\
  Permutation (listTemplateNames E) (List.map fst (templateNameToRecord E)) /\
  (forall n, In n (listTemplateNames E) <-> mapHas n (templateNameToRecord E) = true) /\
  NoDup (listTemplateNames (reloaded F E)) /\
  (forall n fuel data requested,
      In n (listTemplateNames (reloaded F E)) -> isAscii n = true ->
      render H (reloaded F E) fuel n data <> Throw (TemplateNotFound requested)).
Proof.
  assert (Hperm : forall E', Permutation (listTemplateNames E')
                                         (List.map fst (templateNameToRecord E')))
    by (intros E'; apply sort_perm).
  assert (Hin : forall E' n, In n (listTemplateNames E')
                             <-> mapHas n (templateNameToRecord E') = true).
  { intros E' n. rewrite mapHas_In. split; apply Permutation_in;
      [apply Hperm | symmetry; apply Hperm]. }
  destruct (reloaded_scanned F E) as (Hnd & Hall).
  split; [apply sort_sorted|]. split; [apply Hperm|]. split; [apply Hin|]. split.
  - apply (Permutation_NoDup (l := List.map fst (templateNameToRecord (reloaded F E))));
      [symmetry; apply Hperm | exact Hnd].
  - intros n fuel data requested Hn _ Hr.
    apply (Hin (reloaded F E)) in Hn.
    assert (Hkey : normalizeName (reloaded F E) n = n).
    { apply mapHas_In, in_map_iff in Hn. destruct Hn as ([k r] & Hk & Hkr).
      simpl in Hk. subst k. destruct (Hall n r Hkr) as (_ & m & Hm).
      change (normalizeName (reloaded F E) n) with (normalizeName E n).
      rewrite Hm. apply normalizeName_twice. }
    unfold render in Hr. rewrite Hkey in Hr. unfold mapHas in Hn.
    destruct (mapGet n (templateNameToRecord (reloaded F E))) as [record|];
      [|discriminate].
    exact (@renderContent_careful H (reloaded F E) fuel _ _ _ _
             (goodStack_nil (reloaded F E)) _ Hr).
Qed.

Lemma X10_listTemplateNames_witness :
  render sampleHost (reloaded (sampleFs (Some (js "b"))) (engineOf oldRegistry)) 2
         (js "b") VNull
  <> Throw (TemplateNotFound (js "b")).
Proof.
  destruct (X10_listTemplateNames sampleHost (sampleFs (Some (js "b"))) (engineOf oldRegistry))
    as (_ & _ & _ & _ & Hlisted).
  apply Hlisted; [vm_compute; right; left; reflexivity | reflexivity].
Defined.

(** ** The chain of a cyclic include *)



(** ** Property lists *)

Lemma assoc_None_keys (k : jstr) (l : props) :
  ~ In k (List.map fst l) -> assoc k l = None.
Proof.
  induction l as [|[k0 v0] l IH]; simpl; intros Hno; [reflexivity|].
  destruct (jstr_eqb_spec k k0) as [->|Hk].
  - exfalso. apply Hno. left. reflexivity.
  - apply IH. intros Hin. apply Hno. right. exact Hin.
Qed.

(** [{...target, ...source}]: a property of the source shadows the one of
    the target. *)
Lemma assoc_assign (k : jstr) (source : props) :
  NoDup (List.map fst source) ->
  forall target,
    assoc k (assign target source) = orElse (assoc k source) (assoc k target).
Proof.
  unfold assign. induction source as [|[k0 v0] source IH]; intros Hnd target; simpl.
  - reflexivity.
  - inversion Hnd as [|x l Hnotin Hnd']; subst.
    rewrite (IH Hnd'), assoc_define.
    destruct (jstr_eqb_spec k k0) as [->|Hk]; [|reflexivity].
    rewrite (@assoc_None_keys k0 source Hnotin). reflexivity.
Qed.

Lemma define_keys (k : jstr) (v : value) (l : props) :
  List.map fst (define k v l)
  = if hasOwn k l then List.map fst l else List.map fst l ++ [k].
Proof.
  unfold hasOwn. induction l as [|[k0 v0] l IH]; simpl; [reflexivity|].
  destruct (jstr_eqb_spec k k0) as [->|Hk]; simpl; [reflexivity|].
  rewrite IH. destruct (assoc k l); reflexivity.
Qed.

Lemma hasOwn_In (k : jstr) (l : props) : hasOwn k l = true <-> In k (List.map fst l).
Proof.
  unfold hasOwn. induction l as [|[k0 v0] l IH]; simpl.
  - split; [discriminate | intros []].
  - destruct (jstr_eqb_spec k k0) as [->|Hk].
    + split; [left; reflexivity | reflexivity].
    + rewrite IH. split; [right; assumption | intros [Heq|Hin]; [congruence | exact Hin]].
Qed.

Lemma define_NoDup (k : jstr) (v : value) (l : props) :
  NoDup (List.map fst l) -> NoDup (List.map fst (define k v l)).
Proof.
  intros Hl. rewrite define_keys. destruct (hasOwn k l) eqn:Hhas; [exact Hl|].
  apply NoDup_app; [exact Hl | constructor; [intros [] | constructor] |].
  intros x Hx [Heq|[]]. subst x. apply hasOwn_In in Hx. congruence.
Qed.

(** ** The constructor *)

(** X11: the constructor throws when the options are missing or name no
    directory, and otherwise returns an engine with the resolved
    directories, each option as given or, when left out, its default, and
    no template: until [reload] every [render] throws [Template not found].
    The options given are the ones the engine works with: names are
    lowercased unless [caseInsensitiveNames] is given as [false], and the
    scan registers the files of the given extensions only.
    [createTemplateEngine] throws what the constructor or the scan throws
    and otherwise returns the engine after [reload], which has the options
    of the constructor and a registry of records under their normalized
    names, each once. *)
Theorem X11_constructor (H : Host) (F : NodeFs) (resolve : jstr -> jstr) :
  (forall options,
      constructor resolve options = Throw NoDirectories <->
      match options with
      | None => True
      | Some o => Options.directories o = None \/ Options.directories o = Some []
      end) /\
  (forall options E,
      constructor resolve options = Ok E ->
      exists o d ds,
        options = Some o /\ Options.directories o = Some (d :: ds) /\
        directories E = resolve d :: List.map resolve ds /\
        extensions E
        = match Options.extensions o with
          | Some given => given
          | None => List.map js [".html"; ".htm"; ".tpl"; ".tpl.html"]%string
          end /\
        nameDirective E
        = match Options.nameDirectiveRegex o with
          | Some given => given
          | None => DEFAULT_NAME_DIRECTIVE
          end /\
        caseInsensitiveNames E
        = match Options.caseInsensitiveNames o with
          | Some given => given
          | None => true
          end /\
        (forall n,
            normalizeName E n
            = match Options.caseInsensitiveNames o with
              | Some false => trim n
              | _ => toLowerCase (trim n)
              end) /\
        templateNameToRecord E = [] /\
        listTemplateNames E = [] /\
        forall fuel templateName data,
          render H E fuel templateName data = Throw (TemplateNotFound templateName)) /\
  (forall d ds given directive flag,
      constructor resolve
        (Some {| Options.directories := Some (d :: ds);
                 Options.extensions := Some given;
                 Options.nameDirectiveRegex := Some directive;
                 Options.caseInsensitiveNames := Some flag |})
      = Ok {| directories := resolve d :: List.map resolve ds;
              extensions := given;
              nameDirective := directive;
              caseInsensitiveNames := flag;
              templateNameToRecord := [] |}) /\
  (forall d ds,
      constructor resolve
        (Some {| Options.directories := Some (d :: ds); Options.extensions := None;
                 Options.nameDirectiveRegex := None;
                 Options.caseInsensitiveNames := None |})
      = Ok {| directories := resolve d :: List.map resolve ds;
              extensions := List.map js [".html"; ".htm"; ".tpl"; ".tpl.html"]%string;
              nameDirective := DEFAULT_NAME_DIRECTIVE;
              caseInsensitiveNames := true;
              templateNameToRecord := [] |}) /\
  (forall options E',
      createTemplateEngine F resolve options = Ok E' <->
      exists E, constructor resolve options = Ok E /\
                snd (reload F E) = Ok tt /\ E' = reloaded F E) /\
  (forall options e,
      createTemplateEngine F resolve options = Throw (inr e) <->
      exists E, constructor resolve options = Ok E /\ snd (reload F E) = Throw e) /\
  (forall options e,
      createTemplateEngine F resolve options = Throw (inl e) <->
      constructor resolve options = Throw e) /\
  (forall options E',
      createTemplateEngine F resolve options = Ok E' ->
      exists E,
        constructor resolve options = Ok E /\
        directories E' = directories E /\ extensions E' = extensions E /\
        nameDirective E' = nameDirective E /\
        caseInsensitiveNames E' = caseInsensitiveNames E /\
        NoDup (List.map fst (templateNameToRecord E')) /\
        forall k r, In (k, r) (templateNameToRecord E') ->
                    name r = k /\ exists n, k = normalizeName E' n) /\
  (forall flag,
      List.map
        (fun given =>
           match createTemplateEngine (sampleFs (Some (js "<p>new b</p>"))) (fun d => d)
                   (Some {| Options.directories := Some [js "views"];
                            Options.extensions := given;
                            Options.nameDirectiveRegex := None;
                            Options.caseInsensitiveNames := flag |}) with
           | Ok E' =>
               Some (listTemplateNames E',
                     render H E' 3 (js " A ") VNull,
                     render H E' 3 (js "b") VNull)
           | _ => None
           end)
        [None; Some [js ".tpl"]; Some [js "b.html"]]
      = [Some ([js "a"; js "b"],
               match flag with
               | Some false => Throw (TemplateNotFound (js " A "))
               | _ => Ok (js "<p>new a</p>")
               end,
               Ok (js "<p>new b</p>"));
         Some ([], Throw (TemplateNotFound (js " A ")), Throw (TemplateNotFound (js "b")));
         Some ([js "b"], Throw (TemplateNotFound (js " A ")), Ok (js "<p>new b</p>"))]).
Proof.
  assert (Hcreate : forall options E',
             createTemplateEngine F resolve options = Ok E' <->
             exists E, constructor resolve options = Ok E /\
                       snd (reload F E) = Ok tt /\ E' = reloaded F E).
  { intros options E'. unfold createTemplateEngine.
    destruct (constructor resolve options) as [E|e|w]; split.
    + destruct (snd (reload F E)) as [[]|e|w] eqn:Hr; intros Heq; try discriminate.
      exists E. split; [reflexivity|]. split; [exact Hr | congruence].
    + intros (E0 & HE0 & Hr & ->). assert (HE : E = E0) by congruence. subst E0.
      rewrite Hr. reflexivity.
    + discriminate.
    + intros (E0 & HE0 & _). discriminate.
    + discriminate.
    + intros (E0 & HE0 & _). discriminate. }
  repeat match goal with |- _ /\ _ => split end.
  - intros [o|]; simpl; [|split; auto].
    destruct (Options.directories o) as [[|d ds]|]; split; intros Hc;
      try reflexivity; try discriminate; auto.
    destruct Hc; discriminate.
  - intros [o|] E; simpl; [|discriminate].
    destruct (Options.directories o) as [[|d ds]|] eqn:Hds; try discriminate.
    intros Heq. injection Heq as HE.
    exists o, d, ds. subst E. unfold normalizeName, orDefault.
    cbn [directories extensions nameDirective caseInsensitiveNames templateNameToRecord].
    repeat match goal with |- _ /\ _ => split end; try reflexivity; try assumption.
    intros n. destruct (Options.caseInsensitiveNames o) as [[|]|]; reflexivity.
  - intros d ds given directive flag. reflexivity.
  - intros d ds. reflexivity.
  - exact Hcreate.
  - intros options e. unfold createTemplateEngine.
    destruct (constructor resolve options) as [E|e0|w]; split.
    + destruct (snd (reload F E)) as [[]|e1|w] eqn:Hr; intros Heq; try discriminate.
      exists E. split; [reflexivity|]. rewrite Hr. congruence.
    + intros (E0 & HE0 & Hr). assert (HE : E = E0) by congruence. subst E0.
      rewrite Hr. reflexivity.
    + discriminate.
    + intros (E0 & HE0 & _). discriminate.
    + discriminate.
    + intros (E0 & HE0 & _). discriminate.
  - intros options e. unfold createTemplateEngine.
    destruct (constructor resolve options) as [E|e0|w]; split; try congruence.
    destruct (snd (reload F E)) as [[]|e1|w]; discriminate.
  - intros options E' Hok. apply Hcreate in Hok. destruct Hok as (E & HE & _ & ->).
    exists E. split; [exact HE|]. repeat split; try reflexivity.
    + exact (proj1 (reloaded_scanned F E)).
    + exact (proj1 (proj2 (reloaded_scanned F E) k r H0)).
    + exact (proj2 (proj2 (reloaded_scanned F E) k r H0)).
  - intros [[|]|]; vm_compute; reflexivity.
Qed.

Lemma X11_constructor_witness :
  constructor (fun d => js "/srv/" ++ d) None = Throw NoDirectories /\
  (exists E,
      constructor (fun d => d)
        (Some {| Options.directories := Some [js "views"];
                 Options.extensions := None;
                 Options.nameDirectiveRegex := None;
                 Options.caseInsensitiveNames := Some false |}) = Ok E /\
      List.map fst (templateNameToRecord
                      (reloaded (sampleFs (Some (js "<p>new b</p>"))) E))
      = [js "a"; js "b"]).
Proof.
  destruct (X11_constructor sampleHost (sampleFs (Some (js "<p>new b</p>"))) (fun d => d))
    as (Hthrow & _ & _ & _ & _ & _ & _ & Hafter & _).
  split.
  - destruct (X11_constructor sampleHost (sampleFs None) (fun d => js "/srv/" ++ d))
      as (Hnone & _).
    apply Hnone. exact I.
  - destruct (Hafter
                (Some {| Options.directories := Some [js "views"];
                         Options.extensions := None;
                         Options.nameDirectiveRegex := None;
                         Options.caseInsensitiveNames := Some false |})
                (reloaded (sampleFs (Some (js "<p>new b</p>")))
                   {| directories := [js "views"];
                      extensions := List.map js [".html"; ".htm"; ".tpl"; ".tpl.html"]%string;
                      nameDirective := DEFAULT_NAME_DIRECTIVE;
                      caseInsensitiveNames := false;
                      templateNameToRecord := [] |}) eq_refl)
      as (E & HE & _).
    exists E. split; [exact HE|].
    injection HE as <-. vm_compute. reflexivity.
Defined.

(** ** Includes *)

Lemma substituteFlag_stay (f : hit -> result (jstr * bool)) (l : list piece) :
  (forall h, In (Hit h) l -> f h = Ok (matched h, false)) ->
  substituteFlag f l = Ok (restore l, false).
Proof.
  induction l as [|[c|h] l IH]; intros Hf; simpl.
  - reflexivity.
  - rewrite IH; [reflexivity|]. intros h Hin. apply Hf. right. exact Hin.
  - rewrite (Hf h (or_introl eq_refl)). simpl.
    rewrite IH; [reflexivity|]. intros h' Hin. apply Hf. right. exact Hin.
Qed.

Lemma execAll_In (p : pattern) (s : jstr) (h : hit) :
  In (Hit h) (pieces p s) <-> In h (execAll p s).
Proof.
  unfold execAll. rewrite in_flat_map. split.
  - intros Hin. exists (Hit h). split; [exact Hin | left; reflexivity].
  - intros ([c|h'] & Hin & Hh); simpl in Hh; [contradiction|].
    destruct Hh as [->|[]]. exact Hin.
Qed.

Lemma parseAttributes_loop_NoDup (H : Host) (data : value) (hits : list hit) :
  forall acc attributes,
    NoDup (List.map fst acc) ->
    parseAttributes_loop H data hits acc = Ok attributes ->
    NoDup (List.map fst attributes).
Proof.
  induction hits as [|m hits IH]; intros acc attributes Hacc Hloop; simpl in Hloop.
  - assert (Heq : attributes = acc) by congruence. subst. exact Hacc.
  - destruct (matchFirst exprAttrRegex (group 2 m)) as [exprMatch|].
    + destruct (safeEval H (group 1 exprMatch) data) as [v| |]; simpl in Hloop;
        try discriminate.
      unfold setAttribute in Hloop. destruct (jstr_eqb _ _); simpl in Hloop;
        [discriminate|].
      apply (IH _ _ (@define_NoDup (group 1 m) v acc Hacc) Hloop).
    + unfold setAttribute in Hloop. destruct (jstr_eqb _ _); simpl in Hloop;
        [discriminate|].
      apply (IH _ _ (@define_NoDup (group 1 m) (VStr (group 2 m)) acc Hacc) Hloop).
Qed.

(** X12: what [applyIncludes] does with a self-closing element.  When no such
    element of the text names a registered template the text is returned as
    it is and the pass does not run again.  An element that names a
    registered template which is not on the render stack is replaced by the
    content of the template rendered one level deeper, with the name pushed
    on the stack, against the data overlaid with the attributes: an
    attribute shadows the data property of its name, the other properties
    are inherited. *)
Theorem X12_include_expansion (H : Host) (E : TemplateEngine) :
  (forall fuel html data renderStack depth,
      (forall h, In h (execAll includeTagRegex html) ->
                 mapHas (normalizeName E (group 1 h)) (templateNameToRecord E) = false) ->
      applyIncludes H E (S fuel) html data renderStack depth = Ok html) /\
  (forall rc data renderStack depth h record attributes,
      mapGet (normalizeName E (group 1 h)) (templateNameToRecord E) = Some record ->
      parseAttributes H (group 2 h) data = Ok attributes ->
      includes renderStack (normalizeName E (group 1 h)) = false ->
      includeCallback H E rc data renderStack depth h
      = (rendered <- rc (content record)
                        (VObj ProtoObject (assign (ownProps data) attributes))
                        (renderStack ++ [normalizeName E (group 1 h)]) (depth + 1) ;;
         Ok (rendered, true))) /\
  (forall attrs data attributes k,
      parseAttributes H attrs data = Ok attributes ->
      assoc k (assign (ownProps data) attributes)
      = match assoc k attributes with
        | Some v => Some v
        | None => assoc k (ownProps data)
        end).
Proof.
  split; [|split].
  - intros fuel html data renderStack depth Hnone.
    change (applyIncludes H E (S fuel)) with
      (applyIncludes_level H E (renderContent_level H (unfold H E fuel))
                           (applyIncludes H E fuel)).
    unfold applyIncludes_level, replaceFlag.
    rewrite substituteFlag_stay.
    + simpl. rewrite pieces_restore. reflexivity.
    + intros h Hin. unfold includeCallback.
      rewrite (Hnone h (proj1 (execAll_In _ _ h) Hin)). reflexivity.
  - intros rc data renderStack depth h record attributes Hget Hattrs Hstack.
    unfold includeCallback, mapHas. rewrite Hget, Hattrs. simpl. rewrite Hstack.
    reflexivity.
  - intros attrs data attributes k Hattrs.
    apply assoc_assign.
    apply (@parseAttributes_loop_NoDup H data (execAll attrRegex attrs) [] attributes);
      [constructor | exact Hattrs].
Qed.

Lemma X12_include_expansion_witness :
  applyIncludes sampleHost layoutEngine 1 (js "<br/><hr />") VNull [] 0
  = Ok (js "<br/><hr />") /\
  includeCallback sampleHost layoutEngine (fun html _ _ _ => Ok html)
    (obj [("k", VNum 4); ("title", str "old")]%string) [js "layout"] 0 cardHit
  = Ok (js "<p>Hi</p>", true) /\
  assoc (js "title")
    (assign (ownProps (obj [("k", VNum 4); ("title", str "old")]%string))
            [(js "title", str "T"); (js "n", VNum 4)])
  = Some (str "T").
Proof.
  destruct (X12_include_expansion sampleHost layoutEngine) as (Hstay & Hcallback & Hshadow).
  split; [|split].
  - apply Hstay. intros h Hin. vm_compute in Hin.
    destruct Hin as [<-|[<-|[]]]; reflexivity.
  - rewrite (Hcallback (fun html _ _ _ => Ok html) _ [js "layout"] 0 cardHit
                       {| name := js "page"; filePath := js "views/page.html";
                          content := js "<p>Hi</p>" |}
                       [(js "title", str "T"); (js "n", VNum 4)]); reflexivity.
  - apply (Hshadow (markup "title=`T` n=`{{ k }}`")
                   (obj [("k", VNum 4); ("title", str "old")]%string)).
    vm_compute. reflexivity.
Defined.

(** ** Texts no attribute pattern matches *)

Lemma match_at_without (icase : bool) (r : regex) (c : jschar) p s :
  needs c r = true -> caseless c = true -> ~ In c s -> match_at icase r p s = None.
Proof.
  intros Hn Hc Hs.
  destruct (match_at icase r p s) as [[n h]|] eqn:Hm; [|reflexivity].
  exfalso. apply Hs.
  pose proof (@spans_needs icase c r Hc _ Hn (@match_at_spans icase r p s n h Hm)) as Hin.
  unfold match_at in Hm. destruct (rmatch icase r _ Some) as [res|]; [|discriminate].
  assert (Hh : h = {| matched := firstn (pos res) s; groups := caps res |}) by congruence.
  subst h. simpl in Hin.
  rewrite <- (firstn_skipn (pos res) s). apply in_or_app. left. exact Hin.
Qed.

Lemma matchFirst_without (p : pattern) (c : jschar) (s : jstr) :
  needs c (source p) = true -> caseless c = true -> ~ In c s -> matchFirst p s = None.
Proof.
  intros Hn Hc. unfold matchFirst. generalize (@None jschar) as prev.
  induction s as [|x s IH]; intros prev Hs; simpl.
  - rewrite (@match_at_without _ _ c prev [] Hn Hc Hs). reflexivity.
  - rewrite (@match_at_without _ _ c prev (x :: s) Hn Hc Hs).
    apply IH. intros Hin. apply Hs. right. exact Hin.
Qed.

(** ** Conditions and the root scope *)



(** X14: the scope [render] builds for data that is an object.  Every own
    property of the data is a variable of its name, and [$root] is the data
    itself unless the data has an own property [$root], which then takes its
    place. *)
Theorem X14_root_scope_of_object (H : Host) (E : TemplateEngine) :
  forall p ps,
    NoDup (List.map fst ps) ->
    exists context,
      createRootDataProxy (VObj p ps) = VObj ProtoNull context /\
      (forall k,
          assoc k context
          = match assoc k ps with
            | Some v => Some v
            | None => if jstr_eqb k (js "$root") then Some (VObj p ps) else None
            end) /\
      (forall k v, assoc k ps = Some v ->
                   scopeGet H (createRootDataProxy (VObj p ps)) k = Ok v) /\
      (assoc (js "$root") ps = None ->
       scopeGet H (createRootDataProxy (VObj p ps)) (js "$root") = Ok (VObj p ps)) /\
      (forall fuel templateName,
          render H E fuel templateName (VObj p ps)
          = match mapGet (normalizeName E templateName) (templateNameToRecord E) with
            | Some record =>
                renderContent H E fuel (content record) (VObj ProtoNull context) [] 0
            | None => Throw (TemplateNotFound templateName)
            end).
Proof.
  intros p ps Hnd.
  exists (assign [(js "$root", VObj p ps)] ps).
  assert (Hctx : forall k,
             assoc k (assign [(js "$root", VObj p ps)] ps)
             = match assoc k ps with
               | Some v => Some v
               | None => if jstr_eqb k (js "$root") then Some (VObj p ps) else None
               end).
  { intros k. rewrite (@assoc_assign k ps Hnd). simpl.
    destruct (assoc k ps); reflexivity. }
  split; [reflexivity|]. split; [exact Hctx|]. split; [|split].
  - intros k v Hk. unfold scopeGet, createRootDataProxy. simpl.
    rewrite Hctx, Hk. reflexivity.
  - intros Hroot. unfold scopeGet, createRootDataProxy. simpl.
    rewrite Hctx, Hroot. reflexivity.
  - intros fuel templateName. unfold render.
    destruct (mapGet _ _); reflexivity.
Qed.

Lemma X14_root_scope_witness :
  exists context,
    createRootDataProxy (obj [("title", str "T"); ("$root", VNum 1)]%string)
    = VObj ProtoNull context /\
    assoc (js "$root") context = Some (VNum 1) /\
    assoc (js "title") context = Some (str "T").
Proof.
  destruct (X14_root_scope_of_object sampleHost pageEngine ProtoObject
              [(js "title", str "T"); (js "$root", VNum 1)])
    as (context & Hctx & Hassoc & _).
  - vm_compute. repeat constructor; intros Hin;
      repeat (destruct Hin as [Hin|Hin]; [discriminate Hin|]); exact Hin.
  - exists context. split; [exact Hctx|]. split; rewrite Hassoc; reflexivity.
Defined.

(** ** A match along the first choices

    The matcher tries the left branch of an alternative and the longer run of
    a greedy repetition first; a text on which each first choice succeeds is
    matched that way, whatever follows. *)

Lemma run_rest (st : mstate) (w tail : jstr) : rest (run st w tail) = tail.
Proof. revert st; induction w as [|c w IH]; intros st; simpl; [reflexivity | apply IH]. Qed.

Lemma run_pos (st : mstate) (w tail : jstr) : pos (run st w tail) = pos st + length w.
Proof.
  revert st; induction w as [|c w IH]; intros st; simpl; [lia|].
  rewrite IH. simpl. lia.
Qed.

Lemma run_caps (st : mstate) (w tail : jstr) : caps (run st w tail) = caps st.
Proof.
  revert st; induction w as [|c w IH]; intros st; simpl; [reflexivity|].
  rewrite IH. reflexivity.
Qed.

Lemma run_nil (st : mstate) (tail : jstr) : rest st = tail -> run st [] tail = st.
Proof. destruct st; simpl; intros ->; reflexivity. Qed.

Lemma run_app (st : mstate) (w1 w2 tail : jstr) :
  run st (w1 ++ w2) tail = run (run st w1 (w2 ++ tail)) w2 tail.
Proof.
  revert st; induction w1 as [|c w1 IH]; intros st; simpl.
  - destruct w2 as [|c2 w2]; reflexivity.
  - rewrite <- app_assoc. apply IH.
Qed.

Lemma leads_eps (icase : bool) (st : mstate) : leads icase REps st st.
Proof. intros k res Hk. exact Hk. Qed.

Lemma leads_lit (icase : bool) (x c : jschar) (st : mstate) (tail : jstr) :
  rest st = c :: tail -> canon icase c = canon icase x ->
  leads icase (RLit x) st (next st c tail).
Proof.
  intros Hrest Hc k res Hk. simpl. unfold step. rewrite Hrest, Hc, N.eqb_refl. exact Hk.
Qed.

Lemma leads_set (icase negated : bool) (items : list citem) (c : jschar)
      (st : mstate) (tail : jstr) :
  rest st = c :: tail -> set_matches icase negated items c = true ->
  leads icase (RSet negated items) st (next st c tail).
Proof.
  intros Hrest Hc k res Hk. simpl. unfold step. rewrite Hrest, Hc. exact Hk.
Qed.

Lemma leads_seq (icase : bool) (r1 r2 : regex) (st st1 st2 : mstate) :
  leads icase r1 st st1 -> leads icase r2 st1 st2 -> leads icase (RSeq r1 r2) st st2.
Proof. intros H1 H2 k res Hk. simpl. apply H1, H2, Hk. Qed.

Lemma leads_alt_l (icase : bool) (r1 r2 : regex) (st st' : mstate) :
  leads icase r1 st st' -> leads icase (RAlt r1 r2) st st'.
Proof. intros H1 k res Hk. simpl. rewrite (H1 k res Hk). reflexivity. Qed.

Lemma leads_alt_r (icase : bool) (r1 r2 : regex) (st st' : mstate) :
  fails icase r1 st -> leads icase r2 st st' -> leads icase (RAlt r1 r2) st st'.
Proof. intros H1 H2 k res Hk. simpl. rewrite (H1 k). simpl. apply H2, Hk. Qed.

Lemma leads_cap (icase : bool) (i : nat) (r : regex) (st : mstate) (w tail : jstr) :
  rest st = w ++ tail ->
  leads icase r st (run st w tail) ->
  leads icase (RCap i r) st (withGroup i w (run st w tail)).
Proof.
  intros Hrest Hr k res Hk. simpl. apply Hr.
  assert (Hw : firstn (pos (run st w tail) - pos st) (rest st) = w).
  { rewrite run_pos, Hrest.
    replace (pos st + length w - pos st) with (length w) by lia.
    rewrite firstn_app, firstn_all, Nat.sub_diag. simpl. apply app_nil_r. }
  rewrite Hw. exact Hk.
Qed.

Lemma leads_text (icase : bool) (w : jstr) :
  forall st tail, rest st = w ++ tail -> leads icase (seq (List.map RLit w)) st (run st w tail).
Proof.
  induction w as [|c w IH]; intros st tail Hrest.
  - simpl in Hrest. rewrite (run_nil st Hrest). apply leads_eps.
  - destruct w as [|c2 w].
    + apply (@leads_lit icase c c st tail Hrest eq_refl).
    + change (seq (List.map RLit (c :: c2 :: w)))
        with (RSeq (RLit c) (seq (List.map RLit (c2 :: w)))).
      apply leads_seq with (st1 := next st c ((c2 :: w) ++ tail)).
      * apply (@leads_lit icase c c st _ Hrest eq_refl).
      * apply IH. reflexivity.
Qed.

Lemma rmatch_set (icase negated : bool) (items : list citem) (st : mstate)
      (k : mstate -> option mstate) :
  rmatch icase (RSet negated items) st k
  = match step st (set_matches icase negated items) with
    | Some st' => k st'
    | None => None
    end.
Proof. reflexivity. Qed.

(** A greedy repetition over a set takes every code unit of the set ahead. *)
Lemma leads_greedy (icase negated : bool) (items : list citem) (min : nat)
      (w tail : jstr) (st : mstate) :
  rest st = w ++ tail ->
  forallb (set_matches icase negated items) w = true ->
  stopsAt (set_matches icase negated items) tail ->
  min <= length w ->
  leads icase (RQuant (RSet negated items) min true) st (run st w tail).
Proof.
  intros Hrest Hw Hstop Hmin k res Hk. cbn [rmatch].
  pose (loop :=
          fix loop (budget count : nat) (st : mstate) {struct budget} : option mstate :=
            match budget with
            | O => None
            | S budget' =>
                let more :=
                  rmatch icase (RSet negated items) st (fun st' =>
                    if Nat.eqb (pos st') (pos st) && Nat.leb min count then None
                    else loop budget' (S count) st') in
                let stop := if Nat.leb min count then k st else None in
                orElse more stop
            end).
  assert (Hunfold : forall budget count st,
             loop (S budget) count st
             = orElse (match step st (set_matches icase negated items) with
                       | Some st' =>
                           if Nat.eqb (pos st') (pos st) && Nat.leb min count then None
                           else loop budget (S count) st'
                       | None => None
                       end)
                      (if Nat.leb min count then k st else None))
    by reflexivity.
  assert (Hloop : forall w st count budget,
             rest st = w ++ tail ->
             forallb (set_matches icase negated items) w = true ->
             min <= count + length w ->
             length w < budget ->
             k (run st w tail) = Some res ->
             loop budget count st = Some res).
  { clear w st Hrest Hw Hmin Hk.
    induction w as [|c w IH]; intros st count budget Hrest Hw Hmin Hlen Hk;
      (destruct budget as [|budget]; [simpl in Hlen; lia|]); rewrite Hunfold.
    - unfold step. simpl in Hrest. rewrite Hrest.
      assert (Hnone : match tail with
                      | [] => None
                      | c :: r =>
                          if set_matches icase negated items c
                          then Some {| prev := Some c; rest := r; pos := S (pos st);
                                       caps := caps st |}
                          else None
                      end = @None mstate).
      { destruct tail as [|c r]; [reflexivity|]. simpl in Hstop. rewrite Hstop. reflexivity. }
      rewrite Hnone. simpl. simpl in Hmin.
      replace (Nat.leb min count) with true by (symmetry; apply Nat.leb_le; lia).
      rewrite <- (run_nil st Hrest). exact Hk.
    - simpl in Hw. apply andb_true_iff in Hw. destruct Hw as (Hc & Hw).
      unfold step. simpl in Hrest. rewrite Hrest, Hc. cbn [pos].
      replace (Nat.eqb (S (pos st)) (pos st)) with false
        by (symmetry; apply Nat.eqb_neq; lia).
      cbn [andb].
      rewrite (IH {| prev := Some c; rest := w ++ tail; pos := S (pos st); caps := caps st |}
                  (S count) budget eq_refl Hw).
      + reflexivity.
      + simpl in Hmin. lia.
      + simpl in Hlen. lia.
      + exact Hk. }
  apply (Hloop w st 0 (S (length (rest st)) + min) Hrest Hw).
  - lia.
  - rewrite Hrest, length_app. lia.
  - exact Hk.
Qed.

Lemma leads_end (icase : bool) (st : mstate) : rest st = [] -> leads icase REnd st st.
Proof. intros Hrest k res Hk. simpl. rewrite Hrest. exact Hk. Qed.

Lemma leads_start (icase : bool) (st : mstate) : prev st = None -> leads icase RStart st st.
Proof. intros Hprev k res Hk. simpl. rewrite Hprev. exact Hk. Qed.

(** A match from the start of [s]. *)
Lemma leads_match_at (icase : bool) (r : regex) (p : option jschar) (s : jstr)
      (st' : mstate) :
  leads icase r {| prev := p; rest := s; pos := 0; caps := [] |} st' ->
  match_at icase r p s
  = Some (pos st', {| matched := firstn (pos st') s; groups := caps st' |}).
Proof. intros Hr. unfold match_at. rewrite (Hr Some st' eq_refl). reflexivity. Qed.

Lemma run_explicit (w : jstr) :
  forall p tail n cs,
    run {| prev := p; rest := w ++ tail; pos := n; caps := cs |} w tail
    = {| prev := lastOr p w; rest := tail; pos := n + length w; caps := cs |}.
Proof.
  induction w as [|c w IH]; intros p tail n cs; simpl.
  - rewrite Nat.add_0_r. reflexivity.
  - unfold next. simpl. rewrite IH. f_equal. lia.
Qed.

Lemma at_text (icase : bool) (w : jstr) p tail n cs :
  leads icase (seq (List.map RLit w))
        {| prev := p; rest := w ++ tail; pos := n; caps := cs |}
        {| prev := lastOr p w; rest := tail; pos := n + length w; caps := cs |}.
Proof. rewrite <- run_explicit. apply leads_text. reflexivity. Qed.

Lemma at_greedy (icase negated : bool) (items : list citem) (min : nat) (w : jstr)
      p tail n cs :
  forallb (set_matches icase negated items) w = true ->
  stopsAt (set_matches icase negated items) tail ->
  min <= length w ->
  leads icase (RQuant (RSet negated items) min true)
        {| prev := p; rest := w ++ tail; pos := n; caps := cs |}
        {| prev := lastOr p w; rest := tail; pos := n + length w; caps := cs |}.
Proof.
  intros Hw Hstop Hmin. rewrite <- run_explicit.
  apply leads_greedy; [reflexivity | assumption | assumption | assumption].
Qed.

Lemma at_lit (icase : bool) (x c : jschar) p tail n cs :
  canon icase c = canon icase x ->
  leads icase (RLit x)
        {| prev := p; rest := c :: tail; pos := n; caps := cs |}
        {| prev := Some c; rest := tail; pos := S n; caps := cs |}.
Proof.
  intros Hc.
  apply (@leads_lit icase x c {| prev := p; rest := c :: tail; pos := n; caps := cs |}
                    tail eq_refl Hc).
Qed.

Lemma at_set (icase negated : bool) (items : list citem) (c : jschar) p tail n cs :
  set_matches icase negated items c = true ->
  leads icase (RSet negated items)
        {| prev := p; rest := c :: tail; pos := n; caps := cs |}
        {| prev := Some c; rest := tail; pos := S n; caps := cs |}.
Proof.
  intros Hc.
  apply (@leads_set icase negated items c
                    {| prev := p; rest := c :: tail; pos := n; caps := cs |} tail eq_refl Hc).
Qed.

Lemma at_cap (icase : bool) (i : nat) (r : regex) (w : jstr) p tail n cs p' n' cs' :
  leads icase r {| prev := p; rest := w ++ tail; pos := n; caps := cs |}
                {| prev := p'; rest := tail; pos := n'; caps := cs' |} ->
  n' = n + length w ->
  leads icase (RCap i r)
        {| prev := p; rest := w ++ tail; pos := n; caps := cs |}
        {| prev := p'; rest := tail; pos := n'; caps := (i, w) :: cs' |}.
Proof.
  intros Hr Hn k res Hk. simpl. apply Hr. simpl.
  replace (n' - n) with (length w) by lia.
  rewrite firstn_app, firstn_all, Nat.sub_diag. simpl. rewrite app_nil_r. exact Hk.
Qed.

Lemma at_match (icase : bool) (r : regex) (p : option jschar) (s : jstr) p' tail n cs :
  leads icase r {| prev := p; rest := s; pos := 0; caps := [] |}
                {| prev := p'; rest := tail; pos := n; caps := cs |} ->
  match_at icase r p s = Some (n, {| matched := firstn n s; groups := cs |}).
Proof. intros Hr. apply (leads_match_at Hr). Qed.

(** ** The name directive *)

(** White space under either setting of the [i] flag. *)
Lemma space_set (icase : bool) (w : jstr) :
  forallb (set_matches icase false [CSpace]) w = allSpace w.
Proof.
  unfold allSpace. induction w as [|c w IH]; simpl; [reflexivity|].
  rewrite IH. unfold set_matches. simpl. rewrite orb_false_r. reflexivity.
Qed.

Lemma canon_not (icase : bool) (c x : jschar) :
  caseless x = true -> c <> x -> N.eqb (canon icase c) (canon icase x) = false.
Proof.
  intros Hx Hne. apply N.eqb_neq. intros Heq. apply Hne.
  exact (@canon_caseless icase c x Hx Heq).
Qed.

(** A set that shuts out caseless code units takes every other one. *)
Lemma none_of_set (icase : bool) (xs : jstr) (w : jstr) :
  forallb caseless xs = true ->
  (forall c, In c w -> ~ In c xs) ->
  forallb (set_matches icase true (List.map CChar xs)) w = true.
Proof.
  intros Hxs Hw. apply forallb_forall. intros c Hc. unfold set_matches. simpl.
  apply negb_true_iff. apply not_true_is_false. intros Hex.
  apply existsb_exists in Hex. destruct Hex as (it & Hit & Hm).
  apply in_map_iff in Hit. destruct Hit as (x & <- & Hx). simpl in Hm.
  apply N.eqb_eq in Hm.
  assert (Hcx : caseless x = true) by (rewrite forallb_forall in Hxs; exact (Hxs x Hx)).
  pose proof (@canon_caseless icase c x Hcx Hm) as Hceq. subst c. exact (Hw x Hc Hx).
Qed.

Lemma search_first (icase : bool) (r : regex) (p : option jschar) (s : jstr) n h :
  match_at icase r p s = Some (n, h) -> search icase r p s = Some h.
Proof. intros Hm. destruct s; simpl; rewrite Hm; reflexivity. Qed.

(** The directive [<!-- @template name=Q n Q -->], with any white space
    where the pattern allows it, matched at the start of a text. *)
Lemma directive_named (ws1 ws2 ws3 ws4 ws5 n rest : jstr) :
  allSpace ws1 = true -> allSpace ws2 = true -> ws2 <> [] ->
  allSpace ws3 = true -> allSpace ws4 = true -> allSpace ws5 = true ->
  n <> [] -> ~ In 34%N n ->
  exists m,
    matchFirst DEFAULT_NAME_DIRECTIVE
      (js "<!--" ++ ws1 ++ js "@template" ++ ws2 ++ js "name" ++ ws3 ++ js "=" ++ ws4
          ++ [34%N] ++ n ++ [34%N] ++ ws5 ++ js "-->" ++ rest) = Some m /\
    group_opt 1 m = Some n.
Proof.
  intros H1 H2 H2' H3 H4 H5 Hn Hq.
  eexists. split; [|shelve].
  unfold matchFirst. eapply search_first. eapply at_match.
  change (source DEFAULT_NAME_DIRECTIVE) with
    (RSeq (text "<!--")
       (RSeq (star space)
          (RSeq (text "@template")
             (RSeq (RAlt (RSeq (plus space)
                           (RSeq (text "name")
                              (RSeq (star space)
                                 (RSeq (text "=")
                                    (RSeq (star space)
                                       (RSeq (RLit 34)
                                          (RSeq (RCap 1 (plus (RSet true [CChar 34])))
                                                (RLit 34))))))))
                         (seq [plus (RSet false [CChar 58; CSpace]);
                               RCap 2 (plus (RSet true [CChar 45; CChar 45; CChar 62]))]))
                   (RSeq (star space) (text "-->")))))).
  eapply leads_seq; [apply at_text|].
  eapply leads_seq;
    [apply at_greedy; [rewrite space_set; exact H1 | reflexivity | lia]|].
  eapply leads_seq; [apply at_text|].
  eapply leads_seq.
  - apply leads_alt_l.
    eapply leads_seq;
      [apply at_greedy;
       [rewrite space_set; exact H2 | reflexivity
        | destruct ws2; [congruence | simpl; lia]]|].
    eapply leads_seq; [apply at_text|].
    eapply leads_seq;
      [apply at_greedy; [rewrite space_set; exact H3 | reflexivity | lia]|].
    eapply leads_seq; [apply (@at_text true (js "="))|].
    eapply leads_seq;
      [apply at_greedy; [rewrite space_set; exact H4 | reflexivity | lia]|].
    eapply leads_seq; [apply at_lit; reflexivity|].
    eapply leads_seq.
    + apply at_cap; [|reflexivity].
      apply at_greedy.
      * apply (@none_of_set true [34%N] n eq_refl).
        intros c Hc [Heq|[]]. subst c. exact (Hq Hc).
      * reflexivity.
      * destruct n; [congruence | simpl; lia].
    + apply at_lit. reflexivity.
  - eapply leads_seq;
      [apply at_greedy; [rewrite space_set; exact H5 | reflexivity | lia]|].
    apply at_text.
  Unshelve. reflexivity.
Qed.

Lemma fails_plus (icase negated : bool) (items : list citem) (m : nat) (r2 : regex)
      (st : mstate) :
  stopsAt (set_matches icase negated items) (rest st) ->
  fails icase (RSeq (RQuant (RSet negated items) (S m) true) r2) st.
Proof.
  intros Hstop k. cbn [rmatch].
  replace (S (length (rest st)) + S m) with (S (length (rest st) + S m)) by lia.
  cbn -[orElse]. unfold step.
  destruct (rest st) as [|c tail]; [reflexivity|].
  simpl in Hstop. rewrite Hstop. reflexivity.
Qed.

Lemma stopsAt_spaces (ok : jschar -> bool) (ws : jstr) (c : jschar) (tail : jstr) :
  (forall x, is_space x = true -> ok x = false) -> allSpace ws = true -> ok c = false ->
  stopsAt ok (ws ++ c :: tail).
Proof.
  intros Hsp Hws Hc. destruct ws as [|x ws]; simpl; [exact Hc|].
  simpl in Hws. apply andb_true_iff in Hws. apply Hsp. apply Hws.
Qed.

Lemma spaces_in_set (icase : bool) (items : list citem) (ws : jstr) :
  In CSpace items -> allSpace ws = true ->
  forallb (set_matches icase false items) ws = true.
Proof.
  intros Hin Hws. unfold allSpace in Hws. rewrite forallb_forall in Hws.
  apply forallb_forall. intros x Hx. unfold set_matches. simpl.
  apply existsb_exists. exists CSpace. split; [exact Hin | exact (Hws x Hx)].
Qed.

Lemma not_in_none_of (icase : bool) (xs : jstr) (ws : jstr) :
  forallb caseless xs = true ->
  forallb (fun c => negb (existsb (N.eqb c) xs)) ws = true ->
  forallb (set_matches icase true (List.map CChar xs)) ws = true.
Proof.
  intros Hxs Hws. apply none_of_set; [exact Hxs|].
  rewrite forallb_forall in Hws. intros c Hc Hin.
  specialize (Hws c Hc). apply negb_true_iff in Hws.
  assert (Hex : existsb (N.eqb c) xs = true)
    by (apply existsb_exists; exists c; split; [exact Hin | apply N.eqb_refl]).
  congruence.
Qed.

Lemma space_not (x c : jschar) : is_space x = true -> is_space c = false -> x <> c.
Proof. intros Hx Hc ->. congruence. Qed.

(** The directive [<!-- @template: n -->]. *)
Lemma directive_colon (ws1 ws2 ws3 n rest : jstr) (c : jschar) :
  allSpace ws1 = true -> allSpace ws2 = true -> allSpace ws3 = true ->
  is_space c = false -> c <> 58%N ->
  (forall x, In x (c :: n) -> x <> 45%N /\ x <> 62%N) ->
  exists m,
    matchFirst DEFAULT_NAME_DIRECTIVE
      (js "<!--" ++ ws1 ++ js "@template" ++ ([58%N] ++ ws2) ++ ((c :: n) ++ ws3)
          ++ js "-->" ++ rest) = Some m /\
    group_opt 1 m = None /\ group_opt 2 m = Some ((c :: n) ++ ws3).
Proof.
  intros H1 H2 H3 Hc Hcolon Hn.
  eexists. split; [|shelve].
  unfold matchFirst. eapply search_first. eapply at_match.
  change (source DEFAULT_NAME_DIRECTIVE) with
    (RSeq (text "<!--")
       (RSeq (star space)
          (RSeq (text "@template")
             (RSeq (RAlt (RSeq (plus space)
                           (seq [text "name"; star space; text "="; star space; RLit 34;
                                 RCap 1 (plus (RSet true [CChar 34])); RLit 34]))
                         (RSeq (plus (RSet false [CChar 58; CSpace]))
                               (RCap 2 (plus (RSet true [CChar 45; CChar 45; CChar 62])))))
                   (RSeq (star space) (text "-->")))))).
  eapply leads_seq; [apply at_text|].
  eapply leads_seq;
    [apply at_greedy; [rewrite space_set; exact H1 | reflexivity | lia]|].
  eapply leads_seq; [apply at_text|].
  eapply leads_seq.
  - apply leads_alt_r; [apply fails_plus; reflexivity|].
    eapply leads_seq.
    + apply at_greedy.
      * rewrite forallb_app. apply andb_true_iff. split; [reflexivity|].
        apply spaces_in_set; [right; left; reflexivity | exact H2].
      * simpl. unfold set_matches. simpl. rewrite Hc.
        rewrite (@canon_not true c 58%N eq_refl Hcolon). reflexivity.
      * simpl. lia.
    + apply at_cap; [|reflexivity].
      apply at_greedy.
      * rewrite forallb_app. apply andb_true_iff. split.
        -- apply (@none_of_set true [45%N; 45%N; 62%N] (c :: n) eq_refl).
           intros x Hx [Heq|[Heq|[Heq|[]]]]; subst x; destruct (Hn _ Hx); congruence.
        -- apply (@none_of_set true [45%N; 45%N; 62%N] ws3 eq_refl).
           unfold allSpace in H3. rewrite forallb_forall in H3.
           intros x Hx [Heq|[Heq|[Heq|[]]]]; subst x;
             specialize (H3 _ Hx); discriminate H3.
      * reflexivity.
      * simpl. lia.
  - eapply leads_seq;
      [apply (@at_greedy true false [CSpace] 0 [] _ (js "-->" ++ rest) _ _);
       [reflexivity | reflexivity | simpl; lia]|].
    apply at_text.
  Unshelve. split; reflexivity.
Qed.

Lemma trim_nonempty (c : jschar) (n : jstr) : is_space c = false -> trim (c :: n) <> [].
Proof.
  intros Hc Hnil.
  destruct (trim_split (c :: n)) as (ws & ws' & Hws & Hws' & _ & _ & Hs).
  rewrite Hnil in Hs. simpl in Hs.
  assert (Hall : allSpace (c :: n) = true) by (rewrite Hs; apply allSpace_app; assumption).
  simpl in Hall. rewrite Hc in Hall. discriminate.
Qed.

Lemma normalizeName_trim (E : TemplateEngine) (n : jstr) :
  normalizeName E (trim n) = normalizeName E n.
Proof. unfold normalizeName. rewrite trim_trim. reflexivity. Qed.

(** X15: the name directive.  With the default pattern, a text that begins
    with [<!-- @template name=Q n Q -->], under any white space the pattern
    allows, names the template [n] trimmed, or no template when [n] is white
    space only; a text that begins with [<!-- @template: n -->], where [n]
    holds no hyphen and no [>], names it [n] trimmed; a text without [@]
    names none.  The file is registered under the normalized name with its
    whole text, directive included, as content; without a directive it is
    registered under the normalized base name of the file. *)
Theorem X15_name_directive (F : NodeFs) (E : TemplateEngine) :
  nameDirective E = DEFAULT_NAME_DIRECTIVE ->
  (forall ws1 ws2 ws3 ws4 ws5 n rest : jstr,
      allSpace ws1 = true -> allSpace ws2 = true -> ws2 <> [] ->
      allSpace ws3 = true -> allSpace ws4 = true -> allSpace ws5 = true ->
      n <> [] -> ~ In 34%N n ->
      extractTemplateName E
        (js "<!--" ++ ws1 ++ js "@template" ++ ws2 ++ js "name" ++ ws3 ++ js "=" ++ ws4
            ++ [34%N] ++ n ++ [34%N] ++ ws5 ++ js "-->" ++ rest)
      = if Nat.ltb 0 (length (trim n)) then Some (trim n) else None) /\
  (forall (ws1 ws2 ws3 : jstr) (c : jschar) (n rest : jstr),
      allSpace ws1 = true -> allSpace ws2 = true -> allSpace ws3 = true ->
      is_space c = false -> c <> 58%N ->
      (forall x, In x (c :: n) -> x <> 45%N /\ x <> 62%N) ->
      extractTemplateName E
        (js "<!--" ++ ws1 ++ js "@template" ++ ([58%N] ++ ws2) ++ ((c :: n) ++ ws3)
            ++ js "-->" ++ rest)
      = Some (trim (c :: n))) /\
  (forall content : jstr, ~ In 64%N content -> extractTemplateName E content = None) /\
  (forall (fullPath entryName : jstr) (st : store) (n rest : jstr),
      existsb (fun ext => endsWith (toLowerCase entryName) ext) (extensions E) = true ->
      n <> [] -> ~ In 34%N n -> trim n <> [] ->
      let raw := js "<!-- @template name=" ++ [34%N] ++ n ++ [34%N] ++ js " -->" ++ rest in
      mapGet (normalizeName E n)
             (current (fst (scanFile F E fullPath entryName (Some raw) st)))
      = Some {| name := normalizeName E n; filePath := fullPath; content := raw |}) /\
  (forall (fullPath entryName : jstr) (st : store) (raw : jstr),
      existsb (fun ext => endsWith (toLowerCase entryName) ext) (extensions E) = true ->
      ~ In 64%N raw ->
      let normalizedName := normalizeName E (baseNameWithoutExt F entryName) in
      mapGet normalizedName (current (fst (scanFile F E fullPath entryName (Some raw) st)))
      = Some {| name := normalizedName; filePath := fullPath; content := raw |}).
Proof.
  intros Hdirective.
  assert (Hnamed : forall ws1 ws2 ws3 ws4 ws5 n rest : jstr,
      allSpace ws1 = true -> allSpace ws2 = true -> ws2 <> [] ->
      allSpace ws3 = true -> allSpace ws4 = true -> allSpace ws5 = true ->
      n <> [] -> ~ In 34%N n ->
      extractTemplateName E
        (js "<!--" ++ ws1 ++ js "@template" ++ ws2 ++ js "name" ++ ws3 ++ js "=" ++ ws4
            ++ [34%N] ++ n ++ [34%N] ++ ws5 ++ js "-->" ++ rest)
      = if Nat.ltb 0 (length (trim n)) then Some (trim n) else None).
  { intros ws1 ws2 ws3 ws4 ws5 n rest H1 H2 H2' H3 H4 H5 Hn Hq.
    destruct (@directive_named ws1 ws2 ws3 ws4 ws5 n rest H1 H2 H2' H3 H4 H5 Hn Hq)
      as (m & Hm & Hg).
    unfold extractTemplateName. rewrite Hdirective, Hm, Hg. reflexivity. }
  assert (Hnone : forall content : jstr, ~ In 64%N content -> extractTemplateName E content = None).
  { intros content Hno. unfold extractTemplateName. rewrite Hdirective.
    rewrite (@matchFirst_without DEFAULT_NAME_DIRECTIVE 64%N content eq_refl eq_refl Hno).
    reflexivity. }
  split; [exact Hnamed|]. split; [|split; [exact Hnone|split]].
  - intros ws1 ws2 ws3 c n rest H1 H2 H3 Hc Hcolon Hn.
    destruct (@directive_colon ws1 ws2 ws3 n rest c H1 H2 H3 Hc Hcolon Hn)
      as (m & Hm & Hg1 & Hg2).
    unfold extractTemplateName. rewrite Hdirective, Hm, Hg1, Hg2.
    rewrite <- (app_nil_l ((c :: n) ++ ws3)).
    rewrite (@trim_padded [] (c :: n) ws3 eq_refl H3).
    destruct (trim (c :: n)) as [|x t] eqn:Ht; [|reflexivity].
    exfalso. exact (@trim_nonempty c n Hc Ht).
  - intros fullPath entryName st n rest Hext Hn Hq Htrim raw.
    assert (Hname : extractTemplateName E raw = Some (trim n)).
    { pose proof (@Hnamed [32%N] [32%N] [] [] [32%N] n rest eq_refl eq_refl
                          ltac:(discriminate) eq_refl eq_refl eq_refl Hn Hq) as Hx.
      destruct (trim n) as [|x t]; [congruence|]. exact Hx. }
    unfold scanFile. rewrite Hext, Hname. simpl.
    rewrite normalizeName_trim, mapGet_mapSet, jstr_eqb_refl. reflexivity.
  - intros fullPath entryName st raw Hext Hno normalizedName.
    unfold scanFile. rewrite Hext, (Hnone raw Hno). simpl.
    rewrite mapGet_mapSet, jstr_eqb_refl. reflexivity.
Qed.

Lemma X15_name_directive_witness :
  extractTemplateName (engineOf []) cardFile = Some (js "User Card") /\
  extractTemplateName (engineOf []) (markup "<!-- @template: card --><p>x</p>")
  = Some (js "card") /\
  extractTemplateName (engineOf []) (js "<p>plain</p>") = None /\
  mapGet (js "user card")
         (current (fst (scanFile (sampleFs None) (engineOf []) (js "views/c.html")
                                 (js "c.html") (Some cardFile) [[]])))
  = Some {| name := js "user card"; filePath := js "views/c.html"; content := cardFile |}.
Proof.
  destruct (@X15_name_directive (sampleFs None) (engineOf []) eq_refl)
    as (Hnamed & Hcolon & Hnone & Hfile & _).
  split; [|split; [|split]].
  - exact (Hnamed [32%N] [32%N] [] [] [32%N] (js "User Card") (js "<p>{{ name }}</p>")
                  eq_refl eq_refl ltac:(discriminate) eq_refl eq_refl eq_refl
                  ltac:(discriminate) ltac:(absent)).
  - exact (Hcolon [32%N] [32%N] [32%N] 99%N (js "ard") (js "<p>x</p>")
                  eq_refl eq_refl eq_refl eq_refl ltac:(discriminate)
                  ltac:(intros x Hx; vm_compute in Hx;
                        repeat (destruct Hx as [Hx|Hx];
                                [subst x; split; discriminate|]); contradiction)).
  - apply Hnone. absent.
  - exact (Hfile (js "views/c.html") (js "c.html") [[]] (js "User Card")
                 (js "<p>{{ name }}</p>") eq_refl ltac:(discriminate) ltac:(absent)
                 ltac:(discriminate)).
Defined.

(** ** Reading attributes *)

Lemma is_space_not_word (c : jschar) : is_space c = true -> is_word c = false.
Proof.
  intros Hc. destruct (is_word c) eqn:Hw; [|reflexivity].
  assert (Hr : in_range 48 122 c = true).
  { unfold is_word, in_range in *.
    repeat match goal with
           | H : (_ || _) = true |- _ => apply orb_true_iff in H; destruct H as [H|H]
           | H : (_ && _) = true |- _ => apply andb_true_iff in H; destruct H
           | H : N.leb _ _ = true |- _ => apply N.leb_le in H
           | H : N.eqb _ _ = true |- _ => apply N.eqb_eq in H
           end;
      apply andb_true_iff; split; apply N.leb_le; lia. }
  assert (Hs : is_space c = false).
  { unfold in_range in Hr. apply andb_true_iff in Hr. destruct Hr as (Hlo & Hhi).
    apply N.leb_le in Hlo, Hhi. unfold is_space, in_range.
    repeat (apply orb_false_iff; split);
      try (apply N.eqb_neq; lia);
      apply andb_false_iff; first [left; apply N.leb_gt; lia | right; apply N.leb_gt; lia]. }
  congruence.
Qed.

Lemma attribute_match (p : option jschar) (key value rest : jstr) :
  attributeName key = true -> ~ In 34%N value ->
  match_at false (source attrRegex) p (attributeText key value ++ rest)
  = Some (length (attributeText key value), attributeHit key value).
Proof.
  intros Hkey Hq. destruct key as [|c w]; [discriminate|].
  simpl in Hkey. apply andb_true_iff in Hkey. destruct Hkey as (Hc & Hw).
  assert (Hm : exists n,
             match_at false (source attrRegex) p (attributeText (c :: w) value ++ rest)
             = Some (n, {| matched := firstn n (attributeText (c :: w) value ++ rest);
                           groups := [(2, value); (1, c :: w)] |}) /\
             n = length (attributeText (c :: w) value)).
  { eexists. split.
    - eapply at_match.
      change (source attrRegex) with
        (RSeq (RCap 1 (RSeq word (star (RSet false [CWord; CChar 45]))))
           (RSeq (star space)
              (RSeq (text "=")
                 (RSeq (star space)
                    (RSeq (RLit 34)
                       (RSeq (RCap 2 (star (RSet true [CChar 34]))) (RLit 34))))))).
      unfold attributeText. rewrite <- !app_assoc.
      change ((c :: w) ++ js "=" ++ [34%N] ++ value ++ [34%N] ++ rest)
        with ((c :: w) ++ [] ++ js "=" ++ [] ++ 34%N :: value ++ 34%N :: rest).
      eapply leads_seq.
      + apply at_cap; [|shelve].
        eapply leads_seq.
        * apply at_set. unfold set_matches. simpl. rewrite Hc. reflexivity.
        * apply at_greedy.
          -- apply forallb_forall. intros x Hx. unfold set_matches. simpl.
             rewrite forallb_forall in Hw. specialize (Hw x Hx).
             rewrite orb_false_r. exact Hw.
          -- reflexivity.
          -- lia.
      + eapply leads_seq; [apply at_greedy; [reflexivity | reflexivity | simpl; lia]|].
        eapply leads_seq; [apply (@at_text false (js "="))|].
        eapply leads_seq; [apply at_greedy; [reflexivity | reflexivity | simpl; lia]|].
        eapply leads_seq; [apply at_lit; reflexivity|].
        eapply leads_seq.
        * apply at_cap; [|reflexivity].
          apply at_greedy.
          -- apply (@none_of_set false [34%N] value eq_refl).
             intros x Hx [Heq|[]]. subst x. exact (Hq Hx).
          -- reflexivity.
          -- lia.
        * apply at_lit. reflexivity.
    - unfold attributeText. simpl. unfold jstr, jschar in *.
      repeat (rewrite length_app; simpl). lia. }
  destruct Hm as (n & Hm & ->). rewrite Hm. unfold attributeHit.
  rewrite firstn_app, firstn_all, Nat.sub_diag. simpl firstn. rewrite app_nil_r. reflexivity.
  Unshelve. simpl. lia.
Qed.

(** ** Scanning past a match *)

Lemma scan_skip (icase : bool) (r : regex) (m : jstr) :
  forall p rest,
    scan icase r p (m ++ rest) (length m) = scan icase r (lastOr p m) rest 0.
Proof.
  induction m as [|c m IH]; intros p rest.
  - reflexivity.
  - simpl. apply IH.
Qed.

Lemma scan_hit (icase : bool) (r : regex) (p : option jschar) (m rest : jstr) (h : hit) :
  match_at icase r p (m ++ rest) = Some (length m, h) -> m <> [] ->
  scan icase r p (m ++ rest) 0 = Hit h :: scan icase r (lastOr p m) rest 0.
Proof.
  intros Hm Hne. destruct m as [|c m]; [congruence|].
  change ((c :: m) ++ rest) with (c :: (m ++ rest)) in *.
  cbn [scan]. rewrite Hm. cbn [length]. f_equal.
  change (lastOr p (c :: m)) with (lastOr (Some c) m). apply scan_skip.
Qed.

Lemma scan_misses (icase : bool) (r : regex) (ws : jstr) :
  (forall c p s, In c ws -> match_at icase r p (c :: s) = None) ->
  forall p rest,
    scan icase r p (ws ++ rest) 0
    = List.map Lit ws ++ scan icase r (lastOr p ws) rest 0.
Proof.
  induction ws as [|c ws IH]; intros Hmiss p rest.
  - reflexivity.
  - change ((c :: ws) ++ rest) with (c :: (ws ++ rest)).
    cbn [scan]. rewrite (Hmiss c p (ws ++ rest) (or_introl eq_refl)).
    simpl. f_equal. apply IH. intros x p' s Hx. apply Hmiss. right. exact Hx.
Qed.

Lemma attribute_miss (c : jschar) (p : option jschar) (s : jstr) :
  is_word c = false -> match_at false (source attrRegex) p (c :: s) = None.
Proof.
  intros Hc. unfold match_at. cbn [source attrRegex global seq rmatch word].
  unfold step. cbn [rest]. unfold set_matches. simpl existsb. rewrite Hc. reflexivity.
Qed.

Lemma hits_app (l1 l2 : list piece) :
  flat_map (fun pc => match pc with Hit h => [h] | Lit _ => [] end) (l1 ++ l2)
  = flat_map (fun pc => match pc with Hit h => [h] | Lit _ => [] end) l1
    ++ flat_map (fun pc => match pc with Hit h => [h] | Lit _ => [] end) l2.
Proof. apply flat_map_app. Qed.

Lemma hits_literals (ws : jstr) :
  flat_map (fun pc => match pc with Hit h => [h] | Lit _ => [] end) (List.map Lit ws) = [].
Proof. induction ws as [|c ws IH]; simpl; [reflexivity | exact IH]. Qed.

Lemma spaces_miss (ws : jstr) :
  allSpace ws = true ->
  forall c p s, In c ws -> match_at false (source attrRegex) p (c :: s) = None.
Proof.
  intros Hws c p s Hc. apply attribute_miss. apply is_space_not_word.
  unfold allSpace in Hws. rewrite forallb_forall in Hws. exact (Hws c Hc).
Qed.

Lemma attributeText_nonempty (key value : jstr) : attributeText key value <> [].
Proof. unfold attributeText. destruct key; discriminate. Qed.

(** The matches of the attribute pattern in a row of attributes. *)
Lemma attributes_scan (items : list attribute) (trailing : jstr) :
  Forall literalAttribute items -> allSpace trailing = true ->
  forall p,
    flat_map (fun pc => match pc with Hit h => [h] | Lit _ => [] end)
             (scan false (source attrRegex) p (attributesText items trailing) 0)
    = List.map (fun a => attributeHit (attrKey a) (attrValue a)) items.
Proof.
  intros Hitems Htrailing. induction Hitems as [|a items Ha Hitems IH]; intros p.
  - simpl. rewrite <- (app_nil_r trailing).
    rewrite (scan_misses false (source attrRegex) trailing (spaces_miss trailing Htrailing)).
    rewrite hits_app, hits_literals. destruct (lastOr p trailing); reflexivity.
  - destruct Ha as (Hlead & Hkey & _ & Hquote & _).
    cbn [attributesText List.map].
    rewrite (scan_misses false (source attrRegex) (attrLead a)
                         (spaces_miss (attrLead a) Hlead)).
    rewrite hits_app, hits_literals. cbn [app].
    rewrite (@scan_hit false (source attrRegex) _ (attributeText (attrKey a) (attrValue a))
                       _ (attributeHit (attrKey a) (attrValue a))
                       (@attribute_match _ (attrKey a) (attrValue a) _ Hkey Hquote)
                       (@attributeText_nonempty _ _)).
    cbn [flat_map app]. f_equal. apply IH.
Qed.

Lemma attributes_execAll (items : list attribute) (trailing : jstr) :
  Forall literalAttribute items -> allSpace trailing = true ->
  execAll attrRegex (attributesText items trailing)
  = List.map (fun a => attributeHit (attrKey a) (attrValue a)) items.
Proof. intros Hitems Htrailing. apply (@attributes_scan items trailing Hitems Htrailing). Qed.

Lemma parseAttributes_literals (H : Host) (data : value) (items : list attribute) :
  Forall literalAttribute items ->
  forall acc,
    parseAttributes_loop H data
      (List.map (fun a => attributeHit (attrKey a) (attrValue a)) items) acc
    = Ok (fold_left (fun acc a => define (attrKey a) (VStr (attrValue a)) acc) items acc).
Proof.
  induction 1 as [|a items Ha Hitems IH]; intros acc; simpl; [reflexivity|].
  destruct Ha as (_ & _ & Hproto & _ & Hbrace).
  change (group 1 (attributeHit (attrKey a) (attrValue a))) with (attrKey a).
  change (group 2 (attributeHit (attrKey a) (attrValue a))) with (attrValue a).
  rewrite (@matchFirst_without exprAttrRegex 123%N (attrValue a) eq_refl eq_refl Hbrace).
  unfold setAttribute. rewrite (jstr_eqb_neq Hproto). simpl. apply IH.
Qed.

Lemma assoc_fold_define (k : jstr) (items : list attribute) :
  forall acc,
    ~ In k (List.map attrKey items) ->
    assoc k (fold_left (fun acc a => define (attrKey a) (VStr (attrValue a)) acc) items acc)
    = assoc k acc.
Proof.
  induction items as [|a items IH]; intros acc Hno; simpl; [reflexivity|].
  rewrite IH; [|intros Hin; apply Hno; right; exact Hin].
  rewrite assoc_define.
  rewrite jstr_eqb_neq; [reflexivity|]. intros Heq. apply Hno. left. congruence.
Qed.

(** X16: [parseAttributes] reads back what markup writes.  A row of
    attributes [key=Q value Q], each after any white space, where a key is a
    word character followed by word characters and hyphens and a value
    holds no double quote and no opening brace, yields the object with each key
    bound to its value as a string, whatever the data: the last of two
    attributes of one name decides.  A text without a double quote or
    without [=], as a row of single-quoted or bare attributes is, yields the
    empty object. *)
Theorem X16_parseAttributes_reads_literals (H : Host) :
  (forall items trailing data,
      Forall literalAttribute items -> allSpace trailing = true ->
      parseAttributes H (attributesText items trailing) data
      = Ok (attributesObject items)) /\
  (forall items a,
      assoc (attrKey a) (attributesObject (items ++ [a])) = Some (VStr (attrValue a))) /\
  (forall items a,
      In a items -> NoDup (List.map attrKey items) ->
      assoc (attrKey a) (attributesObject items) = Some (VStr (attrValue a))) /\
  (forall attrs data,
      ~ In 34%N attrs \/ ~ In 61%N attrs -> parseAttributes H attrs data = Ok []).
Proof.
  split; [|split; [|split]].
  - intros items trailing data Hitems Htrailing. unfold parseAttributes.
    rewrite (@attributes_execAll items trailing Hitems Htrailing).
    apply parseAttributes_literals. exact Hitems.
  - intros items a. unfold attributesObject. rewrite fold_left_app. simpl.
    rewrite assoc_define, jstr_eqb_refl. reflexivity.
  - intros items a Hin Hnd. unfold attributesObject.
    apply in_split in Hin. destruct Hin as (l1 & l2 & ->).
    rewrite fold_left_app. simpl.
    rewrite map_app in Hnd. simpl in Hnd. apply NoDup_remove_2 in Hnd.
    rewrite assoc_fold_define.
    + rewrite assoc_define, jstr_eqb_refl. reflexivity.
    + intros Hk. apply Hnd. apply in_or_app. right. exact Hk.
  - intros attrs data Hno. unfold parseAttributes, execAll.
    assert (Hp : pieces attrRegex attrs = List.map Lit attrs).
    { destruct Hno as [Hno|Hno].
      - exact (@pieces_without attrRegex 34%N attrs eq_refl eq_refl Hno).
      - exact (@pieces_without attrRegex 61%N attrs eq_refl eq_refl Hno). }
    rewrite Hp, hits_literals. reflexivity.
Qed.

Lemma X16_parseAttributes_witness :
  parseAttributes sampleHost (markup " title=`Hi` data-id=`7` title=`Yo` ") VNull
  = Ok [(js "title", str "Yo"); (js "data-id", str "7")] /\
  parseAttributes sampleHost (js "title='Hi' open") (VNum 1) = Ok [].
Proof.
  destruct (X16_parseAttributes_reads_literals sampleHost) as (Hread & _ & _ & Hnone).
  split.
  - apply (Hread [ {| attrLead := js " "; attrKey := js "title"; attrValue := js "Hi" |};
                   {| attrLead := js " "; attrKey := js "data-id"; attrValue := js "7" |};
                   {| attrLead := js " "; attrKey := js "title"; attrValue := js "Yo" |} ]
                 (js " ") VNull).
    + repeat constructor; simpl; try discriminate; absent.
    + reflexivity.
  - apply Hnone. left. absent.
Defined.
